(** * Internet-Mood-Radar: the collection pipeline and its progress tracker

    A shallow embedding of [src/lib/scan-status.ts] (the progress tracker)
    and of [src/adapters/search.ts] (the search adapter's [fetch] pipeline),
    with the properties the specification states about them, followed by
    further properties of the two and by the code around them: the queries
    of [src/lib/history.ts] over the stored history, the helpers of the
    headline panel, the news feed and the map page that show the stored
    items, and the migration of the cached pulses.

    Conventions of the embedding
    - The arithmetic of [calculatePhaseProgress] and [calcFetchProgress]
      is done on IEEE 754 binary64 numbers ([number], the kernel's
      primitive floats), as JavaScript does it; [Math.round] takes a finite
      number to the integer [floor (x + 1/2)]. Numbers that the code only
      stores, compares or counts (the progress values produced by
      [Math.round], positions, lengths) are integers ([Z], [nat]).
    - A JavaScript [Map] is an association list in insertion order
      ([JsMap]): iteration order decides which region is reported.
    - A JavaScript [Set] of strings is a [gset string].
    - A function that [throw]s returns a [Thrown] value.
    - A [Date] is its time value, the milliseconds since the epoch in UTC;
      [setDate] works on the local time of the host's time zone.
    - State is passed explicitly: the tracker's module variables are a
      [Tracker], and [fetch] works on a [World] (the tracker and the calls
      made to collaborators so far).
    - The collaborators behind the [@/lib/...] imports that are not part of
      the sources (search, scrape, extraction, geocoding, URL normalisation,
      identifier hashing) are the fields of the class [Collaborators];
      every theorem holds for all of them. [workerPoolCollect] and
      [emptyResult], which are not part of the sources either, are defined
      from the specification.
    - A query of the database is the list operation it denotes on the rows
      of its table ([where] is a filter, [orderBy] a stable sort); columns
      that hold JSON are given parsed.
    - The characters of a string stand for the code units of the
      JavaScript string. *)

From Corelib Require PrimFloat FloatOps SpecFloat Uint63Axioms.
From Stdlib Require Import ZArith QArith Qround Lia.
From Stdlib Require Import Sorting.Sorted.
From stdpp Require Import gmap strings list pretty.

Local Open Scope Z_scope.

(** ** JavaScript values used by the code *)

(** [a || b] on strings: the empty string is falsy. *)
Definition str_or (a b : string) : string :=
  if decide (a = "") then b else a.

(** [a || b] where [a] may be [undefined]. *)
Definition opt_str_or (a : option string) (b : string) : string :=
  match a with
  | Some s => str_or s b
  | None => b
  end.

(** A [number] is an IEEE 754 binary64 value. *)
Definition number := PrimFloat.float.

(** The number an integer literal or a length denotes. *)
Definition number_of_Z (z : Z) : number :=
  match z with
  | Zneg p => PrimFloat.opp (PrimFloat.of_uint63 (Uint63Axioms.of_Z (Zpos p)))
  | _ => PrimFloat.of_uint63 (Uint63Axioms.of_Z z)
  end.

(** The rational a finite number is; [None] for NaN and the infinities. *)
Definition number_value (x : number) : option Q :=
  match FloatOps.Prim2SF x with
  | SpecFloat.S754_zero _ => Some 0%Q
  | SpecFloat.S754_finite sign m e =>
      let v :=
        match e with
        | Z0 => inject_Z (Zpos m)
        | Zpos k => inject_Z (Zpos m * 2 ^ Zpos k)
        | Zneg k => (Zpos m # 2 ^ k)%Q
        end in
      Some (if sign then (- v)%Q else v)
  | SpecFloat.S754_infinity _ | SpecFloat.S754_nan => None
  end.

(** The nearest integer, halves rounded up. *)
Definition round_half_up (x : Q) : Z := Qfloor (x + (1 # 2))%Q.

(** [Math.round] on a finite number; NaN and the infinities, which
    [Math.round] returns as they are, have no integer ([None]). *)
Definition Math_round (x : number) : option Z :=
  round_half_up <$> number_value x.

(** A [Map<string, V>]: [set] overwrites in place or appends, iteration
    follows insertion order. *)
Module JsMap.
Section WithValue.
Context {V : Type}.

Definition t := list (string * V).

Definition clear : t := [].

Fixpoint set (k : string) (v : V) (m : t) : t :=
  match m with
  | [] => [(k, v)]
  | (k', v') :: m' =>
      if decide (k' = k) then (k, v) :: m' else (k', v') :: set k v m'
  end.

Fixpoint get (k : string) (m : t) : option V :=
  match m with
  | [] => None
  | (k', v') :: m' => if decide (k' = k) then Some v' else get k m'
  end.

Definition size (m : t) : nat := length m.

End WithValue.
Arguments t : clear implicits.
End JsMap.

(** ** scan-status.ts *)

Module ScanPhase.
Inductive t :=
| idle | fetching | processing | clustering | summarizing | saving
| complete | error.
End ScanPhase.

(** Dates are opaque time stamps. *)
Definition Date := Z.

Record ScanStatus := {
  phase : ScanPhase.t;
  message : string;
  progress : option Z;
  startedAt : option Date;
  completedAt : option Date;
  error : option string;
  itemCount : option Z
}.

(** [Partial<ScanStatus>]: a key is absent ([None]) or present with a value;
    for the optional fields of [ScanStatus] the value may be [undefined]
    ([Some None]). *)
Module Partial.
Record t := {
  phase : option ScanPhase.t;
  message : option string;
  progress : option (option Z);
  startedAt : option (option Date);
  completedAt : option (option Date);
  error : option (option string);
  itemCount : option (option Z)
}.

Definition empty : t :=
  {| phase := None; message := None; progress := None; startedAt := None;
     completedAt := None; error := None; itemCount := None |}.
End Partial.

(** The value of one key of [{ ...old, ...update }]. *)
Definition spread {A : Type} (old : A) (update : option A) : A :=
  match update with
  | Some v => v
  | None => old
  end.

(** The values of the [regionProgress] map. *)
Module Region.
Record info := { progress : Z; message : string }.
End Region.

(** The module's mutable variables ([scanPromise] is not modelled). *)
Record Tracker := {
  currentStatus : ScanStatus;
  regionProgress : JsMap.t Region.info;
  totalRegions : nat
}.

Definition initialStatus : ScanStatus :=
  {| phase := ScanPhase.idle; message := "Ready"; progress := None;
     startedAt := None; completedAt := None; error := None;
     itemCount := None |}.

Definition initialTracker : Tracker :=
  {| currentStatus := initialStatus; regionProgress := JsMap.clear;
     totalRegions := 0 |}.

Definition getScanStatus (t : Tracker) : ScanStatus := currentStatus t.

Definition updateScanStatus (update : Partial.t) (t : Tracker) : Tracker :=
  let cs := currentStatus t in
  {| currentStatus :=
       {| phase := spread (phase cs) (Partial.phase update);
          message := spread (message cs) (Partial.message update);
          progress := spread (progress cs) (Partial.progress update);
          startedAt := spread (startedAt cs) (Partial.startedAt update);
          completedAt := spread (completedAt cs) (Partial.completedAt update);
          error := spread (error cs) (Partial.error update);
          itemCount := spread (itemCount cs) (Partial.itemCount update) |};
     regionProgress := regionProgress t;
     totalRegions := totalRegions t |}.

Definition initRegionTracking (regions : list string) (t : Tracker) : Tracker :=
  {| currentStatus := currentStatus t;
     regionProgress :=
       fold_left
         (fun m region =>
            JsMap.set region
              {| Region.progress := 0; Region.message := "Starting..." |} m)
         regions JsMap.clear;
     totalRegions := length regions |}.

(** One turn of the loop [for (const [r, p] of regionProgress)]. *)
Definition slowest_step (acc : Z * string) (e : string * Region.info)
  : Z * string :=
  let '(minProgress, slowestRegion) := acc in
  if Region.progress e.2 <? minProgress
  then (Region.progress e.2, e.1)
  else (minProgress, slowestRegion).

Definition slowest (m : JsMap.t Region.info) : Z * string :=
  fold_left slowest_step m (100, "").

Definition updateRegionProgress
    (region : string) (progress : Z) (message : string) (t : Tracker)
  : Tracker :=
  let m :=
    JsMap.set region
      {| Region.progress := progress; Region.message := message |}
      (regionProgress t) in
  let t1 :=
    {| currentStatus := currentStatus t; regionProgress := m;
       totalRegions := totalRegions t |} in
  if (0 <? JsMap.size m)%nat then
    let '(minProgress, slowestRegion) := slowest m in
    let slowestInfo := JsMap.get slowestRegion m in
    let regionLabel :=
      if (1 <? totalRegions t)%nat then " (" +:+ slowestRegion +:+ ")" else "" in
    updateScanStatus
      {| Partial.phase := Some ScanPhase.fetching;
         Partial.message :=
           Some (opt_str_or (Region.message <$> slowestInfo) message
                 +:+ regionLabel);
         Partial.progress := Some (Some minProgress);
         Partial.startedAt := None; Partial.completedAt := None;
         Partial.error := None; Partial.itemCount := None |}
      t1
  else t1.

Definition clearRegionTracking (t : Tracker) : Tracker :=
  {| currentStatus := currentStatus t; regionProgress := JsMap.clear;
     totalRegions := 0 |}.

Record Range := { range_start : Z; range_end : Z }.

(** [keyof typeof PHASE_PROGRESS]. *)
Module PhaseKey.
Inductive t := fetching | processing | clustering | summarizing | saving.
End PhaseKey.

Definition PHASE_PROGRESS (phase : PhaseKey.t) : Range :=
  match phase with
  | PhaseKey.fetching => {| range_start := 0; range_end := 50 |}
  | PhaseKey.processing => {| range_start := 50; range_end := 60 |}
  | PhaseKey.clustering => {| range_start := 60; range_end := 70 |}
  | PhaseKey.summarizing => {| range_start := 70; range_end := 90 |}
  | PhaseKey.saving => {| range_start := 90; range_end := 100 |}
  end.

(** [range.start + (stepProgress / 100) * (range.end - range.start)],
    before rounding. *)
Definition linear_map (range : Range) (stepProgress : number) : number :=
  PrimFloat.add (number_of_Z (range_start range))
    (PrimFloat.mul
       (PrimFloat.div stepProgress (number_of_Z 100))
       (PrimFloat.sub (number_of_Z (range_end range))
          (number_of_Z (range_start range)))).

Definition calculatePhaseProgress (phase : PhaseKey.t) (stepProgress : number)
  : option Z :=
  let range := PHASE_PROGRESS phase in
  Math_round (linear_map range stepProgress).

Definition isScanInProgress (t : Tracker) : bool :=
  match phase (currentStatus t) with
  | ScanPhase.idle | ScanPhase.complete | ScanPhase.error => false
  | _ => true
  end.

Definition resetScanStatus (t : Tracker) : Tracker :=
  {| currentStatus := initialStatus; regionProgress := regionProgress t;
     totalRegions := totalRegions t |}.

(** ** Errors and results of fallible calls *)

(** A JavaScript [Error]; only its [message] is read. *)
Record JsError := { error_message : string }.

Inductive Result (A : Type) :=
| Ok (a : A)
| Thrown (e : JsError).
Arguments Ok {A} a.
Arguments Thrown {A} e.

(** ** The data of search.ts *)

(** [ContentCategory] and the lens are string unions; the category comes
    back from the extraction model, so any string can occur at run time. *)
Definition ContentCategory := string.

Module NonFatalError.
Record t := { source : string; message : string; timestamp : Date }.
End NonFatalError.

Module CountryConfig.
Record t := { name : string; code : string }.
End CountryConfig.

Module SourceConfig.
Record t := { name : string }.
End SourceConfig.

Module BrightDataStatus.
Record t := { available : bool; message : string }.
End BrightDataStatus.

Module SearchSettings.
Record t := {
  maxQueries : option Z;
  maxUrlsToScrape : option Z;
  uiLanguage : option string
}.
End SearchSettings.

(** The constants of [SEARCH_SETTINGS] that the adapter reads. *)
Module SEARCH_SETTINGS.
Record t := {
  maxConcurrentSearches : nat;
  maxConcurrentScrapes : nat;
  maxUrlsToScrape : Z
}.
End SEARCH_SETTINGS.

Module SearchQuery.
Record t := { query : string; category : ContentCategory; language : string }.
End SearchQuery.

Module DirectUrl.
Record t := { url : string; name : string }.
End DirectUrl.

Module SerpResult.
Record t := { url : string; title : string; snippet : string; position : Z }.
End SerpResult.

Module UrlToScrape.
Record t := {
  url : string; title : string; snippet : string; category : ContentCategory
}.
End UrlToScrape.

(** What [scrapeAsMarkdown] resolves to. *)
Module ScrapeResult.
Record t := {
  content : string; imageUrl : option string; title : option string
}.
End ScrapeResult.

Module ScrapedContent.
Record t := {
  url : string;
  content : string;
  imageUrl : option string;
  title : option string;
  category : ContentCategory
}.
End ScrapedContent.

(** The metrics object passed through from the extraction. *)
Definition Engagement := list (string * Z).

(** What [extractContent] resolves to when it is not [null]. *)
Module Extracted.
Record t := {
  title : string;
  summary : string;
  category : ContentCategory;
  location : option string;
  articleUrl : option string;
  publishedAt : option Date;
  engagement : option Engagement;
  imageUrl : option string;
  moodScore : option Z;
  eventDate : option Date
}.
End Extracted.

(** What [geocode] resolves to when it is not [null]. *)
Module Coords.
Record t := { lat : Q; lng : Q; country : option string }.
End Coords.

Module Location.
Record t := {
  name : string; lat : Q; lng : Q; country : string; region : string
}.
End Location.

Module NormalizedItem.
Record t := {
  id : string;
  source : string;
  lens : string;
  language : string;
  title : string;
  text : string;
  createdAt : Date;
  url : string;
  engagement : option Engagement;
  context : string;
  imageUrl : option string;
  faviconUrl : string;
  location : option Location.t;
  moodScore : option Z;
  eventDate : option Date
}.
End NormalizedItem.

(** [FetchResult]; [message] is the explanation an empty result carries. *)
Module FetchResult.
Record t := {
  items : list NormalizedItem.t;
  errors : list NonFatalError.t;
  sourceName : string;
  message : option string
}.
End FetchResult.

(** A row of the [historicalItem] table, as far as the recency query reads
    it. *)
Module HistoricalItem.
Record t := { url : string; fetchedAt : Date }.
End HistoricalItem.

(** The calls [fetch] makes to its collaborators, in the order made. *)
Inductive Stage := SearchStage | ScrapeStage | ExtractStage.

Inductive Event :=
| EvGenerate
| EvPool (stage : Stage) (size : nat)
| EvSearch (query : string)
| EvRecentlyScraped
| EvSelect (candidates : list SerpResult.t)
| EvScrape (url : string)
| EvExtract (url : string)
| EvGeocode (location : string).

(** The state outside a call of [fetch]: the tracker's module variables and
    the calls made so far. *)
Record World := { tracker : Tracker; trace : list Event }.

(** The state a pipeline step works on: the world, [fetch]'s [errors] array
    and the [completed] counter of the running helper. *)
Record St := {
  world : World;
  errors : list NonFatalError.t;
  completed : nat
}.

Definition with_tracker (f : Tracker -> Tracker) (st : St) : St :=
  {| world := {| tracker := f (tracker (world st));
                 trace := trace (world st) |};
     errors := errors st; completed := completed st |}.

Definition log_event (ev : Event) (st : St) : St :=
  {| world := {| tracker := tracker (world st);
                 trace := trace (world st) ++ [ev] |};
     errors := errors st; completed := completed st |}.

Definition push_error (e : NonFatalError.t) (st : St) : St :=
  {| world := world st; errors := errors st ++ [e];
     completed := completed st |}.

Definition set_completed (n : nat) (st : St) : St :=
  {| world := world st; errors := errors st; completed := n |}.

(** ** The worker pool *)

Section WorkerPool.
Context {Item Out State : Type}.

(** A worker invocation settles with a value or a thrown error and leaves
    its effects in the state; its synchronous effects are applied at the
    moment it settles. *)
Variable worker : Item -> nat -> State -> Result Out * State.
Variable concurrency : nat.
Variable onError : option (Item -> nat -> JsError -> State -> State).

(** What a run of the pool leaves: the returned collection, the state, and
    two records of what happened: the [onError] calls and the invocations
    in the order they settled. *)
Record PoolRun := {
  results : list Out;
  final : State;
  onErrorCalls : list (Item * nat * JsError);
  settled : list (nat * Item * Result Out)
}.

Definition pool_start (s : State) : PoolRun :=
  {| results := []; final := s; onErrorCalls := []; settled := [] |}.

(** Start pending items while fewer than [concurrency] are in flight. *)
Fixpoint refill (pending inFlight : list (nat * Item))
  : list (nat * Item) * list (nat * Item) :=
  match pending with
  | [] => ([], inFlight)
  | x :: queue =>
      if (length inFlight <? concurrency)%nat
      then refill queue (inFlight ++ [x])
      else (pending, inFlight)
  end.

(** The in-flight invocation that settles next: the scheduler's choice,
    reduced modulo the number in flight. *)
Definition pick (choice : nat) (inFlight : list (nat * Item))
  : option ((nat * Item) * list (nat * Item)) :=
  let k := (choice mod length inFlight)%nat in
  match inFlight !! k with
  | Some x => Some (x, delete k inFlight)
  | None => None
  end.

Definition settle (i : nat) (x : Item) (r : Result Out) (s : State) (run : PoolRun)
  : PoolRun :=
  match r with
  | Ok o =>
      {| results := results run ++ [o]; final := s;
         onErrorCalls := onErrorCalls run;
         settled := settled run ++ [(i, x, r)] |}
  | Thrown e =>
      match onError with
      | Some handler =>
          {| results := results run; final := handler x i e s;
             onErrorCalls := onErrorCalls run ++ [(x, i, e)];
             settled := settled run ++ [(i, x, r)] |}
      | None =>
          {| results := results run; final := s;
             onErrorCalls := onErrorCalls run;
             settled := settled run ++ [(i, x, r)] |}
      end
  end.

Definition invoke (ix : nat * Item) (run : PoolRun) : PoolRun :=
  let '(r, s) := worker ix.2 ix.1 (final run) in
  settle ix.1 ix.2 r s run.

(** Continuous pull: refill, let one invocation settle, repeat. One turn
    settles one item, so [fuel] is the number of items. *)
Fixpoint pool_loop (fuel : nat) (schedule : list nat)
    (pending inFlight : list (nat * Item)) (run : PoolRun) : PoolRun :=
  match fuel with
  | 0%nat => run
  | S fuel' =>
      let '(pending1, inFlight1) := refill pending inFlight in
      match pick (hd 0%nat schedule) inFlight1 with
      | None => run
      | Some (ix, rest) =>
          pool_loop fuel' (tl schedule) pending1 rest (invoke ix run)
      end
  end.

Definition indexed (items : list Item) : list (nat * Item) := imap pair items.

(** Modelled from the spec: [workerPoolCollect] of [@/lib/worker-pool],
    which is not part of the sources. Section 4.1: each item is passed to
    [worker] with its index, at most [concurrency] invocations are
    outstanding, the next pending item starts as soon as one settles, a
    failing item is reported to [onError] (if provided) with the item, its
    index and the error and adds nothing to the result, and the call
    resolves when every item has settled. The order in which in-flight
    invocations settle is the scheduler's: the [schedule] argument. *)
Definition workerPoolCollect (items : list Item) (schedule : list nat) (s : State)
  : PoolRun :=
  pool_loop (length items) schedule (indexed items) [] (pool_start s).

(** The same run, item after item in a given order. *)
Definition run_in_order (order : list (nat * Item)) (run : PoolRun) : PoolRun :=
  fold_left (fun run ix => invoke ix run) order run.

(** The order in which the pool's invocations settle; it depends on the
    schedule only. *)
Fixpoint completion_order (fuel : nat) (schedule : list nat)
    (pending inFlight : list (nat * Item)) : list (nat * Item) :=
  match fuel with
  | 0%nat => []
  | S fuel' =>
      let '(pending1, inFlight1) := refill pending inFlight in
      match pick (hd 0%nat schedule) inFlight1 with
      | None => []
      | Some (ix, rest) =>
          ix :: completion_order fuel' (tl schedule) pending1 rest
      end
  end.

Definition succeeded (log : list (nat * Item * Result Out)) : list Out :=
  omap (fun e => match e.2 with Ok o => Some o | Thrown _ => None end) log.

Definition failed (log : list (nat * Item * Result Out))
  : list (Item * nat * JsError) :=
  omap (fun e =>
          match e.2 with
          | Ok _ => None
          | Thrown err => Some (e.1.2, e.1.1, err)
          end) log.

End WorkerPool.

Arguments PoolRun : clear implicits.

(** The specification's account of a run of the pool, in its own words
    (section 4.1 and the failure isolation of section 7), to compare
    [workerPoolCollect] with: the invocations settle one after the other in
    some order [order] of the items with their positions in the input; the
    value of an invocation joins the collection; a failure adds nothing to
    it and is handed to [onError] (if provided) with the item, its position
    and the error, and the items that remain follow. [handled] lists the
    failures. *)
Record Isolated {Item Out State : Type} := {
  collected : list Out;
  reached : State;
  handled : list (Item * nat * JsError)
}.

Arguments Isolated : clear implicits.

Definition isolated_step {Item Out State : Type}
    (worker : Item -> nat -> State -> Result Out * State)
    (onError : option (Item -> nat -> JsError -> State -> State))
    (acc : Isolated Item Out State) (ix : nat * Item)
  : Isolated Item Out State :=
  match worker ix.2 ix.1 (reached acc) with
  | (Ok o, s) =>
      {| collected := collected acc ++ [o]; reached := s;
         handled := handled acc |}
  | (Thrown e, s) =>
      {| collected := collected acc;
         reached :=
           match onError with
           | Some handler => handler ix.2 ix.1 e s
           | None => s
           end;
         handled := handled acc ++ [(ix.2, ix.1, e)] |}
  end.

Definition isolated_run {Item Out State : Type}
    (worker : Item -> nat -> State -> Result Out * State)
    (onError : option (Item -> nat -> JsError -> State -> State))
    (order : list (nat * Item)) (s : State) : Isolated Item Out State :=
  fold_left (isolated_step worker onError) order
    {| collected := []; reached := s; handled := [] |}.

(** ** search.ts *)

Module Substep.
Inductive t :=
| queryGen | serpSearch | mergeDedup | urlSelect | scraping | extraction.
End Substep.

Definition FETCH_SUBSTEPS (substep : Substep.t) : Range :=
  match substep with
  | Substep.queryGen => {| range_start := 0; range_end := 5 |}
  | Substep.serpSearch => {| range_start := 5; range_end := 20 |}
  | Substep.mergeDedup => {| range_start := 20; range_end := 25 |}
  | Substep.urlSelect => {| range_start := 25; range_end := 30 |}
  | Substep.scraping => {| range_start := 30; range_end := 70 |}
  | Substep.extraction => {| range_start := 70; range_end := 100 |}
  end.

Definition calcFetchProgress (substep : Substep.t) (stepProgress : number)
  : option Z :=
  let range := FETCH_SUBSTEPS substep in
  let substepProgress := linear_map range stepProgress in
  calculatePhaseProgress PhaseKey.fetching substepProgress.

(** A progress that is NaN or infinite is not modelled (the tracker is
    left as it is): the adapter reports 0, 100 and [(completed / total) *
    100] with [1 <= completed <= total] only, which are finite. *)
Definition reportRegionProgress (region : string) (substep : Substep.t)
    (stepProgress : number) (message : string) (t : Tracker) : Tracker :=
  match calcFetchProgress substep stepProgress with
  | Some progress => updateRegionProgress region progress message t
  | None => t
  end.

(** [(completed / total) * 100]. *)
Definition percent (completed total : nat) : number :=
  PrimFloat.mul
    (PrimFloat.div (number_of_Z (Z.of_nat completed))
       (number_of_Z (Z.of_nat total)))
    (number_of_Z 100).

(** The text [(completed/total)] of the progress messages. *)
Definition fraction (completed total : nat) : string :=
  "(" +:+ pretty completed +:+ "/" +:+ pretty total +:+ ")".

(** The double-quote character of the search error message. *)
Definition dquote : string := String (Ascii.ascii_of_nat 34) EmptyString.

(** [unique.sort((a, b) => a.position - b.position)]: [Array.prototype.sort]
    is stable, so elements of equal position keep their order. *)
Fixpoint insert_by_position (x : SerpResult.t) (l : list SerpResult.t)
  : list SerpResult.t :=
  match l with
  | [] => [x]
  | y :: l' =>
      if SerpResult.position x <=? SerpResult.position y
      then x :: y :: l'
      else y :: insert_by_position x l'
  end.

Definition sort_by_position (l : list SerpResult.t) : list SerpResult.t :=
  foldr insert_by_position [] l.

(** [categoryToLens]. *)
Definition categoryToLens (category : ContentCategory) : string :=
  if decide (category = "events") then "Events"
  else if decide (category = "tech") then "Tech"
  else if decide (category = "weather") then "Weather"
  else if decide (category = "social") then "Conversation"
  else "Headlines".

(** history.ts: [URL_DEDUP_DAYS]. *)
Definition URL_DEDUP_DAYS : Z := 7.

(** The scheduler's choices for the three pool runs of one [fetch]. *)
Record Schedules := {
  searchOrder : list nat;
  scrapeOrder : list nat;
  extractOrder : list nat
}.

(** The collaborators of the adapter that are not part of the sources
    ([@/lib/utils], [@/lib/utils/url], [@/lib/language], [@/lib/brightdata],
    [@/lib/search-queries], [@/lib/geocoding], [@/lib/config]), the host
    parser behind [new URL(...).hostname], the [historicalItem] table, the
    clock read by [new Date()], which may depend on the calls made so far,
    and the time zone of the host: [LocalTZA t isUTC] is the offset of local
    time from UTC in milliseconds, at the UTC time [t] when [isUTC] holds
    and at the local time [t] otherwise (ECMAScript's [LocalTZA]). *)
Class Collaborators := {
  normalizeUrl : string -> string;
  generateId : string -> string;
  getFaviconUrl : string -> string;
  detectLanguage : string -> string;
  URL_hostname : string -> Result string;
  getBrightDataStatus : BrightDataStatus.t;
  generateSearchQueries :
    CountryConfig.t -> option Z ->
    Result (list SearchQuery.t * list DirectUrl.t);
  serpSearch : string -> string -> string -> Z -> Result (list SerpResult.t);
  selectBestUrls :
    list SerpResult.t -> CountryConfig.t -> Z -> Result (list UrlToScrape.t);
  scrapeAsMarkdown : string -> Result ScrapeResult.t;
  extractContent :
    string -> string -> option string -> CountryConfig.t -> string ->
    ContentCategory -> Result (option Extracted.t);
  geocode : string -> Result (option Coords.t);
  searchSettings : SEARCH_SETTINGS.t;
  historicalItems : list HistoricalItem.t;
  clock : list Event -> Date;
  LocalTZA : Date -> bool -> Z
}.

(** ECMAScript's [LocalTime] and [UTC] on time values in milliseconds. *)
Definition LocalTime {env : Collaborators} (t : Date) : Z :=
  t + LocalTZA t true.

Definition UTC {env : Collaborators} (t : Z) : Date :=
  t - LocalTZA t false.

Definition msPerDay : Z := 86400000.

(** [cutoff.setDate(cutoff.getDate() - daysBack)] on the time value [now]:
    [setDate(dt)] stores [UTC(MakeDate(MakeDay(year, month, dt), time))] for
    the year, month and time within the day of the local time of [now];
    with [dt = getDate() - daysBack] the day [MakeDay] returns is the local
    day of [now] less [daysBack], so the local time moves back by
    [daysBack] days of 24 hours and is then read in the offset that holds
    at that local time. *)
Definition daysBefore {env : Collaborators} (now : Date) (daysBack : Z)
  : Date :=
  UTC (LocalTime now - daysBack * msPerDay).

(** The fields of a [SearchAdapter] object. *)
Record SearchAdapter := {
  config : SourceConfig.t;
  countryConfig : CountryConfig.t;
  settings : SearchSettings.t
}.

Section SearchAdapter.
Context {env : Collaborators}.
Variable this : SearchAdapter.

(** [new Date()]. *)
Definition new_Date (st : St) : Date := clock (trace (world st)).

(** history.ts: [getRecentlyScrapedUrls(daysBack = URL_DEDUP_DAYS)], called
    at time [now]; the query of the table is taken to succeed. *)
Definition getRecentlyScrapedUrls (daysBack : option Z) (now : Date)
  : gset string :=
  let cutoff := daysBefore now (default URL_DEDUP_DAYS daysBack) in
  let existing :=
    filter (fun item => cutoff <= HistoricalItem.fetchedAt item)
      historicalItems in
  list_to_set (map (fun item => normalizeUrl (HistoricalItem.url item)) existing).

(** Modelled from the spec: [emptyResult] of [BaseAdapter], which is not
    part of the sources. Sections 7 and 8: an unavailable provider is
    surfaced as an empty result, [{items: [], errors: []}], with an
    explanatory message. *)
Definition emptyResult (message : string) : FetchResult.t :=
  {| FetchResult.items := []; FetchResult.errors := [];
     FetchResult.sourceName := SourceConfig.name (config this);
     FetchResult.message := Some message |}.

Definition report (substep : Substep.t) (stepProgress : number)
    (message : string)
    (st : St) : St :=
  with_tracker
    (reportRegionProgress (CountryConfig.name (countryConfig this)) substep
       stepProgress message) st.

(** *** Step 2: [runSearches] *)

Definition searchWorker (total : nat) (q : SearchQuery.t) (index : nat)
    (st : St) : Result (list SerpResult.t) * St :=
  let st := log_event (EvSearch (SearchQuery.query q)) st in
  match serpSearch (SearchQuery.query q) (CountryConfig.code (countryConfig this))
          (SearchQuery.language q) 10 with
  | Thrown e => (Thrown e, st)
  | Ok searchResults =>
      let st := set_completed (S (completed st)) st in
      let stepProgress := percent (completed st) total in
      let st :=
        report Substep.serpSearch stepProgress
          ("Searching " +:+ fraction (completed st) total +:+ "...") st in
      (Ok searchResults, st)
  end.

Definition searchOnError (q : SearchQuery.t) (index : nat) (error : JsError)
    (st : St) : St :=
  push_error
    {| NonFatalError.source := "Search";
       NonFatalError.message :=
         "Query failed: " +:+ dquote +:+ SearchQuery.query q +:+ dquote
         +:+ " - " +:+ error_message error;
       NonFatalError.timestamp := new_Date st |} st.

Definition runSearches (queries : list SearchQuery.t) (schedule : list nat)
    (st : St) : list SerpResult.t * St :=
  let st := set_completed 0 st in
  let total := length queries in
  let st := log_event (EvPool SearchStage total) st in
  let run :=
    workerPoolCollect (searchWorker total)
      (SEARCH_SETTINGS.maxConcurrentSearches searchSettings)
      (Some searchOnError) queries schedule st in
  (concat (results run), final run).

(** *** Steps 3 and 4: merge and [deduplicateResults] *)

Definition directAsSerpResults (directUrls : list DirectUrl.t)
  : list SerpResult.t :=
  imap
    (fun i d =>
       {| SerpResult.url := DirectUrl.url d;
          SerpResult.title := DirectUrl.name d;
          SerpResult.snippet := "Direct source: " +:+ DirectUrl.name d;
          SerpResult.position := Z.of_nat i |})
    directUrls.

Definition mergeResults (directUrls : list DirectUrl.t)
    (serpResults : list SerpResult.t) : list SerpResult.t :=
  directAsSerpResults directUrls ++ serpResults.

(** The loop of [deduplicateResults], from the state [(seen, unique)]. *)
Fixpoint dedup_loop (results : list SerpResult.t) (seen : gset string)
    (unique : list SerpResult.t) : list SerpResult.t :=
  match results with
  | [] => unique
  | result :: rest =>
      let normalizedUrl := normalizeUrl (SerpResult.url result) in
      if decide (normalizedUrl ∈ seen)
      then dedup_loop rest seen unique
      else dedup_loop rest ({[normalizedUrl]} ∪ seen) (unique ++ [result])
  end.

Definition deduplicateResults (results : list SerpResult.t)
  : list SerpResult.t :=
  let unique := dedup_loop results ∅ [] in
  sort_by_position unique.

(** *** Step 4b: the recency filter *)

Definition filterNew (existingUrls : gset string)
    (uniqueResults : list SerpResult.t) : list SerpResult.t :=
  filter
    (fun r =>
       let normalized := normalizeUrl (SerpResult.url r) in
       normalized ∉ existingUrls)
    uniqueResults.

(** *** Step 6: [scrapeUrls] *)

Definition scrapeWorker (total : nat) (urlInfo : UrlToScrape.t) (index : nat)
    (st : St) : Result ScrapedContent.t * St :=
  let st := log_event (EvScrape (UrlToScrape.url urlInfo)) st in
  match scrapeAsMarkdown (UrlToScrape.url urlInfo) with
  | Thrown e => (Thrown e, st)
  | Ok result =>
      let st := set_completed (S (completed st)) st in
      let stepProgress := percent (completed st) total in
      let st :=
        report Substep.scraping stepProgress
          ("Scraping " +:+ fraction (completed st) total +:+ "...") st in
      match URL_hostname (UrlToScrape.url urlInfo) with
      | Thrown e => (Thrown e, st)
      | Ok domain =>
          (Ok {| ScrapedContent.url := UrlToScrape.url urlInfo;
                 ScrapedContent.content := ScrapeResult.content result;
                 ScrapedContent.imageUrl := ScrapeResult.imageUrl result;
                 ScrapedContent.title :=
                   Some (opt_str_or (ScrapeResult.title result)
                           (UrlToScrape.title urlInfo));
                 ScrapedContent.category := UrlToScrape.category urlInfo |},
           st)
      end
  end.

Definition scrapeOnError (urlInfo : UrlToScrape.t) (index : nat)
    (error : JsError) (st : St) : St :=
  push_error
    {| NonFatalError.source := "Scrape";
       NonFatalError.message :=
         "Failed to scrape: " +:+ UrlToScrape.url urlInfo +:+ " - "
         +:+ error_message error;
       NonFatalError.timestamp := new_Date st |} st.

Definition scrapeUrls (urls : list UrlToScrape.t) (schedule : list nat)
    (st : St) : list ScrapedContent.t * St :=
  let st := set_completed 0 st in
  let total := length urls in
  let st := log_event (EvPool ScrapeStage total) st in
  let run :=
    workerPoolCollect (scrapeWorker total)
      (SEARCH_SETTINGS.maxConcurrentScrapes searchSettings)
      (Some scrapeOnError) urls schedule st in
  (results run, final run).

(** *** Step 7: [extractAndNormalize] *)

(** The item built from a non-null extraction and the geocoded location. *)
Definition normalizedItem (scraped : ScrapedContent.t)
    (extracted : Extracted.t) (location : option Location.t) (now : Date)
  : NormalizedItem.t :=
  let lens := categoryToLens (Extracted.category extracted) in
  let language :=
    detectLanguage
      (Extracted.title extracted +:+ " " +:+ Extracted.summary extracted) in
  let source :=
    if decide (Extracted.category extracted = "events")
    then "events" else "search" in
  let finalUrl :=
    opt_str_or (Extracted.articleUrl extracted) (ScrapedContent.url scraped) in
  {| NormalizedItem.id := generateId ("search:" +:+ finalUrl);
     NormalizedItem.source := source;
     NormalizedItem.lens := lens;
     NormalizedItem.language := language;
     NormalizedItem.title := Extracted.title extracted;
     NormalizedItem.text := Extracted.summary extracted;
     NormalizedItem.createdAt := default now (Extracted.publishedAt extracted);
     NormalizedItem.url := finalUrl;
     NormalizedItem.engagement := Extracted.engagement extracted;
     NormalizedItem.context := "Search: " +:+ Extracted.category extracted;
     NormalizedItem.imageUrl := Extracted.imageUrl extracted;
     NormalizedItem.faviconUrl := getFaviconUrl finalUrl;
     NormalizedItem.location := location;
     NormalizedItem.moodScore := Extracted.moodScore extracted;
     NormalizedItem.eventDate := Extracted.eventDate extracted |}.

(** [if (extracted.location) { const coords = await geocode(...); ... }]:
    the location to attach, or the error [geocode] threw. *)
Definition geocodeLocation (extracted : Extracted.t) (st : St)
  : Result (option Location.t) * St :=
  match Extracted.location extracted with
  | None => (Ok None, st)
  | Some name =>
      if decide (name = "") then (Ok None, st)
      else
        let st := log_event (EvGeocode name) st in
        match geocode name with
        | Thrown e => (Thrown e, st)
        | Ok None => (Ok None, st)
        | Ok (Some coords) =>
            (Ok (Some
                   {| Location.name := name;
                      Location.lat := Coords.lat coords;
                      Location.lng := Coords.lng coords;
                      Location.country :=
                        opt_str_or (Coords.country coords)
                          (CountryConfig.name (countryConfig this));
                      Location.region :=
                        CountryConfig.name (countryConfig this) |}),
             st)
        end
  end.

Definition extractWorker (total : nat) (scraped : ScrapedContent.t)
    (index : nat) (st : St) : Result NormalizedItem.t * St :=
  let st := log_event (EvExtract (ScrapedContent.url scraped)) st in
  match
    extractContent (ScrapedContent.content scraped)
      (ScrapedContent.url scraped) (ScrapedContent.imageUrl scraped)
      (countryConfig this)
      (opt_str_or (SearchSettings.uiLanguage (settings this)) "en")
      (ScrapedContent.category scraped)
  with
  | Thrown e => (Thrown e, st)
  | Ok None =>
      (Thrown {| error_message := "Extraction returned null" |}, st)
  | Ok (Some extracted) =>
      let st := set_completed (S (completed st)) st in
      let stepProgress := percent (completed st) total in
      let st :=
        report Substep.extraction stepProgress
          ("Extracting " +:+ fraction (completed st) total +:+ "...") st in
      match geocodeLocation extracted st with
      | (Thrown e, st) => (Thrown e, st)
      | (Ok location, st) =>
          (Ok (normalizedItem scraped extracted location (new_Date st)), st)
      end
  end.

Definition extractOnError (scraped : ScrapedContent.t) (index : nat)
    (error : JsError) (st : St) : St :=
  push_error
    {| NonFatalError.source := "Extract";
       NonFatalError.message :=
         "Failed to extract: " +:+ ScrapedContent.url scraped +:+ " - "
         +:+ error_message error;
       NonFatalError.timestamp := new_Date st |} st.

(** The pool run of [extractAndNormalize]. *)
Definition extractRun (scrapedContent : list ScrapedContent.t)
    (schedule : list nat) (st : St) : PoolRun ScrapedContent.t NormalizedItem.t St :=
  let st := set_completed 0 st in
  let total := length scrapedContent in
  let st := log_event (EvPool ExtractStage total) st in
  workerPoolCollect (extractWorker total)
    (SEARCH_SETTINGS.maxConcurrentScrapes searchSettings)
    (Some extractOnError) scrapedContent schedule st.

Definition extractAndNormalize (scrapedContent : list ScrapedContent.t)
    (schedule : list nat) (st : St) : list NormalizedItem.t * St :=
  let run := extractRun scrapedContent schedule st in
  (results run, final run).

(** *** [fetch] *)

(** Steps 6 and 7 and the returned value. *)
Definition fetch_process (selectedUrls : list UrlToScrape.t)
    (schedules : Schedules) (st : St) : Result FetchResult.t * World :=
  let st :=
    report Substep.urlSelect (number_of_Z 100)
      (pretty (length selectedUrls) +:+ " URLs selected") st in
  let st :=
    report Substep.scraping (number_of_Z 0)
      ("Scraping (0/" +:+ pretty (length selectedUrls) +:+ ")...") st in
  let '(scrapedContent, st) :=
    scrapeUrls selectedUrls (scrapeOrder schedules) st in
  let st :=
    report Substep.scraping (number_of_Z 100)
      (pretty (length scrapedContent) +:+ " pages scraped") st in
  let st :=
    report Substep.extraction (number_of_Z 0)
      ("Extracting (0/" +:+ pretty (length scrapedContent) +:+ ")...") st in
  let '(items, st) :=
    extractAndNormalize scrapedContent (extractOrder schedules) st in
  let st :=
    report Substep.extraction (number_of_Z 100)
      (pretty (length items) +:+ " items extracted") st in
  (Ok {| FetchResult.items := items;
         FetchResult.errors := errors st;
         FetchResult.sourceName := SourceConfig.name (config this);
         FetchResult.message := None |},
   world st).

(** Steps 2 to 5. *)
Definition fetch_collect (queries : list SearchQuery.t)
    (directUrls : list DirectUrl.t) (schedules : Schedules) (st : St)
  : Result FetchResult.t * World :=
  let st :=
    report Substep.queryGen (number_of_Z 100) (pretty (length queries) +:+ " queries") st in
  let st :=
    report Substep.serpSearch (number_of_Z 0)
      ("Searching (0/" +:+ pretty (length queries) +:+ ")...") st in
  let '(serpResults, st) := runSearches queries (searchOrder schedules) st in
  let st :=
    report Substep.serpSearch (number_of_Z 100)
      (pretty (length serpResults) +:+ " results") st in
  let st := report Substep.mergeDedup (number_of_Z 0) "Merging URLs..." st in
  let allResults := mergeResults directUrls serpResults in
  let uniqueResults := deduplicateResults allResults in
  let st := log_event EvRecentlyScraped st in
  let existingUrls := getRecentlyScrapedUrls None (new_Date st) in
  let newResults := filterNew existingUrls uniqueResults in
  let st :=
    report Substep.mergeDedup (number_of_Z 100)
      (pretty (length newResults) +:+ " new URLs") st in
  let maxUrls :=
    default (SEARCH_SETTINGS.maxUrlsToScrape searchSettings)
      (SearchSettings.maxUrlsToScrape (settings this)) in
  let st := report Substep.urlSelect (number_of_Z 0) "Selecting URLs..." st in
  let st := log_event (EvSelect newResults) st in
  match selectBestUrls newResults (countryConfig this) maxUrls with
  | Thrown e => (Thrown e, world st)
  | Ok selectedUrls => fetch_process selectedUrls schedules st
  end.

Definition fetch (since : Date) (schedules : Schedules) (w : World)
  : Result FetchResult.t * World :=
  let st := {| world := w; errors := []; completed := 0 |} in
  let bdStatus := getBrightDataStatus in
  if negb (BrightDataStatus.available bdStatus) then
    (Ok (emptyResult (BrightDataStatus.message bdStatus)), world st)
  else
    let st := report Substep.queryGen (number_of_Z 0) "Generating queries..." st in
    let st := log_event EvGenerate st in
    match
      generateSearchQueries (countryConfig this)
        (SearchSettings.maxQueries (settings this))
    with
    | Thrown e => (Thrown e, world st)
    | Ok (queries, directUrls) => fetch_collect queries directUrls schedules st
    end.

End SearchAdapter.

(** * Properties *)

(** ** Strings and rounding *)

Lemma append_empty_r (s : string) : s +:+ "" = s.
Proof.
  induction s as [|c s IH]; [reflexivity|].
  change (String c (s +:+ "") = String c s). by rewrite IH.
Qed.

Lemma str_or_same (s : string) : str_or s s = s.
Proof. unfold str_or. by case_decide. Qed.

Lemma round_half_up_bounds (x : Q) :
  (x - (1 # 2) < inject_Z (round_half_up x)
   /\ inject_Z (round_half_up x) <= x + (1 # 2))%Q.
Proof.
  unfold round_half_up. split.
  - pose proof (Qlt_floor (x + (1 # 2))) as Hlt.
    rewrite inject_Z_plus in Hlt. simpl in Hlt.
    apply Qplus_lt_l with (z := 1%Q).
    eapply Qle_lt_trans; [|exact Hlt].
    ring_simplify. apply Qle_refl.
  - apply Qfloor_le.
Qed.

Lemma round_half_up_integer (x : Q) (z : Z) :
  (x == inject_Z z)%Q -> round_half_up x = z.
Proof.
  intros Hx. unfold round_half_up.
  assert (Hle : (inject_Z z <= x + (1 # 2))%Q).
  { rewrite Hx. rewrite <- (Qplus_0_r (inject_Z z)) at 1.
    apply Qplus_le_r. discriminate. }
  assert (Hlt : (x + (1 # 2) < inject_Z (z + 1))%Q).
  { rewrite Hx, inject_Z_plus. apply Qplus_lt_r. reflexivity. }
  pose proof (Qfloor_le (x + (1 # 2))) as Hf1.
  pose proof (Qlt_floor (x + (1 # 2))) as Hf2.
  assert (H1 : (inject_Z z < inject_Z (Qfloor (x + (1 # 2)) + 1))%Q)
    by (eapply Qle_lt_trans; eauto).
  assert (H2 : (inject_Z (Qfloor (x + (1 # 2))) < inject_Z (z + 1))%Q)
    by (eapply Qle_lt_trans; eauto).
  rewrite <- Zlt_Qlt in H1, H2. lia.
Qed.

(** ** The tracker's region map *)

Lemma JsMap_set_keys {V : Type} (k : string) (v : V) (m : JsMap.t V) :
  (JsMap.set k v m).*1 = if decide (k ∈ m.*1) then m.*1 else m.*1 ++ [k].
Proof.
  induction m as [|[k' v'] m IH]; csimpl.
  - reflexivity.
  - destruct (decide (k' = k)) as [->|Hne]; csimpl.
    + rewrite decide_True by apply list_elem_of_here. reflexivity.
    + rewrite IH. destruct (decide (k ∈ m.*1)) as [Hin|Hin].
      * rewrite decide_True by (by apply list_elem_of_further). reflexivity.
      * rewrite decide_False; [reflexivity|].
        intros [?|?]%elem_of_cons; [congruence | done].
Qed.

Lemma JsMap_set_NoDup {V : Type} (k : string) (v : V) (m : JsMap.t V) :
  NoDup m.*1 -> NoDup (JsMap.set k v m).*1.
Proof.
  intros Hnd. rewrite JsMap_set_keys. case_decide as Hin; [done|].
  apply NoDup_app. split_and!; [done| |apply NoDup_singleton].
  intros x Hx ->%list_elem_of_singleton. done.
Qed.

Lemma JsMap_set_nonempty {V : Type} (k : string) (v : V) (m : JsMap.t V) :
  (0 < JsMap.size (JsMap.set k v m))%nat.
Proof.
  destruct m as [|[k' v'] m]; simpl; [lia|].
  case_decide; simpl; lia.
Qed.

Lemma JsMap_get_at {V : Type} (pre post : JsMap.t V) (k : string) (v : V) :
  NoDup (pre ++ (k, v) :: post).*1 -> JsMap.get k (pre ++ (k, v) :: post) = Some v.
Proof.
  induction pre as [|[k' v'] pre IH]; simpl; intros Hnd.
  - by rewrite decide_True.
  - apply NoDup_cons in Hnd as [Hnotin Hnd].
    rewrite decide_False; [by apply IH|].
    intros ->. apply Hnotin. rewrite fmap_app. simpl.
    apply elem_of_app. right. apply list_elem_of_here.
Qed.

(** What the loop over the region map returns: the start value when no
    region is below it, and otherwise the first region that attains the
    least progress. *)
Lemma slowest_step_fold (m : JsMap.t Region.info) (v0 : Z) (r0 : string) :
  (fold_left slowest_step m (v0, r0) = (v0, r0)
   /\ Forall (fun e => v0 <= Region.progress e.2) m)
  \/ exists pre k info post,
       m = pre ++ (k, info) :: post
       /\ fold_left slowest_step m (v0, r0) = (Region.progress info, k)
       /\ Region.progress info < v0
       /\ Forall (fun e => Region.progress info < Region.progress e.2) pre
       /\ Forall (fun e => Region.progress info <= Region.progress e.2) post.
Proof.
  revert v0 r0. induction m as [|[k i] m IH]; intros v0 r0; simpl.
  - left. split; [reflexivity | constructor].
  - destruct (Z.ltb_spec (Region.progress i) v0) as [Hlt|Hge].
    + destruct (IH (Region.progress i) k)
        as [[Heq Hall]|(pre & k' & i' & post & -> & Heq & Hlt' & Hpre & Hpost)].
      * right. exists [], k, i, m. simpl. rewrite Heq. by split_and!.
      * right. exists ((k, i) :: pre), k', i', post. simpl.
        rewrite Heq. split_and!; try done; [lia|].
        constructor; [done|]. exact Hpre.
    + destruct (IH v0 r0)
        as [[Heq Hall]|(pre & k' & i' & post & -> & Heq & Hlt' & Hpre & Hpost)].
      * left. rewrite Heq. split; [reflexivity|]. constructor; [done|]. exact Hall.
      * right. exists ((k, i) :: pre), k', i', post. simpl.
        rewrite Heq. split_and!; try done.
        constructor; [simpl; lia|]. exact Hpre.
Qed.

(** ** The progress tracker *)

(** The suffix that names the reported region when more than one region
    was initialised. *)
Definition regionLabel (total : nat) (slowestRegion : string) : string :=
  if (1 <? total)%nat then " (" +:+ slowestRegion +:+ ")" else "".

(** The regions of the specification's example, after the call: A at 80
    and B at 30. *)
Definition example_regions (a b ma mb : string) (m : JsMap.t Region.info)
  : Prop :=
  let ea := (a, {| Region.progress := 80; Region.message := ma |}) in
  let eb := (b, {| Region.progress := 30; Region.message := mb |}) in
  m = [ea; eb] \/ m = [eb; ea].

(** The state in which the specification's example starts: regions A and
    B initialised, A has reported 80. *)
Definition example_tracker : Tracker :=
  updateRegionProgress "A" 80 "a"
    (initRegionTracking ["A"; "B"] initialTracker).

Lemma updateRegionProgress_unfold (region : string) (p : Z) (msg : string)
    (t : Tracker) :
  let m :=
    JsMap.set region {| Region.progress := p; Region.message := msg |}
      (regionProgress t) in
  regionProgress (updateRegionProgress region p msg t) = m
  /\ totalRegions (updateRegionProgress region p msg t) = totalRegions t
  /\ getScanStatus (updateRegionProgress region p msg t) =
       {| phase := ScanPhase.fetching;
          message :=
            opt_str_or (Region.message <$> JsMap.get (slowest m).2 m) msg
            +:+ regionLabel (totalRegions t) (slowest m).2;
          progress := Some (slowest m).1;
          startedAt := startedAt (currentStatus t);
          completedAt := completedAt (currentStatus t);
          error := error (currentStatus t);
          itemCount := itemCount (currentStatus t) |}.
Proof.
  intros m. unfold updateRegionProgress. fold m.
  pose proof (JsMap_set_nonempty region
                {| Region.progress := p; Region.message := msg |}
                (regionProgress t)) as Hsize.
  fold m in Hsize. apply Nat.ltb_lt in Hsize. rewrite Hsize.
  destruct (slowest m) as [v r]. simpl. done.
Qed.

(** C9. [updateScanStatus] merges a partial update into the live status:
    a field that is absent from the update keeps its value, a field that
    is present takes the update's value; the region map and the region
    count are untouched. *)
Theorem updateScanStatus_partial_merge (update : Partial.t) (t : Tracker) :
  let s := getScanStatus t in
  let s' := getScanStatus (updateScanStatus update t) in
  (Partial.phase update = None -> phase s' = phase s)
  /\ (forall v, Partial.phase update = Some v -> phase s' = v)
  /\ (Partial.message update = None -> message s' = message s)
  /\ (forall v, Partial.message update = Some v -> message s' = v)
  /\ (Partial.progress update = None -> progress s' = progress s)
  /\ (forall v, Partial.progress update = Some v -> progress s' = v)
  /\ (Partial.startedAt update = None -> startedAt s' = startedAt s)
  /\ (forall v, Partial.startedAt update = Some v -> startedAt s' = v)
  /\ (Partial.completedAt update = None -> completedAt s' = completedAt s)
  /\ (forall v, Partial.completedAt update = Some v -> completedAt s' = v)
  /\ (Partial.error update = None -> error s' = error s)
  /\ (forall v, Partial.error update = Some v -> error s' = v)
  /\ (Partial.itemCount update = None -> itemCount s' = itemCount s)
  /\ (forall v, Partial.itemCount update = Some v -> itemCount s' = v)
  /\ regionProgress (updateScanStatus update t) = regionProgress t
  /\ totalRegions (updateScanStatus update t) = totalRegions t.
Proof.
  destruct update as [uph umsg upr ust uco uer uit].
  unfold getScanStatus, updateScanStatus; simpl.
  repeat split; try (intros; subst; reflexivity).
Qed.

(** The specification's formula [start + (local/100) * (end - start)], in
    exact arithmetic. *)
Definition exact_linear (range : Range) (local : Q) : Q :=
  (inject_Z (range_start range)
   + (local / 100) * inject_Z (range_end range - range_start range))%Q.

(** The reported progress for an integer [local] exists and is within 1/2
    of the exact linear value. *)
Definition within_half (phase : PhaseKey.t) (local : Z) : bool :=
  match calculatePhaseProgress phase (number_of_Z local) with
  | Some z =>
      Qle_bool (exact_linear (PHASE_PROGRESS phase) (inject_Z local) - (1 # 2))
        (inject_Z z)
      && Qle_bool (inject_Z z)
           (exact_linear (PHASE_PROGRESS phase) (inject_Z local) + (1 # 2))
  | None => false
  end.

Lemma within_half_all (phase : PhaseKey.t) :
  forallb (within_half phase) (seqZ 0 101) = true.
Proof. destruct phase; vm_compute; reflexivity. Qed.

Lemma half_window_integer (z k : Z) (x : Q) :
  (x == inject_Z k)%Q ->
  (x - (1 # 2) <= inject_Z z)%Q -> (inject_Z z <= x + (1 # 2))%Q -> z = k.
Proof.
  intros Hx Hlo Hhi. rewrite Hx in Hlo, Hhi.
  unfold Qle, Qminus, Qplus, Qopp, inject_Z in Hlo, Hhi. simpl in Hlo, Hhi.
  lia.
Qed.

(** In binary64 a half is not always rounded up: [(29 / 100) * 50] is
    just below 14.5. *)
Example calculatePhaseProgress_tie :
  calculatePhaseProgress PhaseKey.fetching (number_of_Z 29) = Some 14
  /\ (exact_linear (PHASE_PROGRESS PhaseKey.fetching) 29 == 29 # 2)%Q.
Proof. split; vm_compute; reflexivity. Qed.

(** C5 as the specification states it fails: in the fetching phase (range
    0 to 50) a local progress of 1 is reported as 1, while the linear
    mapping gives 1/2. *)
Lemma calculatePhaseProgress_not_linear :
  calculatePhaseProgress PhaseKey.fetching (number_of_Z 1) = Some 1
  /\ (exact_linear (PHASE_PROGRESS PhaseKey.fetching) 1 == 1 # 2)%Q
  /\ ~ (inject_Z 1 == exact_linear (PHASE_PROGRESS PhaseKey.fetching) 1)%Q.
Proof. split_and!; [vm_compute; reflexivity..|vm_compute; discriminate]. Qed.

(** C5, amended. The reported progress is [Math.round] of the number
    [start + (local/100) * (end - start)]: its value rounded to the nearest
    integer, halves up. For every integer [local] from 0 to 100 it is
    within 1/2 of the exact linear value and equals it whenever that value
    is an integer; a local 50 in summarizing gives 80. *)
Theorem calculatePhaseProgress_rounds_linear
    (phase : PhaseKey.t) (stepProgress : number) :
  (forall v,
     number_value (linear_map (PHASE_PROGRESS phase) stepProgress) = Some v ->
     exists z,
       calculatePhaseProgress phase stepProgress = Some z
       /\ (v - (1 # 2) < inject_Z z)%Q
       /\ (inject_Z z <= v + (1 # 2))%Q
       /\ (forall k, (v == inject_Z k)%Q -> z = k))
  /\ (forall local : Z,
        0 <= local <= 100 ->
        exists z,
          calculatePhaseProgress phase (number_of_Z local) = Some z
          /\ (exact_linear (PHASE_PROGRESS phase) (inject_Z local) - (1 # 2)
              <= inject_Z z)%Q
          /\ (inject_Z z
              <= exact_linear (PHASE_PROGRESS phase) (inject_Z local) + (1 # 2))%Q
          /\ (forall k,
                (exact_linear (PHASE_PROGRESS phase) (inject_Z local)
                 == inject_Z k)%Q ->
                z = k))
  /\ calculatePhaseProgress PhaseKey.summarizing (number_of_Z 50) = Some 80.
Proof.
  split_and!.
  - intros v Hv. unfold calculatePhaseProgress, Math_round. rewrite Hv.
    exists (round_half_up v). simpl.
    destruct (round_half_up_bounds v) as [Hlo Hhi].
    split_and!; try done.
    intros k Hk. by apply round_half_up_integer.
  - intros local Hlocal.
    pose proof (within_half_all phase) as Hall.
    rewrite forallb_forall in Hall.
    assert (Hin : In local (seqZ 0 101))
      by (apply list_elem_of_In, elem_of_seqZ; lia).
    specialize (Hall local Hin). unfold within_half in Hall.
    destruct (calculatePhaseProgress phase (number_of_Z local)) as [z|];
      [|discriminate].
    apply andb_true_iff in Hall as [Hlo Hhi].
    apply Qle_bool_iff in Hlo, Hhi.
    exists z. split_and!; try done.
    intros k Hk. by apply (half_window_integer z k _ Hk).
  - vm_compute. reflexivity.
Qed.

(** C4 as the specification states it fails: after [clearRegionTracking]
    a call of [updateRegionProgress] still rewrites the status. *)
Lemma update_after_clear_changes_status :
  getScanStatus (clearRegionTracking example_tracker)
  = {| phase := ScanPhase.fetching; message := "Starting... (B)";
       progress := Some 0;
       startedAt := None; completedAt := None; error := None;
       itemCount := None |}
  /\ getScanStatus
       (updateRegionProgress "B" 30 "late"
          (clearRegionTracking example_tracker))
     = {| phase := ScanPhase.fetching; message := "late"; progress := Some 30;
          startedAt := None; completedAt := None; error := None;
          itemCount := None |}
  /\ getScanStatus
       (updateRegionProgress "B" 30 "late"
          (clearRegionTracking example_tracker))
     <> getScanStatus (clearRegionTracking example_tracker).
Proof. split_and!; [reflexivity | reflexivity | discriminate]. Qed.

(** C4, amended. [clearRegionTracking] empties the region map and resets
    the region count without touching the status, and it does not switch
    the aggregator off: the next [updateRegionProgress region p msg]
    registers [region] again as the only tracked region and sets the status
    to phase fetching, message [msg] and progress [min p 100], the other
    fields keeping their values. *)
Theorem update_after_clear (region : string) (p : Z) (msg : string)
    (t : Tracker) :
  getScanStatus (clearRegionTracking t) = getScanStatus t
  /\ regionProgress (clearRegionTracking t) = []
  /\ totalRegions (clearRegionTracking t) = 0%nat
  /\ regionProgress (updateRegionProgress region p msg (clearRegionTracking t))
     = [(region, {| Region.progress := p; Region.message := msg |})]
  /\ getScanStatus (updateRegionProgress region p msg (clearRegionTracking t))
     = {| phase := ScanPhase.fetching;
          message := msg;
          progress := Some (Z.min p 100);
          startedAt := startedAt (getScanStatus t);
          completedAt := completedAt (getScanStatus t);
          error := error (getScanStatus t);
          itemCount := itemCount (getScanStatus t) |}.
Proof.
  pose proof (updateRegionProgress_unfold region p msg (clearRegionTracking t))
    as Hu.
  cbv zeta in Hu. destruct Hu as (Hmap & _ & Hstatus).
  split_and!; try reflexivity; [exact Hmap|].
  rewrite Hstatus. simpl. unfold slowest, regionLabel. simpl.
  rewrite append_empty_r.
  destruct (Z.ltb_spec p 100) as [Hlt|Hge]; simpl.
  - rewrite decide_True by reflexivity. simpl.
    rewrite str_or_same, Z.min_l by lia. reflexivity.
  - rewrite Z.min_r by lia.
    case_decide; simpl; [rewrite str_or_same|]; reflexivity.
Qed.

(** C1 as the specification states it fails on its own example: with A at
    80 and B at 30, both initialised, the displayed message is not B's
    message ["b"] but ["b (B)"]. *)
Lemma displayed_message_is_labelled :
  JsMap.get "B" (regionProgress (updateRegionProgress "B" 30 "b" example_tracker))
  = Some {| Region.progress := 30; Region.message := "b" |}
  /\ progress (getScanStatus (updateRegionProgress "B" 30 "b" example_tracker))
     = Some 30
  /\ message (getScanStatus (updateRegionProgress "B" 30 "b" example_tracker))
     = "b (B)"
  /\ message (getScanStatus (updateRegionProgress "B" 30 "b" example_tracker))
     <> "b".
Proof. split_and!; [reflexivity | reflexivity | reflexivity | discriminate]. Qed.

(** C1, amended. After any call [updateRegionProgress region p msg] on a
    tracker whose regions all stand at 100 or less, the phase is fetching
    and the overall progress is the least progress of the tracked regions;
    when that is below 100 the displayed message is the message of the
    first region (in insertion order) that attains it, or [msg] when that
    message is empty, followed by the region's name in parentheses when
    more than one region was initialised. With A at 80 and B at 30 the
    progress is 30 and the message is B's with that label. *)
Theorem updateRegionProgress_reports_slowest
    (region : string) (p : Z) (msg : string) (t : Tracker) :
  NoDup (regionProgress t).*1 ->
  Forall (fun e => Region.progress e.2 <= 100)
    (regionProgress (updateRegionProgress region p msg t)) ->
  phase (getScanStatus (updateRegionProgress region p msg t))
  = ScanPhase.fetching
  /\ (exists v,
        progress (getScanStatus (updateRegionProgress region p msg t)) = Some v
        /\ Forall (fun e => v <= Region.progress e.2)
             (regionProgress (updateRegionProgress region p msg t))
        /\ Exists (fun e => Region.progress e.2 = v)
             (regionProgress (updateRegionProgress region p msg t)))
  /\ (forall v,
        progress (getScanStatus (updateRegionProgress region p msg t)) = Some v ->
        v < 100 ->
        exists pre r info post,
          regionProgress (updateRegionProgress region p msg t)
          = pre ++ (r, info) :: post
          /\ Region.progress info = v
          /\ Forall (fun e => v < Region.progress e.2) pre
          /\ message (getScanStatus (updateRegionProgress region p msg t))
             = str_or (Region.message info) msg
               +:+ regionLabel (totalRegions t) r)
  /\ (forall a b ma mb,
        example_regions a b ma mb
          (regionProgress (updateRegionProgress region p msg t)) ->
        progress (getScanStatus (updateRegionProgress region p msg t))
        = Some 30
        /\ message (getScanStatus (updateRegionProgress region p msg t))
           = str_or mb msg +:+ regionLabel (totalRegions t) b).
Proof.
  intros Hnd Hle.
  pose proof (updateRegionProgress_unfold region p msg t) as Hu.
  cbv zeta in Hu. destruct Hu as (Hmap & _ & Hstatus).
  apply (JsMap_set_NoDup region
           {| Region.progress := p; Region.message := msg |}) in Hnd.
  pose proof (JsMap_set_nonempty region
                {| Region.progress := p; Region.message := msg |}
                (regionProgress t)) as Hsize.
  rewrite <- Hmap in Hstatus, Hnd, Hsize.
  set (m := regionProgress (updateRegionProgress region p msg t)) in *.
  rewrite Hstatus. simpl. clearbody m. clear Hmap Hstatus.
  split; [reflexivity|]. split_and!.
  - unfold slowest.
    destruct (slowest_step_fold m 100 "")
      as [[-> Hall]|(pre & k & info & post & -> & -> & Hlt & Hpre & Hpost)];
      simpl.
    + exists 100. split_and!; [reflexivity|exact Hall|].
      destruct m as [|e m]; [simpl in Hsize; lia|].
      apply Exists_cons_hd.
      apply Forall_cons in Hall as [Hhd _].
      apply Forall_cons in Hle as [Hhd' _]. lia.
    + exists (Region.progress info). split_and!; [reflexivity| |].
      * apply Forall_app. split; [|constructor; [simpl; lia|exact Hpost]].
        eapply Forall_impl; [exact Hpre|]. simpl. intros; lia.
      * apply Exists_app. right. by apply Exists_cons_hd.
  - intros v [= <-] Hv. unfold slowest in *.
    destruct (slowest_step_fold m 100 "")
      as [[Heq Hall]|(pre & k & info & post & -> & Heq & Hlt & Hpre & Hpost)];
      rewrite Heq in *; simpl in *; [lia|].
    exists pre, k, info, post. split_and!; try done.
    by rewrite JsMap_get_at.
  - intros a b ma mb [->| ->]; unfold slowest; simpl.
    + apply NoDup_cons in Hnd as [Hab _].
      rewrite decide_False; [|intros ->; apply Hab; apply list_elem_of_here].
      rewrite decide_True by reflexivity. done.
    + rewrite decide_True by reflexivity. done.
Qed.

(** The specification's example met by the theorem: regions A and B
    initialised, A at 80, and B reports 30. *)
Lemma updateRegionProgress_reports_slowest_example :
  progress (getScanStatus (updateRegionProgress "B" 30 "b" example_tracker))
  = Some 30
  /\ message (getScanStatus (updateRegionProgress "B" 30 "b" example_tracker))
     = "b (B)".
Proof.
  assert (Hnd : NoDup (regionProgress example_tracker).*1).
  { apply (bool_decide_unpack _). by vm_compute. }
  assert (Hle : Forall (fun e => Region.progress e.2 <= 100)
                  (regionProgress
                     (updateRegionProgress "B" 30 "b" example_tracker))).
  { vm_compute. repeat constructor; discriminate. }
  destruct (updateRegionProgress_reports_slowest "B" 30 "b" example_tracker
              Hnd Hle) as (_ & _ & _ & Hex).
  apply (Hex "A" "B" "a" "b"). left. reflexivity.
Defined.

(** ** The worker pool *)

(** The [onError] calls a pool makes for the given failures: all of them
    when a handler is provided, none otherwise. *)
Definition reported {H C : Type} (handler : option H) (calls : list C)
  : list C :=
  match handler with
  | Some _ => calls
  | None => []
  end.

Section WorkerPoolFacts.
Context {Item Out State : Type}.
Variable worker : Item -> nat -> State -> Result Out * State.
Variable concurrency : nat.
Variable onError : option (Item -> nat -> JsError -> State -> State).

Local Abbreviation refill := (refill (Item := Item) concurrency).
Local Abbreviation pool_loop := (pool_loop worker concurrency onError).
Local Abbreviation run_in_order := (run_in_order worker onError).
Local Abbreviation completion_order := (completion_order (Item := Item) concurrency).

(** Refilling moves a prefix of the queue to the end of the in-flight
    list. *)
Lemma refill_app (pending inFlight pending1 inFlight1 : list (nat * Item)) :
  refill pending inFlight = (pending1, inFlight1) ->
  inFlight1 ++ pending1 = inFlight ++ pending.
Proof.
  revert inFlight. induction pending as [|x queue IH]; intros inFlight; simpl.
  - intros [= <- <-]. reflexivity.
  - destruct (length inFlight <? concurrency)%nat.
    + intros Hr. rewrite (IH _ Hr), <- app_assoc. reflexivity.
    + intros [= <- <-]. reflexivity.
Qed.

(** At most [concurrency] invocations are outstanding after a refill. *)
Lemma refill_bound (pending inFlight pending1 inFlight1 : list (nat * Item)) :
  refill pending inFlight = (pending1, inFlight1) ->
  (length inFlight <= concurrency)%nat ->
  (length inFlight1 <= concurrency)%nat.
Proof.
  revert inFlight. induction pending as [|x queue IH]; intros inFlight; simpl.
  - intros [= <- <-]. done.
  - destruct (Nat.ltb_spec (length inFlight) concurrency) as [Hlt|Hge].
    + intros Hr _. apply (IH _ Hr). rewrite length_app. simpl. lia.
    + intros [= <- <-]. done.
Qed.

(** No worker idles while items are queued. *)
Lemma refill_busy (pending inFlight pending1 inFlight1 : list (nat * Item)) :
  (1 <= concurrency)%nat ->
  refill pending inFlight = (pending1, inFlight1) ->
  inFlight1 = [] -> pending1 = [].
Proof.
  intros Hc. revert inFlight.
  induction pending as [|x queue IH]; intros inFlight; simpl.
  - intros [= <- <-]. done.
  - destruct (Nat.ltb_spec (length inFlight) concurrency) as [Hlt|Hge].
    + intros Hr. apply (IH _ Hr).
    + intros [= <- <-] ->. simpl in Hge. lia.
Qed.

Lemma pick_cons (choice : nat) (x : nat * Item) (l : list (nat * Item)) :
  exists y rest, pick choice (x :: l) = Some (y, rest) /\ x :: l ≡ₚ y :: rest.
Proof.
  unfold pick.
  assert (Hk : (choice mod length (x :: l) < length (x :: l))%nat)
    by (apply Nat.mod_upper_bound; simpl; lia).
  destruct (lookup_lt_is_Some_2 _ _ Hk) as [y Hy].
  rewrite Hy. exists y, (delete (choice mod length (x :: l))%nat (x :: l)).
  split; [reflexivity|]. by apply delete_Permutation.
Qed.

(** The pool is a run of the worker over the items in the order in which
    they settle. *)
Lemma pool_loop_in_order (fuel : nat) (schedule : list nat)
    (pending inFlight : list (nat * Item))
    (run : PoolRun Item Out State) :
  pool_loop fuel schedule pending inFlight run
  = run_in_order (completion_order fuel schedule pending inFlight) run.
Proof.
  revert schedule pending inFlight run.
  induction fuel as [|fuel IH]; intros schedule pending inFlight run; simpl.
  - reflexivity.
  - destruct (refill pending inFlight) as [pending1 inFlight1].
    destruct (pick (hd 0%nat schedule) inFlight1) as [[ix rest]|]; simpl.
    + apply IH.
    + reflexivity.
Qed.

(** With at least one worker, every item settles, once. *)
Lemma completion_order_Permutation (fuel : nat) (schedule : list nat)
    (pending inFlight : list (nat * Item)) :
  (1 <= concurrency)%nat ->
  (length pending + length inFlight <= fuel)%nat ->
  completion_order fuel schedule pending inFlight ≡ₚ inFlight ++ pending.
Proof.
  intros Hc. revert schedule pending inFlight.
  induction fuel as [|fuel IH]; intros schedule pending inFlight Hfuel; simpl.
  - destruct pending, inFlight; simpl in Hfuel; try lia. reflexivity.
  - destruct (refill pending inFlight) as [pending1 inFlight1] eqn:Hr.
    pose proof (refill_app _ _ _ _ Hr) as Happ.
    destruct inFlight1 as [|x inFlight1].
    + rewrite (refill_busy _ _ _ _ Hc Hr eq_refl) in Happ.
      rewrite <- Happ. reflexivity.
    + destruct (pick_cons (hd 0%nat schedule) x inFlight1)
        as (y & rest & -> & Hperm).
      rewrite <- Happ, Hperm. simpl. constructor.
      apply IH.
      apply (f_equal length) in Happ. apply Permutation_length in Hperm.
      rewrite !length_app in Happ. simpl in *. lia.
Qed.

Lemma pick_elem (choice : nat) (l rest : list (nat * Item)) (y : nat * Item) :
  pick choice l = Some (y, rest) ->
  y ∈ l /\ (forall z, z ∈ rest -> z ∈ l).
Proof.
  unfold pick.
  destruct (l !! (choice mod length l)%nat) as [x|] eqn:Hx; [|discriminate].
  intros [= <- <-]. split.
  - apply list_elem_of_lookup. eauto.
  - intros z. apply list_elem_of_delete_inv.
Qed.

(** Only items of the input are invoked. *)
Lemma completion_order_elem (fuel : nat) (schedule : list nat)
    (pending inFlight : list (nat * Item)) (ix : nat * Item) :
  ix ∈ completion_order fuel schedule pending inFlight ->
  ix ∈ inFlight ++ pending.
Proof.
  revert schedule pending inFlight.
  induction fuel as [|fuel IH]; intros schedule pending inFlight; simpl.
  - by intros ?%elem_of_nil.
  - destruct (refill pending inFlight) as [pending1 inFlight1] eqn:Hr.
    rewrite <- (refill_app _ _ _ _ Hr).
    destruct (pick (hd 0%nat schedule) inFlight1) as [[y rest]|] eqn:Hp;
      [|by intros ?%elem_of_nil].
    destruct (pick_elem _ _ _ _ Hp) as [Hy Hrest].
    intros [->|Hin]%elem_of_cons.
    + apply elem_of_app. by left.
    + apply IH, elem_of_app in Hin as [Hin|Hin]; apply elem_of_app;
        [left; by apply Hrest | by right].
Qed.

Lemma run_in_order_invariant (P : PoolRun Item Out State -> Prop)
    (order : list (nat * Item)) (run : PoolRun Item Out State) :
  (forall ix r, ix ∈ order -> P r -> P (invoke worker onError ix r)) ->
  P run -> P (run_in_order order run).
Proof.
  revert run.
  induction order as [|ix order IH]; intros run Hstep Hrun; simpl; [done|].
  apply IH.
  - intros ix' r Hin. apply Hstep. by apply list_elem_of_further.
  - apply Hstep; [apply list_elem_of_here | exact Hrun].
Qed.

Lemma succeeded_app (l1 l2 : list (nat * Item * Result Out)) :
  succeeded (l1 ++ l2) = succeeded l1 ++ succeeded l2.
Proof. apply omap_app. Qed.

Lemma failed_app (l1 l2 : list (nat * Item * Result Out)) :
  failed (l1 ++ l2) = failed l1 ++ failed l2.
Proof. apply omap_app. Qed.

Lemma succeeded_failed_length (log : list (nat * Item * Result Out)) :
  (length (succeeded log) + length (failed log))%nat = length log.
Proof.
  induction log as [|[[i x] [o|e]] log IH]; simpl; [reflexivity|..];
    unfold succeeded, failed in *; simpl; lia.
Qed.

(** One invocation adds one entry to the record of settled invocations,
    and a value or an [onError] call with it. *)
Lemma invoke_settled (ix : nat * Item) (run : PoolRun Item Out State) :
  exists r,
    r = (worker ix.2 ix.1 (final run)).1
    /\ settled (invoke worker onError ix run) = settled run ++ [(ix.1, ix.2, r)]
    /\ results (invoke worker onError ix run) = results run ++ succeeded [(ix.1, ix.2, r)]
    /\ onErrorCalls (invoke worker onError ix run)
       = onErrorCalls run ++ reported onError (failed [(ix.1, ix.2, r)]).
Proof.
  unfold invoke, reported.
  destruct (worker ix.2 ix.1 (final run)) as [r s].
  exists r. simpl.
  destruct r as [o|e], onError; simpl; rewrite ?app_nil_r; done.
Qed.

Lemma reported_app {H C : Type} (handler : option H) (l1 l2 : list C) :
  reported handler (l1 ++ l2) = reported handler l1 ++ reported handler l2.
Proof. by destruct handler. Qed.

Lemma run_in_order_settled (order : list (nat * Item))
    (run : PoolRun Item Out State) :
  exists log,
    settled (run_in_order order run) = settled run ++ log
    /\ log.*1 = order
    /\ results (run_in_order order run) = results run ++ succeeded log
    /\ onErrorCalls (run_in_order order run)
       = onErrorCalls run ++ reported onError (failed log).
Proof.
  revert run. induction order as [|ix order IH]; intros run; simpl.
  - exists []. unfold reported. destruct onError; by rewrite !app_nil_r.
  - destruct (IH (invoke worker onError ix run)) as (log & Hs & Ho & Hr & He).
    destruct (invoke_settled ix run) as (r & _ & Hs1 & Hr1 & He1).
    exists ([(ix.1, ix.2, r)] ++ log).
    rewrite Hs, Hr, He, Hs1, Hr1, He1, <- !app_assoc.
    rewrite succeeded_app, failed_app, reported_app.
    split_and!; try reflexivity.
    destruct ix. csimpl. by rewrite Ho.
Qed.

End WorkerPoolFacts.

(** What a run of the pool amounts to, with or without an [onError]
    handler: every item settles once, in some order, and the run is the
    run of the worker over the items in that order. *)
Lemma workerPoolCollect_settled {Item Out State : Type}
    (worker : Item -> nat -> State -> Result Out * State) (concurrency : nat)
    (onError : option (Item -> nat -> JsError -> State -> State))
    (items : list Item) (schedule : list nat) (s : State) :
  (1 <= concurrency)%nat ->
  (settled (workerPoolCollect worker concurrency onError items schedule s)).*1
  ≡ₚ indexed items
  /\ workerPoolCollect worker concurrency onError items schedule s
     = run_in_order worker onError
         (settled
            (workerPoolCollect worker concurrency onError items schedule s)).*1
         (pool_start s)
  /\ results (workerPoolCollect worker concurrency onError items schedule s)
     = succeeded
         (settled (workerPoolCollect worker concurrency onError items schedule s))
  /\ onErrorCalls (workerPoolCollect worker concurrency onError items schedule s)
     = reported onError
         (failed
            (settled
               (workerPoolCollect worker concurrency onError items schedule s))).
Proof.
  intros Hc. unfold workerPoolCollect. rewrite pool_loop_in_order.
  destruct (run_in_order_settled worker onError
              (completion_order concurrency (length items) schedule
                 (indexed items) [])
              (pool_start s)) as (log & Hs & Ho & Hr & He).
  simpl in Hs, Hr, He. rewrite Hs, Hr, He, Ho. split_and!; try reflexivity.
  rewrite completion_order_Permutation; [reflexivity|exact Hc|].
  unfold indexed. rewrite length_imap. simpl. lia.
Qed.

Lemma indexed_elem {Item : Type} (items : list Item) (ix : nat * Item) :
  ix ∈ indexed items -> ix.2 ∈ items.
Proof.
  unfold indexed. intros [k Hk]%list_elem_of_lookup.
  rewrite list_lookup_imap in Hk.
  destruct (items !! k) as [x|] eqn:Hx; [|discriminate].
  injection Hk as <-. simpl. apply list_elem_of_lookup. eauto.
Qed.

(** A property of runs that holds at the start and is kept by every
    invocation for an item of the input holds of the pool's run. *)
Lemma workerPoolCollect_invariant {Item Out State : Type}
    (worker : Item -> nat -> State -> Result Out * State) (concurrency : nat)
    (onError : option (Item -> nat -> JsError -> State -> State))
    (items : list Item) (schedule : list nat) (s : State)
    (P : PoolRun Item Out State -> Prop) :
  P (pool_start s) ->
  (forall ix run, ix.2 ∈ items -> P run -> P (invoke worker onError ix run)) ->
  P (workerPoolCollect worker concurrency onError items schedule s).
Proof.
  intros Hstart Hstep. unfold workerPoolCollect. rewrite pool_loop_in_order.
  apply run_in_order_invariant; [|exact Hstart].
  intros ix run Hin. apply Hstep.
  apply completion_order_elem in Hin. rewrite app_nil_l in Hin.
  by apply indexed_elem.
Qed.

(** The items with their positions, as the pool numbers them. *)
Lemma indexed_zip {Item : Type} (items : list Item) :
  indexed items = zip (seq 0 (length items)) items.
Proof.
  unfold indexed.
  enough (H : forall k, imap (fun i => pair (k + i)%nat) items
                        = zip (seq k (length items)) items) by exact (H 0%nat).
  induction items as [|x items IH]; intros k; [reflexivity|].
  cbn [imap length seq zip zip_with]. f_equal; [f_equal; lia|].
  rewrite <- IH. apply imap_ext. intros i y _. simpl. f_equal. lia.
Qed.

Section IsolatedFacts.
Context {Item Out State : Type}.
Variable worker : Item -> nat -> State -> Result Out * State.
Variable onError : option (Item -> nat -> JsError -> State -> State).

(** The pool's run over a given order is the specification's run over it. *)
Lemma run_in_order_isolated (order : list (nat * Item))
    (run : PoolRun Item Out State) (acc : Isolated Item Out State) :
  results run = collected acc -> final run = reached acc ->
  results (run_in_order worker onError order run)
  = collected (fold_left (isolated_step worker onError) order acc)
  /\ final (run_in_order worker onError order run)
     = reached (fold_left (isolated_step worker onError) order acc).
Proof.
  revert run acc.
  induction order as [|ix order IH]; intros run acc Hres Hfin; [done|].
  cbn [run_in_order fold_left]. apply IH.
  - unfold invoke, isolated_step. rewrite Hfin.
    destruct (worker ix.2 ix.1 (reached acc)) as [[o|e] s'];
      unfold settle; [|destruct onError]; simpl; by rewrite ?Hres.
  - unfold invoke, isolated_step. rewrite Hfin.
    destruct (worker ix.2 ix.1 (reached acc)) as [[o|e] s'];
      unfold settle; [|destruct onError]; done.
Qed.

(** In the specification's run every item is collected or handled. *)
Lemma isolated_fold_length (order : list (nat * Item))
    (acc : Isolated Item Out State) :
  let acc' := fold_left (isolated_step worker onError) order acc in
  (length (collected acc') + length (handled acc')
   = length (collected acc) + length (handled acc) + length order)%nat.
Proof.
  revert acc. induction order as [|ix order IH]; intros acc; simpl; [lia|].
  specialize (IH (isolated_step worker onError acc ix)). simpl in IH.
  rewrite IH. unfold isolated_step.
  destruct (worker ix.2 ix.1 (reached acc)) as [[o|e] s'];
    simpl; rewrite ?length_app; simpl; lia.
Qed.

(** A record of the handler's calls kept in the state holds the handled
    failures, in their order. *)
Lemma isolated_fold_calls {C : Type} (handler : Item -> nat -> JsError -> State -> State)
    (calls : State -> list C) (entry : Item -> nat -> JsError -> C)
    (order : list (nat * Item)) (acc : Isolated Item Out State) :
  onError = Some handler ->
  (forall x i s, calls (worker x i s).2 = calls s) ->
  (forall x i e s, calls (handler x i e s) = calls s ++ [entry x i e]) ->
  let acc' := fold_left (isolated_step worker onError) order acc in
  exists new,
    handled acc' = handled acc ++ new
    /\ calls (reached acc')
       = calls (reached acc) ++ ((fun c => entry c.1.1 c.1.2 c.2) <$> new).
Proof.
  intros Hh Hw Hc. revert acc.
  induction order as [|ix order IH]; intros acc; simpl.
  - exists []. by rewrite !app_nil_r.
  - destruct (IH (isolated_step worker onError acc ix)) as (new & Hn & Hcalls).
    unfold isolated_step in *. pose proof (Hw ix.2 ix.1 (reached acc)) as Hkeep.
    destruct (worker ix.2 ix.1 (reached acc)) as [[o|e] s']; simpl in *.
    + exists new. by rewrite Hn, Hcalls, Hkeep.
    + exists ((ix.2, ix.1, e) :: new).
      rewrite Hn, Hcalls, Hh, Hc, Hkeep, <- !app_assoc. done.
Qed.

(** When the outcome of an invocation is a function of the item and its
    position, the values collected and the failures handled are those of
    the order's items. *)
Lemma isolated_fold_outcomes (outcome : Item -> nat -> Result Out)
    (order : list (nat * Item)) (acc : Isolated Item Out State) :
  (forall x i s, (worker x i s).1 = outcome x i) ->
  let acc' := fold_left (isolated_step worker onError) order acc in
  collected acc'
  = collected acc
    ++ omap (fun ix => match outcome ix.2 ix.1 with
                       | Ok o => Some o
                       | Thrown _ => None
                       end) order
  /\ handled acc'
     = handled acc
       ++ omap (fun ix => match outcome ix.2 ix.1 with
                          | Ok _ => None
                          | Thrown e => Some (ix.2, ix.1, e)
                          end) order.
Proof.
  intros Hw. revert acc.
  induction order as [|ix order IH]; intros acc; simpl.
  - by rewrite !app_nil_r.
  - destruct (IH (isolated_step worker onError acc ix)) as [Hc Hh].
    rewrite Hc, Hh. unfold isolated_step.
    pose proof (Hw ix.2 ix.1 (reached acc)) as Ho.
    destruct (worker ix.2 ix.1 (reached acc)) as [[o|e] s']; simpl in *;
      rewrite <- Ho; simpl; by rewrite <- ?app_assoc.
Qed.

End IsolatedFacts.

(** C3. For a list of K items and at least one worker, whatever the order
    in which invocations settle, the pool's run is the run the
    specification describes, over some order of the items of the input
    with their positions in it: what the pool returns is the collection of
    that run and the state it leaves is the state of that run, in which
    [onError] has been applied to every failure, with the item, its
    position and the error, and the items after a failure have been
    processed. With F failures the pool returns K - F entries. A record of
    the handler's calls that the handler keeps in the state (and the
    worker leaves alone) holds exactly the F failures. When the outcome of
    an invocation depends on the item and its position only, the entries
    returned are the values of the items of the input that succeed and the
    failures handled are those of the items that fail. *)
Theorem workerPoolCollect_failure_isolation {Item Out State : Type}
    (worker : Item -> nat -> State -> Result Out * State) (concurrency : nat)
    (onError : Item -> nat -> JsError -> State -> State)
    (items : list Item) (schedule : list nat) (s : State) :
  (1 <= concurrency)%nat ->
  let run :=
    workerPoolCollect worker concurrency (Some onError) items schedule s in
  exists order : list (nat * Item),
    order ≡ₚ zip (seq 0 (length items)) items
    /\ let spec := isolated_run worker (Some onError) order s in
       let F := length (handled spec) in
       results run = collected spec
       /\ final run = reached spec
       /\ length (results run) = (length items - F)%nat
       /\ (F <= length items)%nat
       /\ (forall (calls : State -> list (Item * nat * JsError)),
             (forall x i s', calls (worker x i s').2 = calls s') ->
             (forall x i e s',
                calls (onError x i e s') = calls s' ++ [(x, i, e)]) ->
             calls (final run) = calls s ++ handled spec)
       /\ (forall outcome : Item -> nat -> Result Out,
             (forall x i s', (worker x i s').1 = outcome x i) ->
             results run
             ≡ₚ omap (fun ix => match outcome ix.2 ix.1 with
                                | Ok o => Some o
                                | Thrown _ => None
                                end) (zip (seq 0 (length items)) items)
             /\ handled spec
                ≡ₚ omap (fun ix => match outcome ix.2 ix.1 with
                                   | Ok _ => None
                                   | Thrown e => Some (ix.2, ix.1, e)
                                   end) (zip (seq 0 (length items)) items)).
Proof.
  intros Hc run.
  destruct (workerPoolCollect_settled worker concurrency (Some onError)
              items schedule s Hc) as (Hperm & Hrun & _ & _).
  fold run in Hperm, Hrun. rewrite indexed_zip in Hperm.
  exists (settled run).*1. split; [exact Hperm|].
  intros spec F.
  destruct (run_in_order_isolated worker (Some onError) (settled run).*1
              (pool_start s)
              {| collected := []; reached := s; handled := [] |}
              eq_refl eq_refl) as [Hres Hfin].
  rewrite <- Hrun in Hres, Hfin. fold (isolated_run worker (Some onError)
    (settled run).*1 s) in Hres, Hfin. fold spec in Hres, Hfin.
  pose proof (isolated_fold_length worker (Some onError) (settled run).*1
                {| collected := []; reached := s; handled := [] |}) as Hlen.
  cbv zeta in Hlen. fold (isolated_run worker (Some onError)
    (settled run).*1 s) in Hlen. fold spec in Hlen. simpl in Hlen.
  assert (Hk : length (settled run).*1 = length items).
  { rewrite Hperm, length_zip, length_seq. lia. }
  split_and!.
  - exact Hres.
  - exact Hfin.
  - rewrite Hres. unfold F. lia.
  - unfold F. lia.
  - intros calls Hw Hh.
    destruct (isolated_fold_calls worker (Some onError) onError calls
                (fun x i e => (x, i, e)) (settled run).*1
                {| collected := []; reached := s; handled := [] |}
                eq_refl Hw Hh) as (new & Hn & Hcalls).
    fold (isolated_run worker (Some onError) (settled run).*1 s) in Hn, Hcalls.
    fold spec in Hn, Hcalls. simpl in Hn, Hcalls.
    rewrite Hfin, Hcalls, Hn. f_equal.
    clear. induction new as [|[[x i] e] new IH]; [done|]. csimpl. by rewrite IH.
  - intros outcome Hw.
    destruct (isolated_fold_outcomes worker (Some onError) outcome
                (settled run).*1
                {| collected := []; reached := s; handled := [] |} Hw)
      as [Hcol Hhan].
    fold (isolated_run worker (Some onError) (settled run).*1 s) in Hcol, Hhan.
    fold spec in Hcol, Hhan. simpl in Hcol, Hhan.
    rewrite Hres, Hcol, Hhan. split; by rewrite Hperm.
Qed.

(** ** Sorting by position *)

Definition by_position (a b : SerpResult.t) : Prop :=
  SerpResult.position a <= SerpResult.position b.

Lemma insert_by_position_Permutation (x : SerpResult.t) (l : list SerpResult.t) :
  insert_by_position x l ≡ₚ x :: l.
Proof.
  induction l as [|y l IH]; simpl; [reflexivity|].
  destruct (SerpResult.position x <=? SerpResult.position y); [reflexivity|].
  rewrite IH. apply perm_swap.
Qed.

Lemma sort_by_position_Permutation (l : list SerpResult.t) :
  sort_by_position l ≡ₚ l.
Proof.
  induction l as [|x l IH]; simpl; [reflexivity|].
  rewrite insert_by_position_Permutation. by rewrite IH.
Qed.

Lemma insert_by_position_sorted (x : SerpResult.t) (l : list SerpResult.t) :
  StronglySorted by_position l ->
  StronglySorted by_position (insert_by_position x l).
Proof.
  induction 1 as [|y l Hsorted IH Hall]; simpl.
  - repeat constructor.
  - destruct (Z.leb_spec (SerpResult.position x) (SerpResult.position y))
      as [Hle|Hgt].
    + constructor; [by constructor|]. constructor; [exact Hle|].
      eapply Forall_impl; [exact Hall|]. unfold by_position. intros; lia.
    + constructor; [exact IH|].
      rewrite insert_by_position_Permutation. constructor; [|exact Hall].
      unfold by_position. lia.
Qed.

Lemma sort_by_position_sorted (l : list SerpResult.t) :
  StronglySorted by_position (sort_by_position l).
Proof.
  induction l as [|x l IH]; simpl; [constructor|].
  by apply insert_by_position_sorted.
Qed.

(** The sort is stable: the results of one position keep their order. *)
Lemma insert_by_position_stable (z : Z) (x : SerpResult.t)
    (l : list SerpResult.t) :
  filter (fun r => SerpResult.position r = z) (insert_by_position x l)
  = filter (fun r => SerpResult.position r = z) (x :: l).
Proof.
  induction l as [|y l IH]; simpl; [reflexivity|].
  destruct (Z.leb_spec (SerpResult.position x) (SerpResult.position y))
    as [Hle|Hgt]; [reflexivity|].
  rewrite (filter_cons _ y), IH, !(filter_cons _ x), !(filter_cons _ y).
  repeat case_decide; try reflexivity; lia.
Qed.

Lemma sort_by_position_stable (z : Z) (l : list SerpResult.t) :
  filter (fun r => SerpResult.position r = z) (sort_by_position l)
  = filter (fun r => SerpResult.position r = z) l.
Proof.
  induction l as [|x l IH]; simpl; [reflexivity|].
  by rewrite insert_by_position_stable, !filter_cons, IH.
Qed.

Lemma filter_unique_key {A K : Type} `{EqDecision K} (f : A -> K) (x : A)
    (l : list A) :
  NoDup (f <$> l) -> x ∈ l -> filter (fun y => f y = f x) l = [x].
Proof.
  induction l as [|y l IH]; csimpl; intros Hnd Hin.
  - by apply elem_of_nil in Hin.
  - apply NoDup_cons in Hnd as [Hy Hnd]. rewrite filter_cons.
    apply elem_of_cons in Hin as [->|Hin].
    + rewrite decide_True by reflexivity. f_equal.
      apply elem_of_nil_inv. intros z [Hz Hzl]%list_elem_of_filter.
      apply Hy. rewrite <- Hz. by apply list_elem_of_fmap_2.
    + rewrite decide_False; [by apply IH|].
      intros Heq. apply Hy. rewrite Heq. by apply list_elem_of_fmap_2.
Qed.

(** ** The search adapter *)

Section SearchAdapterFacts.
Context {env : Collaborators}.
Variable this : SearchAdapter.

(** The canonical URL of a result. *)
Definition canonical (r : SerpResult.t) : string :=
  normalizeUrl (SerpResult.url r).

Lemma dedup_loop_unique (results : list SerpResult.t) (seen : gset string)
    (unique : list SerpResult.t) :
  dedup_loop results seen unique = unique ++ dedup_loop results seen [].
Proof.
  revert seen unique. induction results as [|r rest IH]; intros seen unique.
  - simpl. by rewrite app_nil_r.
  - simpl. case_decide; [apply IH|].
    rewrite IH, (IH _ ([] ++ [r])), app_assoc. reflexivity.
Qed.

(** The loop keeps the first result of every canonical URL that is not in
    [seen] already, in the order of the input. *)
Lemma dedup_loop_first (results : list SerpResult.t) (seen : gset string) :
  sublist (dedup_loop results seen []) results
  /\ NoDup (canonical <$> dedup_loop results seen [])
  /\ (forall r, r ∈ dedup_loop results seen [] -> canonical r ∉ seen)
  /\ (forall r, r ∈ results ->
        canonical r ∈ seen
        \/ canonical r ∈ canonical <$> dedup_loop results seen [])
  /\ (forall r, r ∈ dedup_loop results seen [] ->
        exists pre post,
          results = pre ++ r :: post /\ canonical r ∉ canonical <$> pre).
Proof.
  revert seen. induction results as [|r rest IH]; intros seen; simpl.
  - split_and!; [done|constructor|..]; intros r Hr; by apply elem_of_nil in Hr.
  - fold (canonical r). case_decide as Hseen.
    + destruct (IH seen) as (Hsub & Hnd & Hnot & Hcov & Hfirst).
      split_and!; [by apply sublist_cons|done|done|..].
      * intros x [->|Hx]%elem_of_cons; [by left|by apply Hcov].
      * intros x Hx. destruct (Hfirst x Hx) as (pre & post & -> & Hpre).
        exists (r :: pre), post. split; [reflexivity|]. csimpl.
        intros [Heq|?]%elem_of_cons; [|done].
        apply (Hnot x Hx). by rewrite Heq.
    + rewrite dedup_loop_unique. simpl.
      destruct (IH ({[canonical r]} ∪ seen))
        as (Hsub & Hnd & Hnot & Hcov & Hfirst).
      split_and!.
      * by apply sublist_skip.
      * csimpl. apply NoDup_cons. split; [|done].
        intros (x & Heq & Hx)%list_elem_of_fmap.
        apply (Hnot x Hx). rewrite <- Heq.
        by apply elem_of_union_l, elem_of_singleton.
      * intros x [->|Hx]%elem_of_cons; [done|].
        intros Hs. apply (Hnot x Hx). by apply elem_of_union_r.
      * intros x [->|Hx]%elem_of_cons.
        { right. csimpl. apply list_elem_of_here. }
        destruct (Hcov x Hx) as [Hs|Hk].
        { apply elem_of_union in Hs as [->%elem_of_singleton|Hs];
            [right; csimpl; apply list_elem_of_here | by left]. }
        right. csimpl. by apply list_elem_of_further.
      * intros x [->|Hx]%elem_of_cons.
        { exists [], rest. split; [reflexivity|]. csimpl.
          by intros ?%elem_of_nil. }
        destruct (Hfirst x Hx) as (pre & post & -> & Hpre).
        exists (r :: pre), post. split; [reflexivity|]. csimpl.
        intros [Heq|?]%elem_of_cons; [|done].
        apply (Hnot x Hx). rewrite Heq.
        by apply elem_of_union_l, elem_of_singleton.
Qed.

(** The search result a direct URL becomes when it stands at index [i]. *)
Definition directResult (i : nat) (d : DirectUrl.t) : SerpResult.t :=
  {| SerpResult.url := DirectUrl.url d;
     SerpResult.title := DirectUrl.name d;
     SerpResult.snippet := "Direct source: " +:+ DirectUrl.name d;
     SerpResult.position := Z.of_nat i |}.

(** C2. The merge puts the direct URLs, positioned by index, before the
    search results; [deduplicateResults] keeps, for every canonical URL of
    the merged list, its first occurrence and nothing else, and returns the
    survivors sorted by position, ascending and stably. So a direct URL D
    at position 0 and an organic result O of the same canonical URL leave
    one entry for that URL, and it is D. *)
Theorem merge_dedup_keeps_first
    (directUrls : list DirectUrl.t) (serpResults : list SerpResult.t) :
  let merged := mergeResults directUrls serpResults in
  let unique := dedup_loop merged ∅ [] in
  let out := deduplicateResults merged in
  merged = imap directResult directUrls ++ serpResults
  /\ sublist unique merged
  /\ NoDup (canonical <$> unique)
  /\ (forall r, r ∈ merged -> canonical r ∈ canonical <$> unique)
  /\ (forall r, r ∈ unique ->
        exists pre post,
          merged = pre ++ r :: post /\ canonical r ∉ canonical <$> pre)
  /\ out ≡ₚ unique
  /\ StronglySorted by_position out
  /\ (forall z,
        filter (fun r => SerpResult.position r = z) out
        = filter (fun r => SerpResult.position r = z) unique)
  /\ (forall D ds O,
        directUrls = D :: ds ->
        O ∈ serpResults ->
        canonical O = normalizeUrl (DirectUrl.url D) ->
        filter (fun r => canonical r = normalizeUrl (DirectUrl.url D)) out
        = [directResult 0 D]
        /\ (SerpResult.position O <> 0 -> O ∉ out)).
Proof.
  intros merged unique out.
  destruct (dedup_loop_first merged ∅) as (Hsub & Hnd & _ & Hcov & Hfirst).
  fold unique in Hsub, Hnd, Hcov, Hfirst.
  assert (Hperm : out ≡ₚ unique) by apply sort_by_position_Permutation.
  assert (Hcov' : forall r, r ∈ merged -> canonical r ∈ canonical <$> unique).
  { intros r Hr. destruct (Hcov r Hr) as [Hs|Hk]; [|exact Hk].
    by apply not_elem_of_empty in Hs. }
  split_and!; try done.
  - apply sort_by_position_sorted.
  - intros z. apply sort_by_position_stable.
  - intros D ds O -> HO HOD.
    assert (HD : directResult 0 D ∈ out).
    { rewrite Hperm.
      assert (Hm : directResult 0 D ∈ merged) by apply list_elem_of_here.
      apply Hcov', list_elem_of_fmap in Hm as (x & Hkey & Hx).
      destruct (Hfirst x Hx) as (pre & post & Hsplit & Hpre).
      destruct pre as [|y pre]; simpl in Hsplit.
      - injection Hsplit as <- _. exact Hx.
      - injection Hsplit as <- _. exfalso. apply Hpre.
        rewrite <- Hkey. csimpl. apply list_elem_of_here. }
    assert (Hnd' : NoDup (canonical <$> out)) by by rewrite Hperm.
    pose proof (filter_unique_key canonical _ _ Hnd' HD) as Hone.
    split; [exact Hone|].
    intros Hpos HOout.
    assert (HOin : O ∈ filter (fun r => canonical r = canonical (directResult 0 D)) out)
      by (apply list_elem_of_filter; split; [exact HOD|exact HOout]).
    rewrite Hone in HOin. apply list_elem_of_singleton in HOin.
    subst O. by apply Hpos.
Qed.

(** *** The availability check *)

(** C8. When the provider's availability check fails, [fetch] returns the
    empty result carrying the status message at once: no items, no errors,
    and the world is as it was, so no collaborator was called, no pool was
    run, no later stage was entered and the tracker was not touched. *)
Theorem fetch_unavailable (since : Date) (schedules : Schedules) (w : World) :
  BrightDataStatus.available getBrightDataStatus = false ->
  fetch this since schedules w
  = (Ok (emptyResult this (BrightDataStatus.message getBrightDataStatus)), w)
  /\ FetchResult.items
       (emptyResult this (BrightDataStatus.message getBrightDataStatus)) = []
  /\ FetchResult.errors
       (emptyResult this (BrightDataStatus.message getBrightDataStatus)) = []
  /\ FetchResult.message
       (emptyResult this (BrightDataStatus.message getBrightDataStatus))
     = Some (BrightDataStatus.message getBrightDataStatus).
Proof.
  intros Hdown. unfold fetch. rewrite Hdown. simpl.
  split_and!; reflexivity.
Qed.

(** *** Extraction *)

(** The call of [extractContent] the worker makes for a scraped page. *)
Definition extraction (scraped : ScrapedContent.t)
  : Result (option Extracted.t) :=
  extractContent (ScrapedContent.content scraped)
    (ScrapedContent.url scraped) (ScrapedContent.imageUrl scraped)
    (countryConfig this)
    (opt_str_or (SearchSettings.uiLanguage (settings this)) "en")
    (ScrapedContent.category scraped).

Lemma geocodeLocation_errors (extracted : Extracted.t) (st : St) :
  errors (geocodeLocation this extracted st).2 = errors st.
Proof.
  unfold geocodeLocation.
  destruct (Extracted.location extracted) as [name|]; [|reflexivity].
  case_decide; [reflexivity|].
  destruct (geocode name) as [[coords|]|e]; reflexivity.
Qed.

(** How an invocation of the extraction worker settles: with the thrown
    error, with the error for a null extraction, or, for a non-null
    extraction, with the normalized item unless geocoding threw. The
    [errors] array is left to the [onError] callback. *)
Lemma extractWorker_settles (total : nat) (scraped : ScrapedContent.t)
    (index : nat) (st : St) :
  errors (extractWorker this total scraped index st).2 = errors st
  /\ match extraction scraped with
     | Thrown e => (extractWorker this total scraped index st).1 = Thrown e
     | Ok None =>
         (extractWorker this total scraped index st).1
         = Thrown {| error_message := "Extraction returned null" |}
     | Ok (Some extracted) =>
         (exists location now,
            (extractWorker this total scraped index st).1
            = Ok (normalizedItem scraped extracted location now))
         \/ (exists e, (extractWorker this total scraped index st).1 = Thrown e)
     end.
Proof.
  unfold extractWorker, extraction.
  destruct (extractContent _ _ _ _ _ _) as [[extracted|]|e]; simpl;
    [|by split..].
  match goal with
  | |- context [geocodeLocation this extracted ?s] =>
      pose proof (geocodeLocation_errors extracted s) as Herr;
      destruct (geocodeLocation this extracted s) as [[location|e] st']
  end; simpl in *.
  - split; [exact Herr|]. left. eauto.
  - split; [exact Herr|]. right. eauto.
Qed.

(** C10. An invocation of the extraction worker that produces an item
    comes from a non-null extraction; the item's url is the extracted
    article URL when there is one (a non-empty string) and the scraped URL
    otherwise, and its id is [generateId] of ["search:"] followed by that
    url, so items with the same url have the same id. *)
Theorem extracted_item_url_and_id (total : nat) (scraped : ScrapedContent.t)
    (index : nat) (st st' : St) (item : NormalizedItem.t) :
  extractWorker this total scraped index st = (Ok item, st') ->
  (exists extracted,
     extraction scraped = Ok (Some extracted)
     /\ (forall u,
           Extracted.articleUrl extracted = Some u -> u <> "" ->
           NormalizedItem.url item = u)
     /\ (Extracted.articleUrl extracted = None
         \/ Extracted.articleUrl extracted = Some "" ->
         NormalizedItem.url item = ScrapedContent.url scraped))
  /\ NormalizedItem.id item
     = generateId ("search:" +:+ NormalizedItem.url item)
  /\ (forall total2 scraped2 index2 st2 st2' item2,
        extractWorker this total2 scraped2 index2 st2 = (Ok item2, st2') ->
        NormalizedItem.url item2 = NormalizedItem.url item ->
        NormalizedItem.id item2 = NormalizedItem.id item).
Proof.
  assert (Hid : forall total scraped index st st' item,
             extractWorker this total scraped index st = (Ok item, st') ->
             exists extracted location now,
               extraction scraped = Ok (Some extracted)
               /\ item = normalizedItem scraped extracted location now).
  { clear. intros total scraped index st st' item Hrun.
    destruct (extractWorker_settles total scraped index st) as [_ Hout].
    rewrite Hrun in Hout. simpl in Hout.
    destruct (extraction scraped) as [[extracted|]|e]; try discriminate.
    destruct Hout as [(location & now & [= ->])|[e [=]]]. eauto. }
  intros Hrun.
  destruct (Hid _ _ _ _ _ _ Hrun) as (extracted & location & now & Hex & ->).
  split_and!.
  - exists extracted. split; [exact Hex|]. simpl. split.
    + intros u -> Hu. simpl. unfold str_or. by rewrite decide_False.
    + intros [-> | ->]; reflexivity.
  - reflexivity.
  - intros total2 scraped2 index2 st2 st2' item2 Hrun2.
    destruct (Hid _ _ _ _ _ _ Hrun2) as (ex2 & loc2 & now2 & _ & ->).
    simpl. by intros ->.
Qed.

(** *** The recency filter and the order of the calls *)

Definition is_scrape (ev : Event) : Prop :=
  match ev with
  | EvScrape _ => True
  | _ => False
  end.

#[global] Instance is_scrape_dec (ev : Event) : Decision (is_scrape ev).
Proof. destruct ev; simpl; apply _. Defined.

(** The calls recorded from [st] to [st'] all satisfy [Q]. *)
Definition grows (Q : Event -> Prop) (st st' : St) : Prop :=
  exists evs,
    trace (world st') = trace (world st) ++ evs /\ Forall Q evs.

Lemma grows_same (Q : Event -> Prop) (st st' : St) :
  trace (world st') = trace (world st) -> grows Q st st'.
Proof. intros Heq. exists []. by rewrite app_nil_r. Qed.

Lemma grows_trans (Q : Event -> Prop) (st1 st2 st3 : St) :
  grows Q st1 st2 -> grows Q st2 st3 -> grows Q st1 st3.
Proof.
  intros (evs1 & H1 & HQ1) (evs2 & H2 & HQ2). exists (evs1 ++ evs2).
  rewrite H2, H1, app_assoc. split; [reflexivity|]. by apply Forall_app.
Qed.

Lemma grows_log (Q : Event -> Prop) (ev : Event) (st st' : St) :
  Q ev -> trace (world st') = trace (world st) ->
  grows Q st (log_event ev st').
Proof.
  intros HQ Heq. exists [ev]. simpl. rewrite Heq.
  split; [reflexivity|]. by constructor.
Qed.

(** A pool run records the calls of its workers and handler only. *)
Lemma pool_grows {Item Out : Type} (Q : Event -> Prop)
    (worker : Item -> nat -> St -> Result Out * St) (concurrency : nat)
    (handler : Item -> nat -> JsError -> St -> St)
    (items : list Item) (schedule : list nat) (st : St) :
  (forall x i s, x ∈ items -> grows Q s (worker x i s).2) ->
  (forall x i e s, grows Q s (handler x i e s)) ->
  grows Q st
    (final (workerPoolCollect worker concurrency (Some handler) items
              schedule st)).
Proof.
  intros Hworker Hhandler.
  apply (workerPoolCollect_invariant _ _ _ _ _ _
           (fun run => grows Q st (final run))).
  - by apply grows_same.
  - intros ix run Hin Hrun. unfold invoke.
    specialize (Hworker ix.2 ix.1 (final run) Hin).
    destruct (worker ix.2 ix.1 (final run)) as [[o|e] s1]; simpl in *.
    + by eapply grows_trans.
    + eapply grows_trans; [exact Hrun|].
      eapply grows_trans; [exact Hworker|]. apply Hhandler.
Qed.

Lemma runSearches_grows (queries : list SearchQuery.t) (schedule : list nat)
    (st : St) :
  grows (fun ev => ~ is_scrape ev) st (runSearches this queries schedule st).2.
Proof.
  unfold runSearches. simpl.
  eapply grows_trans; [|apply pool_grows].
  - apply grows_log; [by intros []|reflexivity].
  - intros q i s _. unfold searchWorker.
    destruct (serpSearch _ _ _ _) as [rs|e]; simpl;
      (apply grows_log; [by intros []|reflexivity]).
  - intros q i e s. by apply grows_same.
Qed.

(** Every scrape recorded is of one of [urls]. *)
Definition scrapes_only (urls : list string) (ev : Event) : Prop :=
  match ev with
  | EvScrape u => u ∈ urls
  | _ => True
  end.

Lemma not_scrape_scrapes_only (urls : list string) (ev : Event) :
  ~ is_scrape ev -> scrapes_only urls ev.
Proof. destruct ev; simpl; tauto. Qed.

Lemma grows_impl (Q Q' : Event -> Prop) (st st' : St) :
  (forall ev, Q ev -> Q' ev) -> grows Q st st' -> grows Q' st st'.
Proof.
  intros Himpl (evs & Htrace & Hevs). exists evs. split; [exact Htrace|].
  eapply Forall_impl; [exact Hevs | exact Himpl].
Qed.

Lemma scrapeUrls_grows (urls : list UrlToScrape.t) (schedule : list nat)
    (st : St) :
  grows (scrapes_only (UrlToScrape.url <$> urls)) st
    (scrapeUrls this urls schedule st).2.
Proof.
  unfold scrapeUrls. simpl.
  eapply grows_trans; [|apply pool_grows].
  - by apply grows_log.
  - intros u i s Hu. unfold scrapeWorker.
    assert (Hev : scrapes_only (UrlToScrape.url <$> urls)
                    (EvScrape (UrlToScrape.url u)))
      by (simpl; by apply list_elem_of_fmap_2).
    destruct (scrapeAsMarkdown _) as [r|e]; simpl;
      [destruct (URL_hostname _); simpl|]; by apply grows_log.
  - intros u i e s. by apply grows_same.
Qed.

Lemma geocodeLocation_grows (extracted : Extracted.t) (st : St) :
  grows (fun ev => ~ is_scrape ev) st (geocodeLocation this extracted st).2.
Proof.
  unfold geocodeLocation.
  destruct (Extracted.location extracted) as [name|]; [|by apply grows_same].
  case_decide; [by apply grows_same|].
  destruct (geocode name) as [[coords|]|e]; simpl;
    (apply grows_log; [by intros []|reflexivity]).
Qed.

Lemma extractAndNormalize_grows (pages : list ScrapedContent.t)
    (schedule : list nat) (st : St) :
  grows (fun ev => ~ is_scrape ev) st
    (extractAndNormalize this pages schedule st).2.
Proof.
  unfold extractAndNormalize, extractRun. simpl.
  eapply grows_trans; [|apply pool_grows].
  - apply grows_log; [by intros []|reflexivity].
  - intros p i s _. unfold extractWorker.
    destruct (extractContent _ _ _ _ _ _) as [[extracted|]|e]; simpl;
      try (apply grows_log; [by intros []|reflexivity]).
    match goal with
    | |- context [geocodeLocation this extracted ?s0] =>
        pose proof (geocodeLocation_grows extracted s0) as Hgeo;
        destruct (geocodeLocation this extracted s0) as [[loc|e] s1]
    end; simpl in *;
      (eapply grows_trans; [|exact Hgeo]);
      (apply grows_log; [by intros []|reflexivity]).
  - intros p i e s. by apply grows_same.
Qed.

Lemma fetch_process_trace (selectedUrls : list UrlToScrape.t)
    (schedules : Schedules) (st : St) :
  exists post,
    trace (fetch_process this selectedUrls schedules st).2
    = trace (world st) ++ post
    /\ Forall (scrapes_only (UrlToScrape.url <$> selectedUrls)) post.
Proof.
  unfold fetch_process. cbv zeta.
  match goal with
  | |- context [scrapeUrls this selectedUrls ?o ?s0] =>
      pose proof (scrapeUrls_grows selectedUrls o s0) as (evs1 & Ht1 & Hevs1);
      destruct (scrapeUrls this selectedUrls o s0) as [scrapedContent st1]
  end.
  match goal with
  | |- context [extractAndNormalize this scrapedContent ?o ?s0] =>
      pose proof (extractAndNormalize_grows scrapedContent o s0)
        as (evs2 & Ht2 & Hevs2);
      destruct (extractAndNormalize this scrapedContent o s0) as [items st2]
  end.
  simpl in *. exists (evs1 ++ evs2). rewrite Ht2, Ht1, app_assoc.
  split; [reflexivity|]. apply Forall_app. split; [exact Hevs1|].
  eapply Forall_impl; [exact Hevs2|]. apply not_scrape_scrapes_only.
Qed.

(** [this.settings.maxUrlsToScrape ?? SEARCH_SETTINGS.maxUrlsToScrape]. *)
Definition maxUrls : Z :=
  default (SEARCH_SETTINGS.maxUrlsToScrape searchSettings)
    (SearchSettings.maxUrlsToScrape (settings this)).

(** What follows the selection among the recorded calls: nothing when the
    selector throws, and otherwise scrapes of selected URLs only. *)
Definition after_selection (newResults : list SerpResult.t)
    (post : list Event) : Prop :=
  match selectBestUrls newResults (countryConfig this) maxUrls with
  | Ok selectedUrls =>
      Forall (scrapes_only (UrlToScrape.url <$> selectedUrls)) post
  | Thrown _ => post = []
  end.

End SearchAdapterFacts.

(** * Examples *)

(** ** A pool run *)

(** A worker that fails on even items and records the indices it saw. *)
Definition demo_worker (x i : nat) (s : list nat) : Result nat * list nat :=
  (if Nat.even x then Thrown {| error_message := "even" |}
   else Ok (x * 10)%nat,
   s ++ [i]).

Definition demo_onError (x i : nat) (e : JsError) (s : list nat) : list nat :=
  s ++ [100 + i]%nat.

Definition demo_run : PoolRun nat nat (list nat) :=
  workerPoolCollect demo_worker 2 (Some demo_onError) [1; 2; 3; 4; 5]%nat
    [1; 1; 0; 0; 0]%nat [].

(** Five items, two workers, the second in-flight invocation settling
    first: three values in the order of completion, two [onError] calls. *)
Example demo_run_value :
  results demo_run = [30; 10; 50]%nat
  /\ final demo_run = [1; 101; 2; 0; 3; 103; 4]%nat
  /\ onErrorCalls demo_run
     = [(2, 1, {| error_message := "even" |});
        (4, 3, {| error_message := "even" |})]%nat
  /\ (settled demo_run).*1 = [(1, 2); (2, 3); (0, 1); (3, 4); (4, 5)]%nat.
Proof. vm_compute. done. Qed.

(** The two failures of that run, as the handler receives them. *)
Definition demo_failures : list (nat * nat * JsError) :=
  [(2, 1, {| error_message := "even" |});
   (4, 3, {| error_message := "even" |})]%nat.

Lemma workerPoolCollect_failure_isolation_example :
  (1 <= 2)%nat
  /\ exists order : list (nat * nat),
       order ≡ₚ [(0, 1); (1, 2); (2, 3); (3, 4); (4, 5)]%nat
       /\ results demo_run
          = collected (isolated_run demo_worker (Some demo_onError) order [])
       /\ final demo_run
          = reached (isolated_run demo_worker (Some demo_onError) order [])
       /\ handled (isolated_run demo_worker (Some demo_onError) order [])
          ≡ₚ demo_failures
       /\ results demo_run ≡ₚ [10; 30; 50]%nat
       /\ length (results demo_run) = (5 - 2)%nat.
Proof.
  assert (Hc : (1 <= 2)%nat) by lia.
  split; [exact Hc|].
  destruct (workerPoolCollect_failure_isolation demo_worker 2 demo_onError
              [1; 2; 3; 4; 5]%nat [1; 1; 0; 0; 0]%nat [] Hc)
    as (order & Hperm & Hres & Hfin & Hlen & _ & _ & Hpure).
  destruct (Hpure (fun x _ => if Nat.even x
                              then Thrown {| error_message := "even" |}
                              else Ok (x * 10)%nat)
              (fun _ _ _ => eq_refl)) as [Hvalues Hfailed].
  exists order. split_and!.
  - exact Hperm.
  - exact Hres.
  - exact Hfin.
  - exact Hfailed.
  - exact Hvalues.
  - etrans; [exact Hlen|]. by rewrite (Permutation_length Hfailed).
Defined.

(** ** A run of the adapter *)

(** The end-to-end scenario of the specification: two queries and one
    direct URL; one organic result has the canonical URL of the direct
    URL, another was scraped recently; the selector takes all candidates;
    one extraction returns null. *)
Definition demo_normalizeUrl (u : string) : string :=
  if decide (u = "https://news.example/") then "https://news.example" else u.

Definition demo_direct : DirectUrl.t :=
  {| DirectUrl.url := "https://news.example/"; DirectUrl.name := "News" |}.

Definition demo_organic (url : string) (position : Z) : SerpResult.t :=
  {| SerpResult.url := url; SerpResult.title := "t";
     SerpResult.snippet := "s"; SerpResult.position := position |}.

Definition demo_query (q category : string) : SearchQuery.t :=
  {| SearchQuery.query := q; SearchQuery.category := category;
     SearchQuery.language := "en" |}.

Definition demo_extracted (url category : string) : Extracted.t :=
  {| Extracted.title := "T"; Extracted.summary := "S";
     Extracted.category := category; Extracted.location := None;
     Extracted.articleUrl :=
       if decide (url = "https://blog.example/a")
       then Some "https://blog.example/a?full" else None;
     Extracted.publishedAt := None; Extracted.engagement := None;
     Extracted.imageUrl := None; Extracted.moodScore := Some 50;
     Extracted.eventDate := None |}.

Definition demo (available : bool) : Collaborators :=
  {| normalizeUrl := demo_normalizeUrl;
     generateId := fun s => "id:" +:+ s;
     getFaviconUrl := fun u => u +:+ "/favicon.ico";
     detectLanguage := fun _ => "en";
     URL_hostname := fun u => Ok u;
     getBrightDataStatus :=
       {| BrightDataStatus.available := available;
          BrightDataStatus.message :=
            if available then "ok" else "BrightData API key not configured" |};
     generateSearchQueries := fun _ _ =>
       Ok ([demo_query "q1" "news"; demo_query "q2" "tech"], [demo_direct]);
     serpSearch := fun q _ _ _ =>
       if decide (q = "q1")
       then Ok [demo_organic "https://news.example" 5;
                demo_organic "https://old.example/x" 6]
       else Ok [demo_organic "https://blog.example/a" 1;
                demo_organic "https://blog.example/b" 2];
     selectBestUrls := fun candidates _ _ =>
       Ok (map
             (fun r =>
                {| UrlToScrape.url := SerpResult.url r;
                   UrlToScrape.title := SerpResult.title r;
                   UrlToScrape.snippet := SerpResult.snippet r;
                   UrlToScrape.category := "news" |})
             candidates);
     scrapeAsMarkdown := fun u =>
       Ok {| ScrapeResult.content := "page " +:+ u;
             ScrapeResult.imageUrl := None; ScrapeResult.title := None |};
     extractContent := fun content url _ _ _ category =>
       if decide (url = "https://blog.example/b") then Ok None
       else Ok (Some (demo_extracted url category));
     geocode := fun _ => Ok None;
     searchSettings :=
       {| SEARCH_SETTINGS.maxConcurrentSearches := 2;
          SEARCH_SETTINGS.maxConcurrentScrapes := 2;
          SEARCH_SETTINGS.maxUrlsToScrape := 10 |};
     historicalItems :=
       [{| HistoricalItem.url := "https://old.example/x";
           HistoricalItem.fetchedAt := 0 |}];
     clock := fun calls => Z.of_nat (length calls);
     LocalTZA := fun _ _ => 0 |}.

Definition demo_adapter : SearchAdapter :=
  {| config := {| SourceConfig.name := "search" |};
     countryConfig :=
       {| CountryConfig.name := "Israel"; CountryConfig.code := "il" |};
     settings :=
       {| SearchSettings.maxQueries := None;
          SearchSettings.maxUrlsToScrape := None;
          SearchSettings.uiLanguage := None |} |}.

Definition demo_schedules : Schedules :=
  {| searchOrder := [1%nat]; scrapeOrder := [1%nat; 0%nat];
     extractOrder := [] |}.

Definition demo_world : World :=
  {| tracker := initRegionTracking ["Israel"] initialTracker; trace := [] |}.

Definition demo_st : St :=
  {| world := demo_world; errors := []; completed := 0 |}.

Definition demo_page (url : string) : ScrapedContent.t :=
  {| ScrapedContent.url := url; ScrapedContent.content := "page";
     ScrapedContent.imageUrl := None; ScrapedContent.title := Some "t";
     ScrapedContent.category := "news" |}.

(** The scenario gives two items, one error of source ["Extract"], the
    direct URL first among the candidates, and no scrape of the organic
    duplicate or of the recently scraped URL. *)
Example fetch_end_to_end :
  match fetch (env := demo true) demo_adapter 0 demo_schedules demo_world with
  | (Ok r, w) =>
      NormalizedItem.url <$> FetchResult.items r
      = ["https://blog.example/a?full"; "https://news.example/"]
      /\ NonFatalError.source <$> FetchResult.errors r = ["Extract"]
      /\ filter is_scrape (trace w)
         = [EvScrape "https://blog.example/a"; EvScrape "https://news.example/";
            EvScrape "https://blog.example/b"]
      /\ progress (getScanStatus (tracker w)) = Some 50
  | (Thrown _, _) => False
  end.
Proof. vm_compute. done. Qed.

Lemma fetch_unavailable_example :
  fetch (env := demo false) demo_adapter 0 demo_schedules demo_world
  = (Ok {| FetchResult.items := []; FetchResult.errors := [];
           FetchResult.sourceName := "search";
           FetchResult.message := Some "BrightData API key not configured" |},
     demo_world).
Proof.
  assert (Hdown : BrightDataStatus.available
                    (getBrightDataStatus (Collaborators := demo false))
                  = false) by reflexivity.
  exact (proj1 (fetch_unavailable (env := demo false) demo_adapter 0
                  demo_schedules demo_world Hdown)).
Defined.

Lemma extracted_item_url_and_id_example :
  exists item st',
    extractWorker (env := demo true) demo_adapter 1
      (demo_page "https://blog.example/a") 0 demo_st = (Ok item, st')
    /\ NormalizedItem.id item
       = generateId (Collaborators := demo true)
           ("search:" +:+ NormalizedItem.url item).
Proof.
  destruct (extractWorker (env := demo true) demo_adapter 1
              (demo_page "https://blog.example/a") 0 demo_st)
    as [[item|e] st'] eqn:Hrun; [|by vm_compute in Hrun].
  exists item, st'. split; [reflexivity|].
  exact (proj1 (proj2 (extracted_item_url_and_id (env := demo true)
                         demo_adapter 1 (demo_page "https://blog.example/a")
                         0 demo_st st' item Hrun))).
Defined.

(** * Further properties of the progress tracker *)

(** The least progress of the tracked regions, capped at the loop's start
    value 100. *)
Definition least_progress (m : JsMap.t Region.info) : Z :=
  foldr (fun e acc => Z.min (Region.progress e.2) acc) 100 m.

Lemma slowest_step_min (m : JsMap.t Region.info) (v0 : Z) (r0 : string) :
  (fold_left slowest_step m (v0, r0)).1
  = Z.min v0 (foldr (fun e acc => Z.min (Region.progress e.2) acc) v0 m).
Proof.
  revert v0 r0. induction m as [|[k i] m IH]; intros v0 r0; simpl.
  - lia.
  - destruct (Z.ltb_spec (Region.progress i) v0) as [Hlt|Hge]; rewrite IH.
    + assert (Hfold : forall a b,
                 a <= b ->
                 Z.min a (foldr (fun e acc => Z.min (Region.progress e.2) acc) a m)
                 = Z.min a (foldr (fun e acc => Z.min (Region.progress e.2) acc) b m)).
      { clear. intros a b Hab. induction m as [|[k i] m IH]; simpl; lia. }
      rewrite (Hfold (Region.progress i) v0) by lia. lia.
    + lia.
Qed.

Lemma slowest_least (m : JsMap.t Region.info) :
  (slowest m).1 = least_progress m.
Proof.
  unfold slowest, least_progress. rewrite slowest_step_min.
  induction m as [|[k i] m IH]; simpl; lia.
Qed.

Lemma least_progress_le (m : JsMap.t Region.info) :
  least_progress m <= 100
  /\ Forall (fun e => least_progress m <= Region.progress e.2) m.
Proof.
  unfold least_progress. induction m as [|[k i] m [IH1 IH2]]; simpl.
  - split; [lia|constructor].
  - split; [lia|]. constructor; [simpl; lia|].
    eapply Forall_impl; [exact IH2|]. simpl. intros; lia.
Qed.

Lemma JsMap_get_set_eq {V : Type} (k : string) (v : V) (m : JsMap.t V) :
  JsMap.get k (JsMap.set k v m) = Some v.
Proof.
  induction m as [|[k' v'] m IH]; simpl.
  - by rewrite decide_True.
  - destruct (decide (k' = k)) as [->|Hne]; simpl.
    + by rewrite decide_True.
    + by rewrite decide_False.
Qed.

Lemma JsMap_get_set_ne {V : Type} (k k' : string) (v : V) (m : JsMap.t V) :
  k <> k' -> JsMap.get k' (JsMap.set k v m) = JsMap.get k' m.
Proof.
  intros Hne. induction m as [|[k0 v0] m IH]; simpl.
  - by rewrite decide_False.
  - destruct (decide (k0 = k)) as [->|Hk]; simpl.
    + by rewrite !decide_False.
    + destruct (decide (k0 = k')); [reflexivity|exact IH].
Qed.

Lemma JsMap_get_None {V : Type} (k : string) (m : JsMap.t V) :
  JsMap.get k m = None <-> k ∉ m.*1.
Proof.
  induction m as [|[k' v'] m IH]; csimpl.
  - split; [intros _ ?%elem_of_nil; done | done].
  - destruct (decide (k' = k)) as [->|Hne].
    + split; [discriminate|]. intros Hnot. exfalso. apply Hnot.
      apply list_elem_of_here.
    + rewrite IH. split.
      * intros Hnot [?|?]%elem_of_cons; [congruence|done].
      * intros Hnot Hin. apply Hnot. by apply list_elem_of_further.
Qed.

Lemma JsMap_set_size {V : Type} (k : string) (v : V) (m : JsMap.t V) :
  JsMap.size (JsMap.set k v m)
  = if decide (k ∈ m.*1) then JsMap.size m else S (JsMap.size m).
Proof.
  unfold JsMap.size.
  rewrite <- (length_fmap fst (JsMap.set k v m)), JsMap_set_keys.
  case_decide; rewrite ?length_app, length_fmap; simpl; lia.
Qed.

(** X1. Whatever the regions have reported, also values above 100, the
    overall progress after [updateRegionProgress] is the least progress of
    the tracked regions capped at 100: it never exceeds 100 and never
    exceeds the progress of any tracked region, the reporting one
    included. *)
Theorem updateRegionProgress_capped (region : string) (p : Z) (msg : string)
    (t : Tracker) :
  exists v,
    progress (getScanStatus (updateRegionProgress region p msg t)) = Some v
    /\ v = Z.min 100
             (least_progress
                (regionProgress (updateRegionProgress region p msg t)))
    /\ v <= 100
    /\ v <= p
    /\ Forall (fun e => v <= Region.progress e.2)
         (regionProgress (updateRegionProgress region p msg t)).
Proof.
  pose proof (updateRegionProgress_unfold region p msg t) as Hu.
  cbv zeta in Hu. destruct Hu as (Hmap & _ & Hstatus).
  rewrite Hstatus, Hmap. simpl. rewrite slowest_least.
  set (m := JsMap.set region _ (regionProgress t)).
  destruct (least_progress_le m) as [Hcap Hall].
  exists (least_progress m). split_and!; try done; [lia|].
  assert (Hin : (region, {| Region.progress := p; Region.message := msg |}) ∈ m).
  { pose proof (JsMap_get_set_eq region
                  {| Region.progress := p; Region.message := msg |}
                  (regionProgress t)) as Hget.
    fold m in Hget. clearbody m. clear -Hget.
    induction m as [|[k v] m IH]; simpl in Hget; [discriminate|].
    destruct (decide (k = region)) as [->|Hne].
    - injection Hget as ->. apply list_elem_of_here.
    - apply list_elem_of_further, IH, Hget. }
  rewrite Forall_forall in Hall. apply (Hall _ Hin).
Qed.

Lemma least_progress_set_mono (r : string) (p : Z) (msg : string)
    (old : Region.info) (m : JsMap.t Region.info) :
  JsMap.get r m = Some old ->
  Region.progress old <= p ->
  least_progress m
  <= least_progress
       (JsMap.set r {| Region.progress := p; Region.message := msg |} m).
Proof.
  unfold least_progress. intros Hget Hle.
  induction m as [|[k i] m IH]; simpl in *; [discriminate|].
  destruct (decide (k = r)) as [->|Hne]; simpl.
  - injection Hget as ->. lia.
  - specialize (IH Hget). lia.
Qed.

(** X2. Between two consecutive reports the overall progress does not go
    backwards, provided the region that reports second was tracked already
    and does not report less than it stood at. *)
Theorem overall_progress_monotone (t : Tracker)
    (r1 : string) (p1 : Z) (msg1 : string)
    (r2 : string) (p2 : Z) (msg2 : string) (old : Region.info) :
  JsMap.get r2 (regionProgress (updateRegionProgress r1 p1 msg1 t)) = Some old ->
  Region.progress old <= p2 ->
  exists v1 v2,
    progress (getScanStatus (updateRegionProgress r1 p1 msg1 t)) = Some v1
    /\ progress
         (getScanStatus
            (updateRegionProgress r2 p2 msg2
               (updateRegionProgress r1 p1 msg1 t))) = Some v2
    /\ v1 <= v2.
Proof.
  intros Hget Hle.
  set (t1 := updateRegionProgress r1 p1 msg1 t) in *.
  pose proof (updateRegionProgress_unfold r1 p1 msg1 t) as Hu1.
  pose proof (updateRegionProgress_unfold r2 p2 msg2 t1) as Hu2.
  cbv zeta in Hu1, Hu2.
  destruct Hu1 as (Hmap1 & _ & Hstatus1), Hu2 as (_ & _ & Hstatus2).
  fold t1 in Hmap1, Hstatus1.
  rewrite Hstatus1, Hstatus2. simpl. rewrite !slowest_least.
  eexists _, _. split_and!; [reflexivity|reflexivity|].
  rewrite <- Hmap1. by eapply least_progress_set_mono.
Qed.

Lemma overall_progress_monotone_example :
  exists v1 v2,
    progress (getScanStatus example_tracker) = Some v1
    /\ progress
         (getScanStatus (updateRegionProgress "B" 30 "b" example_tracker))
       = Some v2
    /\ v1 <= v2.
Proof.
  assert (Hget : JsMap.get "B" (regionProgress example_tracker)
                 = Some {| Region.progress := 0;
                           Region.message := "Starting..." |})
    by reflexivity.
  assert (Hle : Region.progress
                  {| Region.progress := 0; Region.message := "Starting..." |}
                <= 30) by (simpl; lia).
  exact (overall_progress_monotone
           (initRegionTracking ["A"; "B"] initialTracker)
           "A" 80 "a" "B" 30 "b" _ Hget Hle).
Defined.

Lemma init_fold_get (regions : list string) (v : Region.info)
    (m : JsMap.t Region.info) (r : string) :
  JsMap.get r (fold_left (fun m region => JsMap.set region v m) regions m)
  = if decide (r ∈ regions) then Some v else JsMap.get r m.
Proof.
  revert m. induction regions as [|x regions IH]; intros m.
  - simpl. destruct (decide (r ∈ [])) as [Hin|]; [|reflexivity].
    by apply elem_of_nil in Hin.
  - cbn [fold_left]. rewrite IH. destruct (decide (r ∈ regions)) as [Hin|Hnot].
    + rewrite decide_True; [reflexivity|]. by apply list_elem_of_further.
    + destruct (decide (x = r)) as [->|Hne].
      * rewrite decide_True by apply list_elem_of_here.
        apply JsMap_get_set_eq.
      * rewrite decide_False by (intros [?|?]%elem_of_cons; [congruence|done]).
        by apply JsMap_get_set_ne.
Qed.

Lemma init_fold_keys (regions : list string) (v : Region.info)
    (m : JsMap.t Region.info) :
  NoDup m.*1 ->
  NoDup (fold_left (fun m region => JsMap.set region v m) regions m).*1
  /\ (JsMap.size (fold_left (fun m region => JsMap.set region v m) regions m)
      <= JsMap.size m + length regions)%nat
  /\ (NoDup regions -> (forall r, r ∈ regions -> r ∉ m.*1) ->
      JsMap.size (fold_left (fun m region => JsMap.set region v m) regions m)
      = (JsMap.size m + length regions)%nat).
Proof.
  revert m. induction regions as [|x regions IH]; intros m Hnd; simpl.
  - split_and!; [done|lia|lia].
  - destruct (IH (JsMap.set x v m) (JsMap_set_NoDup x v m Hnd))
      as (Hnd' & Hsize & Hexact).
    pose proof (JsMap_set_size x v m) as Hset.
    split_and!; [done| |].
    + case_decide; lia.
    + intros [Hx Hregions]%NoDup_cons Hfresh.
      rewrite Hexact; [|done|].
      * rewrite Hset, decide_False; [lia|].
        apply Hfresh, list_elem_of_here.
      * intros r Hr. rewrite JsMap_set_keys.
        rewrite decide_False by (apply Hfresh, list_elem_of_here).
        intros [Hin| ->%list_elem_of_singleton]%elem_of_app; [|done].
        revert Hin. by apply Hfresh, list_elem_of_further.
Qed.

(** X3. [initRegionTracking] discards what was tracked and tracks exactly
    the listed regions, each at progress 0 with message ["Starting..."];
    the status is not touched. [totalRegions] is the length of the list,
    so it counts a region named twice twice, while the map holds it once:
    the number of tracked regions is at most [totalRegions], and equal to
    it when the names are distinct. *)
Theorem initRegionTracking_tracks (regions : list string) (t : Tracker) :
  (forall r,
     r ∈ regions ->
     JsMap.get r (regionProgress (initRegionTracking regions t))
     = Some {| Region.progress := 0; Region.message := "Starting..." |})
  /\ (forall r,
        r ∉ regions ->
        JsMap.get r (regionProgress (initRegionTracking regions t)) = None)
  /\ totalRegions (initRegionTracking regions t) = length regions
  /\ (JsMap.size (regionProgress (initRegionTracking regions t))
      <= totalRegions (initRegionTracking regions t))%nat
  /\ (NoDup regions ->
      JsMap.size (regionProgress (initRegionTracking regions t))
      = totalRegions (initRegionTracking regions t))
  /\ getScanStatus (initRegionTracking regions t) = getScanStatus t.
Proof.
  unfold initRegionTracking, getScanStatus. simpl.
  destruct (init_fold_keys regions
              {| Region.progress := 0; Region.message := "Starting..." |}
              JsMap.clear (NoDup_nil_2)) as (_ & Hsize & Hexact).
  split_and!; try done.
  - intros r Hr. rewrite init_fold_get. by rewrite decide_True.
  - intros r Hr. rewrite init_fold_get. by rewrite decide_False.
  - intros Hnd. rewrite Hexact; [reflexivity|exact Hnd|].
    intros r _ Hin. by apply elem_of_nil in Hin.
Qed.

(** X4. [updateRegionProgress] stores the report under the region's name
    and leaves the entries of all other regions and [totalRegions] as they
    were. A region that was not tracked is added by its first report, so
    the map can hold more regions than [totalRegions] says. *)
Theorem updateRegionProgress_lookup (region : string) (p : Z) (msg : string)
    (t : Tracker) :
  JsMap.get region (regionProgress (updateRegionProgress region p msg t))
  = Some {| Region.progress := p; Region.message := msg |}
  /\ (forall r,
        r <> region ->
        JsMap.get r (regionProgress (updateRegionProgress region p msg t))
        = JsMap.get r (regionProgress t))
  /\ totalRegions (updateRegionProgress region p msg t) = totalRegions t
  /\ (JsMap.get region (regionProgress t) = None ->
      JsMap.size (regionProgress (updateRegionProgress region p msg t))
      = S (JsMap.size (regionProgress t)))
  /\ (JsMap.get region (regionProgress t) <> None ->
      JsMap.size (regionProgress (updateRegionProgress region p msg t))
      = JsMap.size (regionProgress t)).
Proof.
  pose proof (updateRegionProgress_unfold region p msg t) as Hu.
  cbv zeta in Hu. destruct Hu as (Hmap & Htotal & _).
  rewrite Hmap, Htotal. split_and!.
  - apply JsMap_get_set_eq.
  - intros r Hr. apply JsMap_get_set_ne. congruence.
  - reflexivity.
  - intros Hnone%JsMap_get_None. rewrite JsMap_set_size.
    by rewrite decide_False.
  - intros Hsome. rewrite JsMap_set_size.
    rewrite decide_True; [reflexivity|].
    destruct (decide (region ∈ (regionProgress t).*1)) as [Hin|Hnot];
      [exact Hin|].
    by apply JsMap_get_None in Hnot.
Qed.

(** X5. A report puts the scan in progress; [resetScanStatus] ends that
    and restores the idle status, but it keeps the region map and the
    region count: the next report is aggregated with the regions tracked
    before the reset and gives the same progress and message as it would
    have given without it. *)
Theorem resetScanStatus_keeps_regions (region : string) (p : Z)
    (msg : string) (t : Tracker) :
  isScanInProgress (updateRegionProgress region p msg t) = true
  /\ isScanInProgress (resetScanStatus t) = false
  /\ getScanStatus (resetScanStatus t) = initialStatus
  /\ regionProgress (resetScanStatus t) = regionProgress t
  /\ totalRegions (resetScanStatus t) = totalRegions t
  /\ progress
       (getScanStatus (updateRegionProgress region p msg (resetScanStatus t)))
     = progress (getScanStatus (updateRegionProgress region p msg t))
  /\ message
       (getScanStatus (updateRegionProgress region p msg (resetScanStatus t)))
     = message (getScanStatus (updateRegionProgress region p msg t)).
Proof.
  pose proof (updateRegionProgress_unfold region p msg t) as Hu.
  pose proof (updateRegionProgress_unfold region p msg (resetScanStatus t))
    as Hr.
  cbv zeta in Hu, Hr.
  destruct Hu as (_ & _ & Hstatus), Hr as (_ & _ & Hstatus').
  unfold isScanInProgress. fold (getScanStatus (updateRegionProgress region p msg t)).
  rewrite Hstatus, Hstatus'. simpl. split_and!; reflexivity.
Qed.

(** ** The progress ranges *)

(** The values of a list are all present, start at [prev] or above, do not
    decrease, and end at [hi] or below. *)
Fixpoint rising (prev : Z) (l : list (option Z)) (hi : Z) : bool :=
  match l with
  | [] => prev <=? hi
  | Some x :: l' => (prev <=? x) && rising x l' hi
  | None :: _ => false
  end.

Lemma rising_bounds (prev hi : Z) (l : list (option Z)) :
  rising prev l hi = true -> prev <= hi.
Proof.
  revert prev. induction l as [|[x|] l IH]; intros prev; simpl.
  - apply Z.leb_le.
  - intros [Hx Hl]%andb_true_iff. apply Z.leb_le in Hx.
    specialize (IH _ Hl). lia.
  - discriminate.
Qed.

Lemma rising_lookup (prev hi : Z) (l : list (option Z)) (i j : nat) :
  rising prev l hi = true ->
  (i <= j)%nat -> (j < length l)%nat ->
  exists x y,
    l !! i = Some (Some x) /\ l !! j = Some (Some y)
    /\ prev <= x /\ x <= y /\ y <= hi.
Proof.
  revert prev i j. induction l as [|[z|] l IH]; intros prev i j; simpl;
    [lia| |discriminate].
  intros [Hz Hl]%andb_true_iff Hij Hj. apply Z.leb_le in Hz.
  pose proof (rising_bounds _ _ _ Hl) as Hhi.
  destruct j as [|j].
  - assert (i = 0%nat) as -> by lia. exists z, z. simpl.
    split_and!; try reflexivity; lia.
  - destruct i as [|i].
    + destruct (IH z j j Hl) as (x & y & _ & Hy & ? & ? & ?); [lia..|].
      exists z, y. simpl. split_and!; try done; lia.
    + destruct (IH z i j Hl) as (x & y & Hx & Hy & ? & ? & ?); [lia..|].
      exists x, y. simpl. split_and!; try done; lia.
Qed.

(** The progress values of a phase for the integer locals 0 to 100. *)
Definition phase_values (phase : PhaseKey.t) : list (option Z) :=
  (fun a => calculatePhaseProgress phase (number_of_Z a)) <$> seqZ 0 101.

Lemma phase_values_rising (phase : PhaseKey.t) :
  rising (range_start (PHASE_PROGRESS phase)) (phase_values phase)
    (range_end (PHASE_PROGRESS phase)) = true.
Proof. destruct phase; vm_compute; reflexivity. Qed.

Lemma lookup_values (f : Z -> option Z) (a : Z) :
  0 <= a <= 100 -> (f <$> seqZ 0 101) !! Z.to_nat a = Some (f a).
Proof.
  intros Ha. rewrite list_lookup_fmap.
  rewrite (proj2 (lookup_seqZ 0 101 (Z.to_nat a) a)); [reflexivity|lia].
Qed.

(** X6. For integer locals from 0 to 100 the progress of a phase starts at
    the start of its range, ends at its end, stays inside the range and
    does not decrease when the local progress grows; the five ranges tile
    0 to 100, so the progress does not go backwards from one phase to the
    next either. *)
Theorem calculatePhaseProgress_within_range (phase : PhaseKey.t) (a b : Z) :
  0 <= a <= b ->
  b <= 100 ->
  (exists x y,
     calculatePhaseProgress phase (number_of_Z a) = Some x
     /\ calculatePhaseProgress phase (number_of_Z b) = Some y
     /\ range_start (PHASE_PROGRESS phase) <= x
     /\ x <= y
     /\ y <= range_end (PHASE_PROGRESS phase))
  /\ calculatePhaseProgress phase (number_of_Z 0)
     = Some (range_start (PHASE_PROGRESS phase))
  /\ calculatePhaseProgress phase (number_of_Z 100)
     = Some (range_end (PHASE_PROGRESS phase))
  /\ range_start (PHASE_PROGRESS PhaseKey.fetching) = 0
  /\ range_end (PHASE_PROGRESS PhaseKey.fetching)
     = range_start (PHASE_PROGRESS PhaseKey.processing)
  /\ range_end (PHASE_PROGRESS PhaseKey.processing)
     = range_start (PHASE_PROGRESS PhaseKey.clustering)
  /\ range_end (PHASE_PROGRESS PhaseKey.clustering)
     = range_start (PHASE_PROGRESS PhaseKey.summarizing)
  /\ range_end (PHASE_PROGRESS PhaseKey.summarizing)
     = range_start (PHASE_PROGRESS PhaseKey.saving)
  /\ range_end (PHASE_PROGRESS PhaseKey.saving) = 100.
Proof.
  intros Ha Hb.
  split_and!;
    [ | destruct phase; vm_compute; reflexivity
      | destruct phase; vm_compute; reflexivity
      | reflexivity.. ].
  destruct (rising_lookup _ _ _ (Z.to_nat a) (Z.to_nat b)
              (phase_values_rising phase))
    as (x & y & Hx & Hy & Hbounds).
  { lia. }
  { unfold phase_values. rewrite length_fmap, length_seqZ. lia. }
  unfold phase_values in Hx, Hy.
  rewrite lookup_values in Hx, Hy by lia.
  injection Hx as Hx. injection Hy as Hy. by exists x, y.
Qed.

Lemma calculatePhaseProgress_within_range_example :
  exists x y,
    calculatePhaseProgress PhaseKey.summarizing (number_of_Z 29) = Some x
    /\ calculatePhaseProgress PhaseKey.summarizing (number_of_Z 57) = Some y
    /\ 70 <= x /\ x <= y /\ y <= 90.
Proof.
  assert (Ha : 0 <= 29 <= 57) by lia.
  assert (Hb : 57 <= 100) by lia.
  exact (proj1 (calculatePhaseProgress_within_range PhaseKey.summarizing
                  29 57 Ha Hb)).
Defined.

(** The substep after a substep of [fetch]. *)
Definition next_substep (s : Substep.t) : option Substep.t :=
  match s with
  | Substep.queryGen => Some Substep.serpSearch
  | Substep.serpSearch => Some Substep.mergeDedup
  | Substep.mergeDedup => Some Substep.urlSelect
  | Substep.urlSelect => Some Substep.scraping
  | Substep.scraping => Some Substep.extraction
  | Substep.extraction => None
  end.

(** The first and the last value a substep reports. *)
Definition substep_first (s : Substep.t) : Z :=
  default 0 (calcFetchProgress s (number_of_Z 0)).

Definition substep_last (s : Substep.t) : Z :=
  default 0 (calcFetchProgress s (number_of_Z 100)).

Definition substep_values (s : Substep.t) : list (option Z) :=
  (fun a => calcFetchProgress s (number_of_Z a)) <$> seqZ 0 101.

Lemma substep_values_rising (s : Substep.t) :
  rising (substep_first s) (substep_values s) (substep_last s) = true.
Proof. destruct s; vm_compute; reflexivity. Qed.

(** The values a pool callback reports after 0, 1, ..., [total]
    completions. *)
Definition completion_values (s : Substep.t) (total : nat)
  : list (option Z) :=
  (fun completed => calcFetchProgress s (percent completed total))
  <$> seq 0 (S total).

Definition completions_rising (s : Substep.t) : bool :=
  forallb
    (fun total =>
       rising (substep_first s) (completion_values s total) (substep_last s))
    (seq 1 100).

Lemma completions_rising_all (s : Substep.t) : completions_rising s = true.
Proof. destruct s; vm_compute; reflexivity. Qed.

(** X7. The progress the adapter reports for a region stays inside the
    fetching range 0 to 50: for integer step values from 0 to 100 every
    substep reports values between its first and its last one, in order;
    a substep ends where the next one starts, the first starts at 0 and
    the last ends at 50. The same holds for the steps [(completed / total)
    * 100] of the pool callbacks, for up to 100 items: each completion
    reports a value inside the substep's range and not below the one
    reported for the completion before. *)
Theorem calcFetchProgress_within_fetching (s : Substep.t) (a b : Z)
    (total completed : nat) :
  0 <= a <= b ->
  b <= 100 ->
  (1 <= completed <= total)%nat ->
  (total <= 100)%nat ->
  exists lo x y hi before after,
    calcFetchProgress s (number_of_Z 0) = Some lo
    /\ calcFetchProgress s (number_of_Z a) = Some x
    /\ calcFetchProgress s (number_of_Z b) = Some y
    /\ calcFetchProgress s (number_of_Z 100) = Some hi
    /\ calcFetchProgress s (percent (completed - 1) total) = Some before
    /\ calcFetchProgress s (percent completed total) = Some after
    /\ 0 <= lo /\ lo <= x /\ x <= y /\ y <= hi /\ hi <= 50
    /\ lo <= before /\ before <= after /\ after <= hi
    /\ (forall s', next_substep s = Some s' ->
                   calcFetchProgress s' (number_of_Z 0) = Some hi)
    /\ calcFetchProgress Substep.queryGen (number_of_Z 0) = Some 0
    /\ calcFetchProgress Substep.extraction (number_of_Z 100) = Some 50.
Proof.
  intros Ha Hb Hc Ht.
  assert (Hends : calcFetchProgress s (number_of_Z 0) = Some (substep_first s)
                  /\ calcFetchProgress s (number_of_Z 100)
                     = Some (substep_last s)
                  /\ 0 <= substep_first s /\ substep_last s <= 50)
    by (destruct s; vm_compute; split_and!; try reflexivity; discriminate).
  destruct Hends as (Hlo & Hhi & Hlo0 & Hhi50).
  destruct (rising_lookup _ _ _ (Z.to_nat a) (Z.to_nat b)
              (substep_values_rising s))
    as (x & y & Hx & Hy & Hbounds).
  { lia. }
  { unfold substep_values. rewrite length_fmap, length_seqZ. lia. }
  unfold substep_values in Hx, Hy.
  rewrite lookup_values in Hx, Hy by lia.
  injection Hx as Hx. injection Hy as Hy.
  pose proof (completions_rising_all s) as Hall.
  unfold completions_rising in Hall. rewrite forallb_forall in Hall.
  assert (Hin : In total (seq 1 100)) by (apply in_seq; lia).
  specialize (Hall total Hin).
  destruct (rising_lookup _ _ _ (completed - 1) completed Hall)
    as (u & v & Hu & Hv & Hbounds').
  { lia. }
  { unfold completion_values. rewrite length_fmap, length_seq. lia. }
  unfold completion_values in Hu, Hv.
  rewrite list_lookup_fmap in Hu, Hv.
  rewrite lookup_seq_lt in Hu, Hv by lia. simpl in Hu, Hv.
  injection Hu as Hu. injection Hv as Hv.
  exists (substep_first s), x, y, (substep_last s), u, v.
  split_and!;
    [ exact Hlo | exact Hx | exact Hy | exact Hhi | exact Hu | exact Hv
    | lia.. | | | ].
  - intros s' Hnext.
    destruct s; try discriminate; injection Hnext as <-;
      vm_compute; reflexivity.
  - vm_compute. reflexivity.
  - vm_compute. reflexivity.
Qed.

Lemma calcFetchProgress_within_fetching_example :
  exists lo x y hi before after,
    calcFetchProgress Substep.scraping (number_of_Z 0) = Some lo
    /\ calcFetchProgress Substep.scraping (number_of_Z 10) = Some x
    /\ calcFetchProgress Substep.scraping (number_of_Z 90) = Some y
    /\ calcFetchProgress Substep.scraping (number_of_Z 100) = Some hi
    /\ calcFetchProgress Substep.scraping (percent (3 - 1) 7) = Some before
    /\ calcFetchProgress Substep.scraping (percent 3 7) = Some after
    /\ 0 <= lo /\ lo <= x /\ x <= y /\ y <= hi /\ hi <= 50
    /\ lo <= before /\ before <= after /\ after <= hi.
Proof.
  assert (Ha : 0 <= 10 <= 90) by lia.
  assert (Hb : 90 <= 100) by lia.
  assert (Hc : (1 <= 3 <= 7)%nat) by lia.
  assert (Ht : (7 <= 100)%nat) by lia.
  destruct (calcFetchProgress_within_fetching Substep.scraping 10 90 7 3
              Ha Hb Hc Ht)
    as (lo & x & y & hi & u & v & H1 & H2 & H3 & H4 & H5 & H6 & H7 & H8 & H9
        & H10 & H11 & H12 & H13 & H14 & _).
  exists lo, x, y, hi, u, v. by split_and!.
Defined.

(** * Further properties of the search adapter *)

(** ** Pool runs whose outcomes do not depend on the state *)

Section PureOutcomes.
Context {Item Out State : Type}.
Variable worker : Item -> nat -> State -> Result Out * State.
Variable concurrency : nat.
Variable onError : option (Item -> nat -> JsError -> State -> State).
Variable outcome : Item -> nat -> Result Out.
Hypothesis worker_outcome : forall x i s, (worker x i s).1 = outcome x i.

(** The record of an invocation with the given outcome function. *)
Definition settled_as (ix : nat * Item) : nat * Item * Result Out :=
  (ix.1, ix.2, outcome ix.2 ix.1).

Lemma settled_pure (items : list Item) (schedule : list nat) (s : State) :
  settled (workerPoolCollect worker concurrency onError items schedule s)
  = settled_as
    <$> (settled
           (workerPoolCollect worker concurrency onError items schedule s)).*1.
Proof.
  apply (workerPoolCollect_invariant worker concurrency onError items schedule
           s (fun run => settled run = settled_as <$> (settled run).*1)).
  - reflexivity.
  - intros ix run _ Hrun.
    destruct (invoke_settled worker onError ix run) as (r & Hr & Hs & _).
    rewrite Hs, !fmap_app, <- Hrun. csimpl.
    rewrite Hr, worker_outcome. reflexivity.
Qed.

(** Every value the pool returns is the outcome of an item of the input,
    whatever the concurrency. *)
Lemma results_pure_elem (items : list Item) (schedule : list nat) (s : State)
    (o : Out) :
  o ∈ results (workerPoolCollect worker concurrency onError items schedule s) ->
  exists x i, x ∈ items /\ outcome x i = Ok o.
Proof.
  apply (workerPoolCollect_invariant worker concurrency onError items schedule
           s (fun run =>
                o ∈ results run -> exists x i, x ∈ items /\ outcome x i = Ok o)).
  - simpl. by intros ?%elem_of_nil.
  - intros ix run Hin Hrun.
    destruct (invoke_settled worker onError ix run) as (r & Hr & _ & Hres & _).
    rewrite Hres. intros [Ho|Ho]%elem_of_app; [by apply Hrun|].
    rewrite Hr, worker_outcome in Ho. unfold succeeded in Ho. simpl in Ho.
    destruct (outcome ix.2 ix.1) as [o'|e] eqn:Hout; simpl in Ho.
    + apply list_elem_of_singleton in Ho as ->. eauto.
    + by apply elem_of_nil in Ho.
Qed.

(** With at least one worker the pool returns, up to the order of
    completion, the values of the items whose outcome is a value, and
    fails for the others. *)
Lemma results_pure_Permutation (items : list Item) (schedule : list nat)
    (s : State) :
  (1 <= concurrency)%nat ->
  results (workerPoolCollect worker concurrency onError items schedule s)
  ≡ₚ succeeded (settled_as <$> indexed items)
  /\ failed
       (settled (workerPoolCollect worker concurrency onError items schedule s))
     ≡ₚ failed (settled_as <$> indexed items).
Proof.
  intros Hc.
  destruct (workerPoolCollect_settled worker concurrency onError items
              schedule s Hc) as (Hperm & _ & Hres & _).
  rewrite Hres, settled_pure. unfold succeeded, failed.
  split; by rewrite Hperm.
Qed.

End PureOutcomes.

(** ** Errors recorded by a pool run of the adapter *)

(** The worker leaves [errors] alone and the handler appends one error
    that stands in [R] to the failed call: then the errors appended by the
    run match the failed invocations one to one, in order. *)
Lemma pool_errors {Item Out : Type}
    (worker : Item -> nat -> St -> Result Out * St) (concurrency : nat)
    (handler : Item -> nat -> JsError -> St -> St)
    (R : NonFatalError.t -> Item * nat * JsError -> Prop)
    (items : list Item) (schedule : list nat) (st : St) :
  (forall x i s, errors (worker x i s).2 = errors s) ->
  (forall x i e s,
     exists err, errors (handler x i e s) = errors s ++ [err] /\ R err (x, i, e)) ->
  exists errs,
    errors
      (final (workerPoolCollect worker concurrency (Some handler) items
                schedule st))
    = errors st ++ errs
    /\ Forall2 R errs
         (failed
            (settled
               (workerPoolCollect worker concurrency (Some handler) items
                  schedule st))).
Proof.
  intros Hworker Hhandler.
  apply (workerPoolCollect_invariant worker concurrency (Some handler) items
           schedule st
           (fun run =>
              exists errs,
                errors (final run) = errors st ++ errs
                /\ Forall2 R errs (failed (settled run)))).
  - exists []. simpl. by rewrite app_nil_r.
  - intros ix run _ (errs & Herrs & Hrel). unfold invoke.
    specialize (Hworker ix.2 ix.1 (final run)).
    destruct (worker ix.2 ix.1 (final run)) as [[o|e] s1]; simpl in *.
    + exists errs. rewrite Hworker, failed_app. simpl.
      by rewrite app_nil_r.
    + destruct (Hhandler ix.2 ix.1 e s1) as (err & Herr & HR).
      exists (errs ++ [err]).
      rewrite Herr, Hworker, Herrs, <- app_assoc, failed_app.
      split; [reflexivity|]. apply Forall2_app; [exact Hrel|].
      destruct ix. by repeat constructor.
Qed.

(** ** Outcomes that do not depend on the index *)

Definition ok_value {A : Type} (r : Result A) : option A :=
  match r with
  | Ok a => Some a
  | Thrown _ => None
  end.

Definition thrown_error {A : Type} (r : Result A) : option JsError :=
  match r with
  | Ok _ => None
  | Thrown e => Some e
  end.

Lemma indexed_from {Item : Type} (items : list Item) (k : nat) :
  (imap (fun i x => ((k + i)%nat, x)) items).*2 = items.
Proof.
  revert k. induction items as [|x items IH]; intros k; csimpl;
    [reflexivity|].
  f_equal. rewrite <- (IH (S k)) at 2. f_equal. apply imap_ext.
  intros i y _. simpl. f_equal. lia.
Qed.

Lemma indexed_snd {Item : Type} (items : list Item) :
  (indexed items).*2 = items.
Proof. apply (indexed_from items 0). Qed.

Lemma succeeded_by_item {Item Out : Type} (outcome : Item -> Result Out)
    (items : list Item) :
  succeeded (settled_as (fun x _ => outcome x) <$> indexed items)
  = omap (fun x => ok_value (outcome x)) items.
Proof.
  rewrite <- (indexed_snd items) at 2.
  induction (indexed items) as [|[i x] l IH]; [reflexivity|].
  rewrite !fmap_cons. unfold succeeded in *. cbn [omap list_omap].
  rewrite IH. unfold settled_as. simpl. by destruct (outcome x).
Qed.

Lemma failed_by_item {Item Out C : Type} (outcome : Item -> Result Out)
    (describe : Item -> JsError -> C) (items : list Item) :
  (fun call : Item * nat * JsError => describe call.1.1 call.2)
  <$> failed (settled_as (fun x _ => outcome x) <$> indexed items)
  = omap (fun x => describe x <$> thrown_error (outcome x)) items.
Proof.
  rewrite <- (indexed_snd items) at 2.
  induction (indexed items) as [|[i x] l IH]; [reflexivity|].
  rewrite !fmap_cons. unfold failed in *. cbn [omap list_omap].
  rewrite <- IH. unfold settled_as. simpl. by destruct (outcome x).
Qed.

Lemma Forall2_fmap_eq {A B C : Type} (f : A -> C) (g : B -> C)
    (l : list A) (k : list B) :
  Forall2 (fun a b => f a = g b) l k -> f <$> l = g <$> k.
Proof. induction 1 as [|a b l k Hab _ IH]; csimpl; [reflexivity|]. by f_equal. Qed.

(** The source and the message of a recorded error. *)
Definition error_text (err : NonFatalError.t) : string * string :=
  (NonFatalError.source err, NonFatalError.message err).

(** ** Pool runs of which a view of the outcome does not depend on the state *)

Definition result_view {A B : Type} (view : A -> B) (r : Result A) : Result B :=
  match r with
  | Ok a => Ok (view a)
  | Thrown e => Thrown e
  end.

Lemma omap_omap {A B C : Type} (f : A -> option B) (g : B -> option C)
    (l : list A) :
  omap g (omap f l) = omap (fun x => f x ≫= g) l.
Proof.
  induction l as [|x l IH]; [reflexivity|]. cbn [omap list_omap].
  destruct (f x) as [y|]; cbn [omap list_omap mbind option_bind];
    by rewrite IH.
Qed.

Lemma omap_ext_Permutation {A B : Type} (f g : A -> option B) (l : list A) :
  (forall x, f x = g x) -> omap f l ≡ₚ omap g l.
Proof.
  intros Hfg. induction l as [|x l IH]; [reflexivity|].
  cbn [omap list_omap]. rewrite Hfg. destruct (g x); by rewrite IH.
Qed.

Lemma omap_indexed {A B : Type} (f : A -> option B) (items : list A) :
  omap (fun ix : nat * A => f ix.2) (indexed items) = omap f items.
Proof.
  rewrite <- (indexed_snd items) at 2.
  induction (indexed items) as [|[i x] l IH]; [reflexivity|].
  rewrite fmap_cons. cbn [omap list_omap snd]. by rewrite IH.
Qed.

Section ViewedOutcomes.
Context {Item Out B C State : Type}.
Variable worker : Item -> nat -> State -> Result Out * State.
Variable concurrency : nat.
Variable onError : option (Item -> nat -> JsError -> State -> State).
Variable view : Out -> B.
Variable outcome : Item -> Result B.
Variable describe : Item -> JsError -> C.
Hypothesis worker_view :
  forall x i s, result_view view (worker x i s).1 = outcome x.

(** With at least one worker the values the pool returns are, in the view
    and up to the order of completion, those of the items of the input
    whose outcome is a value, and its failed invocations are those of the
    other items. *)
Lemma results_viewed (items : list Item) (schedule : list nat) (s : State) :
  (1 <= concurrency)%nat ->
  view <$> results (workerPoolCollect worker concurrency onError items schedule s)
  ≡ₚ omap (fun x => ok_value (outcome x)) items
  /\ (fun call : Item * nat * JsError => describe call.1.1 call.2)
     <$> failed
           (settled (workerPoolCollect worker concurrency onError items schedule s))
     ≡ₚ omap (fun x => describe x <$> thrown_error (outcome x)) items.
Proof.
  intros Hc.
  destruct (workerPoolCollect_settled worker concurrency onError items
              schedule s Hc) as (Hperm & _ & _ & _).
  assert (Hinv :
    view <$> results (workerPoolCollect worker concurrency onError items schedule s)
    = omap (fun ix : nat * Item => ok_value (outcome ix.2))
        (settled (workerPoolCollect worker concurrency onError items schedule s)).*1
    /\ (fun call : Item * nat * JsError => describe call.1.1 call.2)
       <$> failed
             (settled
                (workerPoolCollect worker concurrency onError items schedule s))
       = omap (fun ix : nat * Item => describe ix.2 <$> thrown_error (outcome ix.2))
           (settled
              (workerPoolCollect worker concurrency onError items schedule s)).*1).
  { apply (workerPoolCollect_invariant worker concurrency onError items schedule
             s (fun run =>
                  view <$> results run
                  = omap (fun ix : nat * Item => ok_value (outcome ix.2))
                      (settled run).*1
                  /\ (fun call : Item * nat * JsError => describe call.1.1 call.2)
                     <$> failed (settled run)
                     = omap (fun ix : nat * Item =>
                               describe ix.2 <$> thrown_error (outcome ix.2))
                         (settled run).*1)).
    - by split.
    - intros [i x] run _ [Hres Hfail].
      destruct (invoke_settled worker onError (i, x) run)
        as (r & Hr & Hs & Hres' & _).
      rewrite Hs, Hres', failed_app, !fmap_app, !omap_app, Hres, Hfail.
      pose proof (worker_view x i (final run)) as Hview.
      simpl in Hr. rewrite <- Hr in Hview.
      unfold succeeded, failed. cbn [fmap list_fmap omap list_omap fst snd].
      rewrite <- Hview.
      destruct r as [o|e]; split; reflexivity. }
  destruct Hinv as [-> ->]. rewrite Hperm.
  rewrite (omap_indexed (fun x => ok_value (outcome x))).
  rewrite (omap_indexed (fun x => describe x <$> thrown_error (outcome x))).
  by split.
Qed.

End ViewedOutcomes.

(** ** Calls recorded by a pool run of the adapter *)

(** The worker records one call of the kind [obs] looks for, [tag] of its
    item, and the handler none: then the calls of that kind which the run
    records are, up to their order, those of the items of the input, one
    for each. *)
Lemma pool_calls {Item Out C : Type} (obs : Event -> option C) (tag : Item -> C)
    (worker : Item -> nat -> St -> Result Out * St) (concurrency : nat)
    (handler : Item -> nat -> JsError -> St -> St)
    (items : list Item) (schedule : list nat) (st : St) :
  (1 <= concurrency)%nat ->
  (forall x i s,
     omap obs (trace (world (worker x i s).2))
     = omap obs (trace (world s)) ++ [tag x]) ->
  (forall x i e s,
     omap obs (trace (world (handler x i e s))) = omap obs (trace (world s))) ->
  exists calls,
    omap obs
      (trace
         (world
            (final
               (workerPoolCollect worker concurrency (Some handler) items
                  schedule st))))
    = omap obs (trace (world st)) ++ calls
    /\ calls ≡ₚ tag <$> items.
Proof.
  intros Hc Hworker Hhandler.
  destruct (workerPoolCollect_settled worker concurrency (Some handler) items
              schedule st Hc) as (Hperm & _ & _ & _).
  exists ((fun ix : nat * Item => tag ix.2)
          <$> (settled
                 (workerPoolCollect worker concurrency (Some handler) items
                    schedule st)).*1).
  split.
  - apply (workerPoolCollect_invariant worker concurrency (Some handler) items
             schedule st
             (fun run =>
                omap obs (trace (world (final run)))
                = omap obs (trace (world st))
                  ++ ((fun ix : nat * Item => tag ix.2) <$> (settled run).*1))).
    + simpl. by rewrite app_nil_r.
    + intros ix run _ Hrun.
      destruct (invoke_settled worker (Some handler) ix run)
        as (r & _ & Hs & _).
      rewrite Hs, !fmap_app, app_assoc, <- Hrun. csimpl.
      unfold invoke. specialize (Hworker ix.2 ix.1 (final run)).
      destruct (worker ix.2 ix.1 (final run)) as [[o|e] s1]; simpl in *.
      * exact Hworker.
      * by rewrite Hhandler.
  - rewrite Hperm. rewrite <- (indexed_snd items) at 2.
    by rewrite <- list_fmap_compose.
Qed.

Section SearchAdapterStages.
Context {env : Collaborators}.
Variable this : SearchAdapter.

(** *** The search stage *)

(** What [serpSearch] gives for a query of the adapter. *)
Definition searchOutcome (q : SearchQuery.t) : Result (list SerpResult.t) :=
  serpSearch (SearchQuery.query q) (CountryConfig.code (countryConfig this))
    (SearchQuery.language q) 10.

(** The source and message recorded for a query whose search threw. *)
Definition search_failure (q : SearchQuery.t) (e : JsError) : string * string :=
  ("Search",
   "Query failed: " +:+ dquote +:+ SearchQuery.query q +:+ dquote +:+ " - "
   +:+ error_message e).

Lemma searchWorker_outcome (total : nat) (q : SearchQuery.t) (i : nat)
    (s : St) :
  (searchWorker this total q i s).1 = searchOutcome q
  /\ errors (searchWorker this total q i s).2 = errors s.
Proof.
  unfold searchWorker, searchOutcome.
  destruct (serpSearch _ _ _ _); by split.
Qed.


(** *** The scrape stage *)

(** The page the scrape worker builds from a scrape result. *)
Definition scrapedPage (urlInfo : UrlToScrape.t) (result : ScrapeResult.t)
  : ScrapedContent.t :=
  {| ScrapedContent.url := UrlToScrape.url urlInfo;
     ScrapedContent.content := ScrapeResult.content result;
     ScrapedContent.imageUrl := ScrapeResult.imageUrl result;
     ScrapedContent.title :=
       Some (opt_str_or (ScrapeResult.title result) (UrlToScrape.title urlInfo));
     ScrapedContent.category := UrlToScrape.category urlInfo |}.

(** How the scrape of a selected URL ends: with the error of the scrape,
    with the error of parsing the URL for its host name, or with the
    page. *)
Definition scrapeOutcome (urlInfo : UrlToScrape.t) : Result ScrapedContent.t :=
  match scrapeAsMarkdown (UrlToScrape.url urlInfo) with
  | Thrown e => Thrown e
  | Ok result =>
      match URL_hostname (UrlToScrape.url urlInfo) with
      | Thrown e => Thrown e
      | Ok _ => Ok (scrapedPage urlInfo result)
      end
  end.

Definition scrape_failure (urlInfo : UrlToScrape.t) (e : JsError)
  : string * string :=
  ("Scrape",
   "Failed to scrape: " +:+ UrlToScrape.url urlInfo +:+ " - "
   +:+ error_message e).

Lemma scrapeWorker_outcome (total : nat) (u : UrlToScrape.t) (i : nat)
    (s : St) :
  (scrapeWorker this total u i s).1 = scrapeOutcome u
  /\ errors (scrapeWorker this total u i s).2 = errors s.
Proof.
  unfold scrapeWorker, scrapeOutcome.
  destruct (scrapeAsMarkdown _); [|by split].
  destruct (URL_hostname _); by split.
Qed.

(** X9. Every page [scrapeUrls] returns belongs to a selected URL whose
    scrape succeeded: it has that URL, carries the category the URL was
    given and the scraped content, and its title is the scraped title or,
    when that is missing or empty, the title of the search result. The
    invocation for a URL the host parser rejects throws, so such a URL
    gives no page even when its scrape succeeded. With
    at least one worker the pages are, up to order, those of all selected
    URLs that end well, and every other selected URL leaves one error of
    source ["Scrape"] naming it. *)
Theorem scrapeUrls_passes_through (urls : list UrlToScrape.t)
    (schedule : list nat) (st : St) :
  (forall page,
     page ∈ (scrapeUrls this urls schedule st).1 ->
     exists urlInfo result,
       urlInfo ∈ urls
       /\ scrapeAsMarkdown (UrlToScrape.url urlInfo) = Ok result
       /\ page = scrapedPage urlInfo result
       /\ ScrapedContent.url page = UrlToScrape.url urlInfo
       /\ ScrapedContent.category page = UrlToScrape.category urlInfo)
  /\ (forall total urlInfo index s e,
        URL_hostname (UrlToScrape.url urlInfo) = Thrown e ->
        exists e', (scrapeWorker this total urlInfo index s).1 = Thrown e')
  /\ ((1 <= SEARCH_SETTINGS.maxConcurrentScrapes searchSettings)%nat ->
      (scrapeUrls this urls schedule st).1
      ≡ₚ omap (fun u => ok_value (scrapeOutcome u)) urls
      /\ exists errs,
           errors (scrapeUrls this urls schedule st).2 = errors st ++ errs
           /\ error_text <$> errs
              ≡ₚ omap
                   (fun u => scrape_failure u <$> thrown_error (scrapeOutcome u))
                   urls).
Proof.
  unfold scrapeUrls. cbv zeta.
  set (st0 := log_event _ (set_completed 0 st)).
  set (total := length urls).
  split_and!.
  - simpl. intros page Hpage.
    destruct (results_pure_elem (scrapeWorker this total)
                (SEARCH_SETTINGS.maxConcurrentScrapes searchSettings)
                (Some scrapeOnError) (fun u _ => scrapeOutcome u)
                (fun u i s => proj1 (scrapeWorker_outcome total u i s))
                urls schedule st0 page Hpage) as (u & _ & Hu & Hout).
    unfold scrapeOutcome in Hout.
    destruct (scrapeAsMarkdown (UrlToScrape.url u)) as [result|] eqn:Hscrape;
      [|discriminate].
    destruct (URL_hostname (UrlToScrape.url u)); [|discriminate].
    injection Hout as <-. exists u, result. by split_and!.
  - intros n u i s e He.
    rewrite (proj1 (scrapeWorker_outcome n u i s)). unfold scrapeOutcome.
    rewrite He. destruct (scrapeAsMarkdown _); eauto.
  - intros Hc.
    destruct (results_pure_Permutation (scrapeWorker this total)
                (SEARCH_SETTINGS.maxConcurrentScrapes searchSettings)
                (Some scrapeOnError) (fun u _ => scrapeOutcome u)
                (fun u i s => proj1 (scrapeWorker_outcome total u i s))
                urls schedule st0 Hc) as [Hres Hfail].
    destruct (pool_errors (scrapeWorker this total)
                (SEARCH_SETTINGS.maxConcurrentScrapes searchSettings)
                scrapeOnError
                (fun err call => error_text err = scrape_failure call.1.1 call.2)
                urls schedule st0
                (fun u i s => proj2 (scrapeWorker_outcome total u i s)))
      as (errs & Herrs & Hrel).
    { intros u i e s. eexists. split; reflexivity. }
    simpl. split.
    + rewrite Hres, succeeded_by_item. reflexivity.
    + exists errs. split; [exact Herrs|].
      rewrite (Forall2_fmap_eq _ _ _ _ Hrel), Hfail.
      by rewrite (failed_by_item scrapeOutcome scrape_failure).
Qed.

(** *** The stages of [fetch] together *)

(** The errors of a stage: its source tag on each, and one for every item
    that gave no result. *)
Lemma pool_counts {Item Out : Type}
    (worker : Item -> nat -> St -> Result Out * St) (concurrency : nat)
    (handler : Item -> nat -> JsError -> St -> St) (src : string)
    (items : list Item) (schedule : list nat) (st : St) :
  (1 <= concurrency)%nat ->
  (forall x i s, errors (worker x i s).2 = errors s) ->
  (forall x i e s,
     exists err,
       errors (handler x i e s) = errors s ++ [err]
       /\ NonFatalError.source err = src) ->
  exists errs,
    errors
      (final (workerPoolCollect worker concurrency (Some handler) items
                schedule st))
    = errors st ++ errs
    /\ Forall (fun err => NonFatalError.source err = src) errs
    /\ (length
          (results
             (workerPoolCollect worker concurrency (Some handler) items
                schedule st))
        + length errs)%nat
       = length items.
Proof.
  intros Hc Hworker Hhandler.
  destruct (pool_errors worker concurrency handler
              (fun err _ => NonFatalError.source err = src)
              items schedule st Hworker Hhandler) as (errs & Herrs & Hrel).
  destruct (workerPoolCollect_settled worker concurrency (Some handler) items
              schedule st Hc) as (Hperm & _ & Hres & _).
  exists errs. split_and!; [exact Herrs| |].
  - clear -Hrel. induction Hrel; constructor; done.
  - rewrite Hres, (Forall2_length _ _ _ Hrel), succeeded_failed_length.
    apply Permutation_length in Hperm.
    rewrite length_fmap in Hperm. unfold indexed in Hperm.
    by rewrite length_imap in Hperm.
Qed.

Lemma runSearches_counts (queries : list SearchQuery.t) (schedule : list nat)
    (st : St) :
  (1 <= SEARCH_SETTINGS.maxConcurrentSearches searchSettings)%nat ->
  exists errs,
    errors (runSearches this queries schedule st).2 = errors st ++ errs
    /\ Forall (fun err => NonFatalError.source err = "Search") errs
    /\ (length errs <= length queries)%nat.
Proof.
  intros Hc. unfold runSearches. cbv zeta.
  match goal with
  | |- context [workerPoolCollect ?w ?c (Some ?h) queries schedule ?s0] =>
      destruct (pool_counts w c h "Search" queries schedule s0 Hc)
        as (errs & Herrs & Hsrc & Hlen)
  end.
  - intros q i s. apply searchWorker_outcome.
  - intros q i e s. eexists. split; reflexivity.
  - exists errs. simpl. split_and!; [exact Herrs|exact Hsrc|lia].
Qed.

(** The candidates [fetch] hands to the selector: the merged results,
    deduplicated, without the URLs scraped recently at time [now]. *)
Definition candidates (directUrls : list DirectUrl.t)
    (serpResults : list SerpResult.t) (now : Date) : list SerpResult.t :=
  filterNew (getRecentlyScrapedUrls None now)
    (deduplicateResults (mergeResults directUrls serpResults)).

(** [fetch_collect] runs the searches, which scrape nothing, and ends with
    the error of the selector or with what [fetch_process] returns for the
    selection. *)
Lemma fetch_collect_outcome (queries : list SearchQuery.t)
    (directUrls : list DirectUrl.t) (schedules : Schedules) (st : St) :
  exists serpResults now st',
    grows (fun ev => ~ is_scrape ev) st st'
    /\ ((1 <= SEARCH_SETTINGS.maxConcurrentSearches searchSettings)%nat ->
        exists searchErrs,
          errors st' = errors st ++ searchErrs
          /\ Forall (fun err => NonFatalError.source err = "Search") searchErrs
          /\ (length searchErrs <= length queries)%nat)
    /\ fetch_collect this queries directUrls schedules st
       = match
           selectBestUrls (candidates directUrls serpResults now)
             (countryConfig this) (maxUrls this)
         with
         | Thrown e => (Thrown e, world st')
         | Ok selectedUrls => fetch_process this selectedUrls schedules st'
         end.
Proof.
  unfold fetch_collect, candidates, maxUrls. cbv zeta.
  match goal with
  | |- context [runSearches this queries ?o ?s0] =>
      pose proof (runSearches_grows this queries o s0) as (evs & Ht & Hevs);
      pose proof (runSearches_counts queries o s0) as Hcount;
      destruct (runSearches this queries o s0) as [serpResults st1]
  end.
  simpl in Ht, Hcount.
  exists serpResults.
  match goal with
  | |- context [getRecentlyScrapedUrls None ?t] => exists t
  end.
  match goal with
  | |- context [log_event (EvSelect ?c) ?s0] => exists (log_event (EvSelect c) s0)
  end.
  split_and!; [| exact Hcount | reflexivity].
  eexists. split.
  { simpl. rewrite Ht, <- !app_assoc. reflexivity. }
  apply Forall_app. split; [exact Hevs|].
  apply Forall_app. split; (constructor; [by intros []|constructor]).
Qed.

Lemma fetch_process_returns (selectedUrls : list UrlToScrape.t)
    (schedules : Schedules) (st : St) :
  exists result, (fetch_process this selectedUrls schedules st).1 = Ok result.
Proof.
  unfold fetch_process. cbv zeta.
  destruct (scrapeUrls this selectedUrls _ _) as [scrapedContent st1].
  destruct (extractAndNormalize this scrapedContent _ _) as [items st2].
  simpl. eauto.
Qed.

(** *** The errors of the search and scrape stages *)

Lemma runSearches_outcomes (queries : list SearchQuery.t)
    (schedule : list nat) (st : St) :
  (1 <= SEARCH_SETTINGS.maxConcurrentSearches searchSettings)%nat ->
  exists errs,
    errors (runSearches this queries schedule st).2 = errors st ++ errs
    /\ error_text <$> errs
       ≡ₚ omap (fun q => search_failure q <$> thrown_error (searchOutcome q))
            queries.
Proof.
  intros Hc. unfold runSearches. cbv zeta.
  set (st0 := log_event _ (set_completed 0 st)).
  set (total := length queries).
  destruct (results_viewed (searchWorker this total)
              (SEARCH_SETTINGS.maxConcurrentSearches searchSettings)
              (Some searchOnError) id searchOutcome search_failure)
    with (items := queries) (schedule := schedule) (s := st0)
    as [_ Hfail]; [|exact Hc|].
  { intros q i s. rewrite (proj1 (searchWorker_outcome total q i s)).
    by destruct (searchOutcome q). }
  destruct (pool_errors (searchWorker this total)
              (SEARCH_SETTINGS.maxConcurrentSearches searchSettings)
              searchOnError
              (fun err call => error_text err = search_failure call.1.1 call.2)
              queries schedule st0
              (fun q i s => proj2 (searchWorker_outcome total q i s)))
    as (errs & Herrs & Hrel).
  { intros q i e s. eexists. split; reflexivity. }
  exists errs. split; [exact Herrs|].
  by rewrite (Forall2_fmap_eq _ _ _ _ Hrel), Hfail.
Qed.

Lemma scrapeUrls_outcomes (urls : list UrlToScrape.t)
    (schedule : list nat) (st : St) :
  (1 <= SEARCH_SETTINGS.maxConcurrentScrapes searchSettings)%nat ->
  (scrapeUrls this urls schedule st).1
  ≡ₚ omap (fun u => ok_value (scrapeOutcome u)) urls
  /\ exists errs,
       errors (scrapeUrls this urls schedule st).2 = errors st ++ errs
       /\ error_text <$> errs
          ≡ₚ omap (fun u => scrape_failure u <$> thrown_error (scrapeOutcome u))
               urls.
Proof.
  intros Hc. unfold scrapeUrls. cbv zeta.
  set (st0 := log_event _ (set_completed 0 st)).
  set (total := length urls).
  destruct (results_viewed (scrapeWorker this total)
              (SEARCH_SETTINGS.maxConcurrentScrapes searchSettings)
              (Some scrapeOnError) id scrapeOutcome scrape_failure)
    with (items := urls) (schedule := schedule) (s := st0)
    as [Hres Hfail]; [|exact Hc|].
  { intros u i s. rewrite (proj1 (scrapeWorker_outcome total u i s)).
    by destruct (scrapeOutcome u). }
  destruct (pool_errors (scrapeWorker this total)
              (SEARCH_SETTINGS.maxConcurrentScrapes searchSettings)
              scrapeOnError
              (fun err call => error_text err = scrape_failure call.1.1 call.2)
              urls schedule st0
              (fun u i s => proj2 (scrapeWorker_outcome total u i s)))
    as (errs & Herrs & Hrel).
  { intros u i e s. eexists. split; reflexivity. }
  simpl. split.
  - by rewrite list_fmap_id in Hres.
  - exists errs. split; [exact Herrs|].
    by rewrite (Forall2_fmap_eq _ _ _ _ Hrel), Hfail.
Qed.

(** *** The extraction stage *)

(** The error [geocode] throws for the location of an extraction, when
    the worker calls it and it throws. *)
Definition geocodeFailure (extracted : Extracted.t) : option JsError :=
  match Extracted.location extracted with
  | None => None
  | Some name =>
      if decide (name = "") then None else thrown_error (geocode name)
  end.

(** How the extraction of a scraped page ends: with the error
    [extractContent] threw, with the error for a null extraction, with the
    error [geocode] threw, or with an item, of which this gives the url. *)
Definition extractOutcome (scraped : ScrapedContent.t) : Result string :=
  match extraction this scraped with
  | Thrown e => Thrown e
  | Ok None => Thrown {| error_message := "Extraction returned null" |}
  | Ok (Some extracted) =>
      match geocodeFailure extracted with
      | Some e => Thrown e
      | None =>
          Ok (opt_str_or (Extracted.articleUrl extracted)
                (ScrapedContent.url scraped))
      end
  end.

(** The source and message recorded for a page whose extraction failed. *)
Definition extract_failure (scraped : ScrapedContent.t) (e : JsError)
  : string * string :=
  ("Extract",
   "Failed to extract: " +:+ ScrapedContent.url scraped +:+ " - "
   +:+ error_message e).

(** The URL of a recorded call of [extractContent]. *)
Definition extract_call (ev : Event) : option string :=
  match ev with
  | EvExtract u => Some u
  | _ => None
  end.

Lemma geocodeLocation_outcome (extracted : Extracted.t) (st : St) :
  thrown_error (geocodeLocation this extracted st).1 = geocodeFailure extracted
  /\ omap extract_call (trace (world (geocodeLocation this extracted st).2))
     = omap extract_call (trace (world st)).
Proof.
  unfold geocodeLocation, geocodeFailure.
  destruct (Extracted.location extracted) as [name|]; [|done].
  case_decide; [done|].
  destruct (geocode name) as [[coords|]|e]; simpl;
    rewrite omap_app; simpl; by rewrite app_nil_r.
Qed.

Lemma extractWorker_outcome (total : nat) (scraped : ScrapedContent.t)
    (i : nat) (s : St) :
  result_view NormalizedItem.url (extractWorker this total scraped i s).1
  = extractOutcome scraped
  /\ omap extract_call (trace (world (extractWorker this total scraped i s).2))
     = omap extract_call (trace (world s)) ++ [ScrapedContent.url scraped].
Proof.
  unfold extractWorker, extractOutcome, extraction.
  destruct (extractContent _ _ _ _ _ _) as [[extracted|]|e]; simpl;
    [|by rewrite omap_app..].
  match goal with
  | |- context [geocodeLocation this extracted ?s0] =>
      destruct (geocodeLocation_outcome extracted s0) as [Hgeo Hcalls];
      destruct (geocodeLocation this extracted s0) as [[location|e] st']
  end; simpl in *; rewrite <- Hgeo, Hcalls, omap_app; by split.
Qed.

Lemma omap_outcome_length {A B C : Type} (outcome : A -> Result B)
    (describe : A -> JsError -> C) (l : list A) :
  (length (omap (fun x => ok_value (outcome x)) l)
   + length (omap (fun x => describe x <$> thrown_error (outcome x)) l))%nat
  = length l.
Proof.
  induction l as [|x l IH]; [reflexivity|]. cbn [omap list_omap].
  destruct (outcome x); simpl; lia.
Qed.

(** What [extractAndNormalize] leaves, page by page. *)
Lemma extractAndNormalize_outcomes (scrapedContent : list ScrapedContent.t)
    (schedule : list nat) (st : St) :
  (1 <= SEARCH_SETTINGS.maxConcurrentScrapes searchSettings)%nat ->
  NormalizedItem.url <$> (extractAndNormalize this scrapedContent schedule st).1
  ≡ₚ omap (fun page => ok_value (extractOutcome page)) scrapedContent
  /\ (exists errs,
        errors (extractAndNormalize this scrapedContent schedule st).2
        = errors st ++ errs
        /\ error_text <$> errs
           ≡ₚ omap (fun page =>
                      extract_failure page <$> thrown_error (extractOutcome page))
                scrapedContent)
  /\ exists evs,
       trace (world (extractAndNormalize this scrapedContent schedule st).2)
       = trace (world st) ++ evs
       /\ omap extract_call evs ≡ₚ ScrapedContent.url <$> scrapedContent.
Proof.
  intros Hc.
  destruct (extractAndNormalize_grows this scrapedContent schedule st)
    as (evs & Ht & _).
  revert Ht. unfold extractAndNormalize, extractRun. cbv zeta.
  set (st0 := log_event _ (set_completed 0 st)).
  set (total := length scrapedContent).
  intros Ht. simpl in Ht.
  destruct (results_viewed (extractWorker this total)
              (SEARCH_SETTINGS.maxConcurrentScrapes searchSettings)
              (Some extractOnError) NormalizedItem.url extractOutcome
              extract_failure
              (fun p i s => proj1 (extractWorker_outcome total p i s))
              scrapedContent schedule st0 Hc) as [Hres Hfail].
  destruct (pool_errors (extractWorker this total)
              (SEARCH_SETTINGS.maxConcurrentScrapes searchSettings)
              extractOnError
              (fun err call => error_text err = extract_failure call.1.1 call.2)
              scrapedContent schedule st0
              (fun p i s => proj1 (extractWorker_settles this total p i s)))
    as (errs & Herrs & Hrel).
  { intros p i e s. eexists. split; reflexivity. }
  destruct (pool_calls extract_call ScrapedContent.url
              (extractWorker this total)
              (SEARCH_SETTINGS.maxConcurrentScrapes searchSettings)
              extractOnError scrapedContent schedule st0 Hc
              (fun p i s => proj2 (extractWorker_outcome total p i s))
              (fun p i e s => eq_refl)) as (calls & Hcalls & Hperm).
  simpl. split_and!.
  - exact Hres.
  - exists errs. split; [exact Herrs|].
    by rewrite (Forall2_fmap_eq _ _ _ _ Hrel), Hfail.
  - exists evs. split; [exact Ht|].
    rewrite Ht in Hcalls. subst st0. simpl in Hcalls.
    rewrite !omap_app in Hcalls. simpl in Hcalls.
    rewrite app_nil_r in Hcalls. apply app_inv_head in Hcalls.
    by rewrite Hcalls.
Qed.

(** C7. In the extraction step, whatever the order in which invocations
    settle and with at least one worker: an invocation for a page whose
    extraction returned null or threw settles as a failure; [extractContent]
    is called once for every scraped page; every page whose invocation
    fails (its extraction returned null or threw, or geocoding threw)
    appends exactly one [NonFatalError] with source ["Extract"], naming the
    page and the error, behind the errors that were there, and gives no
    item; every other page gives one item, with the url the extraction
    determines. So the items and the errors added account for the pages
    one to one. *)
Theorem extractAndNormalize_failures
    (scrapedContent : list ScrapedContent.t) (schedule : list nat) (st : St) :
  (1 <= SEARCH_SETTINGS.maxConcurrentScrapes searchSettings)%nat ->
  let failure := fun page : ScrapedContent.t =>
    match extraction this page with
    | Thrown e => Some e
    | Ok None => Some {| error_message := "Extraction returned null" |}
    | Ok (Some extracted) => geocodeFailure extracted
    end in
  let items := (extractAndNormalize this scrapedContent schedule st).1 in
  let st' := (extractAndNormalize this scrapedContent schedule st).2 in
  (forall total page index s,
     match extraction this page with
     | Thrown e => (extractWorker this total page index s).1 = Thrown e
     | Ok None =>
         (extractWorker this total page index s).1
         = Thrown {| error_message := "Extraction returned null" |}
     | Ok (Some _) => True
     end)
  /\ (exists evs,
        trace (world st') = trace (world st) ++ evs
        /\ omap extract_call evs ≡ₚ ScrapedContent.url <$> scrapedContent)
  /\ (exists errs,
        errors st' = errors st ++ errs
        /\ error_text <$> errs
           ≡ₚ omap (fun page => extract_failure page <$> failure page)
                scrapedContent
        /\ (length items + length errs)%nat = length scrapedContent)
  /\ NormalizedItem.url <$> items
     ≡ₚ omap (fun page =>
                match failure page with
                | Some _ => None
                | None => ok_value (extractOutcome page)
                end) scrapedContent.
Proof.
  intros Hc failure items st'.
  assert (Hfailure : forall page,
            thrown_error (extractOutcome page) = failure page).
  { intros page. unfold extractOutcome, failure.
    destruct (extraction this page) as [[extracted|]|e]; try reflexivity.
    by destruct (geocodeFailure extracted). }
  destruct (extractAndNormalize_outcomes scrapedContent schedule st Hc)
    as (Hitems & (errs & Herrs & Htexts) & Hcalls).
  fold items in Hitems. fold st' in Herrs, Hcalls.
  split_and!.
  - intros total page index s.
    pose proof (proj2 (extractWorker_settles this total page index s)) as Hout.
    by destruct (extraction this page) as [[extracted|]|e].
  - exact Hcalls.
  - exists errs. split_and!; [exact Herrs| |].
    + rewrite Htexts. apply omap_ext_Permutation.
      intros page. by rewrite Hfailure.
    + rewrite <- (omap_outcome_length extractOutcome extract_failure
                    scrapedContent).
      rewrite <- Hitems, <- Htexts, !length_fmap. reflexivity.
  - rewrite Hitems. apply omap_ext_Permutation.
    intros page. rewrite <- Hfailure.
    by destruct (extractOutcome page).
Qed.

(** *** The run of [fetch] up to the selection *)

(** The state in which [fetch] starts the searches for the queries it
    generated. *)
Definition searching (w : World) (queries : list SearchQuery.t) : St :=
  let st := {| world := w; errors := []; completed := 0 |} in
  let st :=
    report this Substep.queryGen (number_of_Z 0) "Generating queries..." st in
  let st := log_event EvGenerate st in
  let st :=
    report this Substep.queryGen (number_of_Z 100)
      (pretty (length queries) +:+ " queries") st in
  report this Substep.serpSearch (number_of_Z 0)
    ("Searching (0/" +:+ pretty (length queries) +:+ ")...") st.

(** The search results of the run, and the state its searches leave. *)
Definition searched (w : World) (queries : list SearchQuery.t)
    (schedules : Schedules) : list SerpResult.t * St :=
  runSearches this queries (searchOrder schedules) (searching w queries).

(** The state in which [getRecentlyScrapedUrls] reads the clock. *)
Definition filtering (w : World) (queries : list SearchQuery.t)
    (schedules : Schedules) : St :=
  let serpResults := (searched w queries schedules).1 in
  let st := (searched w queries schedules).2 in
  let st :=
    report this Substep.serpSearch (number_of_Z 100)
      (pretty (length serpResults) +:+ " results") st in
  let st := report this Substep.mergeDedup (number_of_Z 0) "Merging URLs..." st in
  log_event EvRecentlyScraped st.

(** The candidates of the run: the direct URLs and the search results of
    the run, merged and deduplicated, without the URLs scraped recently at
    the time the run asks for them. *)
Definition fetch_candidates (w : World) (queries : list SearchQuery.t)
    (directUrls : list DirectUrl.t) (schedules : Schedules)
  : list SerpResult.t :=
  let serpResults := (searched w queries schedules).1 in
  let allResults := mergeResults directUrls serpResults in
  let uniqueResults := deduplicateResults allResults in
  let existingUrls :=
    getRecentlyScrapedUrls None (new_Date (filtering w queries schedules)) in
  filterNew existingUrls uniqueResults.

(** The state in which [selectBestUrls] is called. *)
Definition selecting (w : World) (queries : list SearchQuery.t)
    (directUrls : list DirectUrl.t) (schedules : Schedules) : St :=
  let newResults := fetch_candidates w queries directUrls schedules in
  let st :=
    report this Substep.mergeDedup (number_of_Z 100)
      (pretty (length newResults) +:+ " new URLs")
      (filtering w queries schedules) in
  let st := report this Substep.urlSelect (number_of_Z 0) "Selecting URLs..." st in
  log_event (EvSelect newResults) st.

(** [fetch], with the provider available and the queries generated, is
    the selection among these candidates and what follows it. *)
Lemma fetch_selection (since : Date) (schedules : Schedules) (w : World)
    (queries : list SearchQuery.t) (directUrls : list DirectUrl.t) :
  BrightDataStatus.available getBrightDataStatus = true ->
  generateSearchQueries (countryConfig this)
    (SearchSettings.maxQueries (settings this))
  = Ok (queries, directUrls) ->
  fetch this since schedules w
  = match
      selectBestUrls (fetch_candidates w queries directUrls schedules)
        (countryConfig this) (maxUrls this)
    with
    | Thrown e => (Thrown e, world (selecting w queries directUrls schedules))
    | Ok selectedUrls =>
        fetch_process this selectedUrls schedules
          (selecting w queries directUrls schedules)
    end.
Proof.
  intros Hup Hgen. unfold fetch. rewrite Hup, Hgen. cbv zeta. simpl negb.
  cbv iota.
  unfold fetch_collect, selecting, fetch_candidates, filtering, searched,
    searching, maxUrls.
  cbv zeta.
  destruct (runSearches this queries _ _) as [serpResults st1].
  reflexivity.
Qed.

Lemma trace_report (substep : Substep.t) (stepProgress : number)
    (message : string) (st : St) :
  trace (world (report this substep stepProgress message st))
  = trace (world st).
Proof. reflexivity. Qed.

Lemma errors_report (substep : Substep.t) (stepProgress : number)
    (message : string) (st : St) :
  errors (report this substep stepProgress message st) = errors st.
Proof. reflexivity. Qed.

Lemma trace_log_event (ev : Event) (st : St) :
  trace (world (log_event ev st)) = trace (world st) ++ [ev].
Proof. reflexivity. Qed.

Lemma errors_log_event (ev : Event) (st : St) :
  errors (log_event ev st) = errors st.
Proof. reflexivity. Qed.

Lemma searching_start (w : World) (queries : list SearchQuery.t) :
  trace (world (searching w queries)) = trace w ++ [EvGenerate]
  /\ errors (searching w queries) = [].
Proof. by split. Qed.

(** The calls recorded up to the selection: the generation of the queries,
    the calls of the searches, none of them a scrape, the query of the
    stored items, and the selection. *)
Lemma selecting_trace (w : World) (queries : list SearchQuery.t)
    (directUrls : list DirectUrl.t) (schedules : Schedules) :
  exists evs,
    trace (world (selecting w queries directUrls schedules))
    = trace w
      ++ (EvGenerate :: evs ++ [EvRecentlyScraped])
      ++ [EvSelect (fetch_candidates w queries directUrls schedules)]
    /\ Forall (fun ev => ~ is_scrape ev) (EvGenerate :: evs ++ [EvRecentlyScraped])
    /\ ((1 <= SEARCH_SETTINGS.maxConcurrentSearches searchSettings)%nat ->
        exists searchErrs,
          errors (selecting w queries directUrls schedules) = searchErrs
          /\ error_text <$> searchErrs
             ≡ₚ omap (fun q => search_failure q <$> thrown_error (searchOutcome q))
                  queries).
Proof.
  destruct (runSearches_grows this queries (searchOrder schedules)
              (searching w queries)) as (evs & Ht & Hevs).
  fold (searched w queries schedules) in Ht.
  exists evs. split_and!.
  - unfold selecting, filtering. cbv zeta.
    rewrite trace_log_event, !trace_report, trace_log_event, !trace_report.
    rewrite Ht, (proj1 (searching_start w queries)), <- !app_assoc.
    cbn [app]. by rewrite <- !app_assoc.
  - constructor; [by intros []|]. apply Forall_app. split; [exact Hevs|].
    constructor; [by intros []|constructor].
  - intros Hc.
    destruct (runSearches_outcomes queries (searchOrder schedules)
                (searching w queries) Hc) as (errs & Herrs & Htexts).
    fold (searched w queries schedules) in Herrs.
    exists errs. split; [|exact Htexts].
    unfold selecting, filtering. cbv zeta.
    rewrite errors_log_event, !errors_report, errors_log_event, !errors_report.
    by rewrite Herrs, (proj2 (searching_start w queries)).
Qed.

(** C6. The recency filter keeps exactly the deduplicated candidates whose
    canonical URL is not in the recently-scraped set, in their order. With
    the default window that set holds the canonical URLs of the stored
    items fetched since the cut-off [setDate] computes for 7 days before
    the call, which is 7 times 24 hours before it when the offset of local
    time is the same at both ends. In a run of [fetch] that gets its
    queries, the candidates handed to the selection step are the
    deduplicated results of that run without those whose canonical URL is
    in the set read at that point of the run; nothing is scraped before
    the selection, and after it only URLs the selector returns for these
    candidates are scraped. In any other run nothing is scraped. *)
Theorem recency_filter_precedes_scraping
    (since : Date) (schedules : Schedules) (w : World) :
  (forall existingUrls uniqueResults r,
     r ∈ filterNew existingUrls uniqueResults
     <-> r ∈ uniqueResults /\ canonical r ∉ existingUrls)
  /\ (forall existingUrls uniqueResults,
        sublist (filterNew existingUrls uniqueResults) uniqueResults)
  /\ (forall now u,
        u ∈ getRecentlyScrapedUrls None now
        <-> exists item,
              item ∈ historicalItems
              /\ daysBefore now 7 <= HistoricalItem.fetchedAt item
              /\ normalizeUrl (HistoricalItem.url item) = u)
  /\ (forall now,
        LocalTZA (LocalTime now - 7 * msPerDay) false = LocalTZA now true ->
        daysBefore now 7 = now - 7 * 86400000)
  /\ exists evs,
       trace (fetch this since schedules w).2 = trace w ++ evs
       /\ match
            BrightDataStatus.available getBrightDataStatus,
            generateSearchQueries (countryConfig this)
              (SearchSettings.maxQueries (settings this))
          with
          | true, Ok (queries, directUrls) =>
              let serpResults := (searched w queries schedules).1 in
              let now := new_Date (filtering w queries schedules) in
              let newResults := fetch_candidates w queries directUrls schedules in
              (forall r,
                 r ∈ newResults
                 <-> r ∈ deduplicateResults (mergeResults directUrls serpResults)
                     /\ canonical r ∉ getRecentlyScrapedUrls None now)
              /\ exists pre post,
                   evs = pre ++ EvSelect newResults :: post
                   /\ Forall (fun ev => ~ is_scrape ev) pre
                   /\ after_selection this newResults post
          | _, _ => Forall (fun ev => ~ is_scrape ev) evs
          end.
Proof.
  assert (Hfilter : forall existingUrls uniqueResults r,
            r ∈ filterNew existingUrls uniqueResults
            <-> r ∈ uniqueResults /\ canonical r ∉ existingUrls).
  { intros existingUrls uniqueResults r. unfold filterNew.
    rewrite list_elem_of_filter. unfold canonical. tauto. }
  split_and!.
  - exact Hfilter.
  - intros existingUrls uniqueResults. apply sublist_filter.
  - intros now u. unfold getRecentlyScrapedUrls, URL_DEDUP_DAYS.
    simpl. rewrite elem_of_list_to_set, list_elem_of_fmap.
    split.
    + intros (item & -> & [Hrecent Hin]%list_elem_of_filter). eauto.
    + intros (item & Hin & Hrecent & <-). exists item.
      split; [reflexivity|]. by apply list_elem_of_filter.
  - intros now Hsame. unfold daysBefore, UTC. rewrite Hsame.
    unfold LocalTime, msPerDay. lia.
  - destruct (BrightDataStatus.available getBrightDataStatus) eqn:Hup.
    + destruct (generateSearchQueries _ _) as [[queries directUrls]|e] eqn:Hgen.
      * rewrite (fetch_selection since schedules w queries directUrls Hup Hgen).
        destruct (selecting_trace w queries directUrls schedules)
          as (evs & Htrace & Hpre & _).
        cbv zeta. unfold after_selection.
        destruct (selectBestUrls _ _ _) as [selectedUrls|e].
        -- destruct (fetch_process_trace this selectedUrls schedules
                       (selecting w queries directUrls schedules))
             as (post & Hpost & Hscrapes).
           rewrite Hpost, Htrace, <- !app_assoc. eexists. split; [reflexivity|].
           split; [intros r; apply Hfilter|].
           exists (EvGenerate :: evs ++ [EvRecentlyScraped]), post.
           split_and!; [reflexivity|exact Hpre|exact Hscrapes].
        -- cbn [snd]. rewrite Htrace. eexists. split; [reflexivity|].
           split; [intros r; apply Hfilter|].
           exists (EvGenerate :: evs ++ [EvRecentlyScraped]), [].
           split_and!; [reflexivity|exact Hpre|reflexivity].
      * unfold fetch. rewrite Hup, Hgen. simpl.
        exists [EvGenerate]. split; [reflexivity|].
        constructor; [by intros []|constructor].
    + unfold fetch. rewrite Hup. simpl.
      exists []. rewrite app_nil_r. split; [reflexivity|]. constructor.
Qed.

(** *** The stages of [fetch] after the selection *)

(** How a selected URL ends: its scrape fails, or the extraction of its
    page fails, or it gives an item, of which this gives the url. *)
Inductive UrlOutcome :=
| ScrapeFailed (e : JsError)
| ExtractFailed (page : ScrapedContent.t) (e : JsError)
| ItemExtracted (url : string).

Definition urlOutcome (u : UrlToScrape.t) : UrlOutcome :=
  match scrapeOutcome u with
  | Thrown e => ScrapeFailed e
  | Ok page =>
      match extractOutcome page with
      | Thrown e => ExtractFailed page e
      | Ok url => ItemExtracted url
      end
  end.

Definition scrapeError (u : UrlToScrape.t) : option (string * string) :=
  match urlOutcome u with
  | ScrapeFailed e => Some (scrape_failure u e)
  | _ => None
  end.

Definition extractError (u : UrlToScrape.t) : option (string * string) :=
  match urlOutcome u with
  | ExtractFailed page e => Some (extract_failure page e)
  | _ => None
  end.

Definition itemUrl (u : UrlToScrape.t) : option string :=
  match urlOutcome u with
  | ItemExtracted url => Some url
  | _ => None
  end.

Lemma urlOutcome_length (urls : list UrlToScrape.t) :
  (length (omap itemUrl urls) + length (omap scrapeError urls)
   + length (omap extractError urls))%nat
  = length urls.
Proof.
  induction urls as [|u urls IH]; [reflexivity|]. cbn [omap list_omap].
  destruct (itemUrl u) eqn:Hi, (scrapeError u) eqn:Hs, (extractError u) eqn:He;
    unfold itemUrl, scrapeError, extractError in Hi, Hs, He;
    destruct (urlOutcome u); try discriminate; simpl; lia.
Qed.

(** What [fetch_process] returns for the selected URLs, URL by URL. *)
Lemma fetch_process_outcomes (selectedUrls : list UrlToScrape.t)
    (schedules : Schedules) (st : St) :
  (1 <= SEARCH_SETTINGS.maxConcurrentScrapes searchSettings)%nat ->
  exists result scrapeErrs extractErrs,
    (fetch_process this selectedUrls schedules st).1 = Ok result
    /\ FetchResult.errors result = errors st ++ scrapeErrs ++ extractErrs
    /\ error_text <$> scrapeErrs ≡ₚ omap scrapeError selectedUrls
    /\ error_text <$> extractErrs ≡ₚ omap extractError selectedUrls
    /\ NormalizedItem.url <$> FetchResult.items result
       ≡ₚ omap itemUrl selectedUrls
    /\ FetchResult.message result = None.
Proof.
  intros Hc. unfold fetch_process. cbv zeta.
  match goal with
  | |- context [scrapeUrls this selectedUrls ?o ?s0] =>
      destruct (scrapeUrls_outcomes selectedUrls o s0 Hc)
        as (Hpages & errs1 & Herrs1 & Htexts1);
      destruct (scrapeUrls this selectedUrls o s0) as [scrapedContent st1]
  end.
  match goal with
  | |- context [extractAndNormalize this scrapedContent ?o ?s0] =>
      destruct (extractAndNormalize_outcomes scrapedContent o s0 Hc)
        as (Hitems & (errs2 & Herrs2 & Htexts2) & _);
      destruct (extractAndNormalize this scrapedContent o s0) as [items st2]
  end.
  simpl in *. eexists _, errs1, errs2.
  split; [reflexivity|]. simpl.
  split_and!.
  - by rewrite Herrs2, Herrs1, <- app_assoc.
  - rewrite Htexts1. apply omap_ext_Permutation.
    intros u. unfold scrapeError, urlOutcome.
    destruct (scrapeOutcome u) as [page|e]; [|reflexivity].
    by destruct (extractOutcome page).
  - rewrite Htexts2, Hpages, omap_omap. apply omap_ext_Permutation.
    intros u. unfold extractError, urlOutcome.
    destruct (scrapeOutcome u) as [page|e]; [|reflexivity]. simpl.
    by destruct (extractOutcome page).
  - rewrite Hitems, Hpages, omap_omap. apply omap_ext_Permutation.
    intros u. unfold itemUrl, urlOutcome.
    destruct (scrapeOutcome u) as [page|e]; [|reflexivity]. simpl.
    by destruct (extractOutcome page).
  - reflexivity.
Qed.

(** X10. When the provider is available, both pools have at least one
    worker and [fetch] returns a result, the result accounts for the URLs
    the selector returned for the candidates of the run, URL by URL: a URL
    whose scrape fails leaves one error of source ["Scrape"] naming it, a
    URL whose page fails in the extraction leaves one error of source
    ["Extract"] naming it, and every other URL gives one item; nothing else
    is in the items or among those errors. The errors of the result are
    those of the searches, one for each query whose search threw, then
    those of the scrapes, then those of the extractions, and the result
    carries no message. *)
Theorem fetch_accounts_for_selection (since : Date) (schedules : Schedules)
    (w w' : World) (result : FetchResult.t) :
  BrightDataStatus.available getBrightDataStatus = true ->
  (1 <= SEARCH_SETTINGS.maxConcurrentSearches searchSettings)%nat ->
  (1 <= SEARCH_SETTINGS.maxConcurrentScrapes searchSettings)%nat ->
  fetch this since schedules w = (Ok result, w') ->
  exists queries directUrls selectedUrls searchErrs scrapeErrs extractErrs,
    generateSearchQueries (countryConfig this)
      (SearchSettings.maxQueries (settings this))
    = Ok (queries, directUrls)
    /\ selectBestUrls (fetch_candidates w queries directUrls schedules)
         (countryConfig this) (maxUrls this)
       = Ok selectedUrls
    /\ FetchResult.errors result = searchErrs ++ scrapeErrs ++ extractErrs
    /\ error_text <$> searchErrs
       ≡ₚ omap (fun q => search_failure q <$> thrown_error (searchOutcome q))
            queries
    /\ error_text <$> scrapeErrs ≡ₚ omap scrapeError selectedUrls
    /\ error_text <$> extractErrs ≡ₚ omap extractError selectedUrls
    /\ NormalizedItem.url <$> FetchResult.items result
       ≡ₚ omap itemUrl selectedUrls
    /\ (length (FetchResult.items result) + length scrapeErrs
        + length extractErrs)%nat
       = length selectedUrls
    /\ FetchResult.message result = None.
Proof.
  intros Hup Hc1 Hc2 Hrun.
  destruct (generateSearchQueries (countryConfig this)
              (SearchSettings.maxQueries (settings this)))
    as [[queries directUrls]|e] eqn:Hgen.
  2: { unfold fetch in Hrun. rewrite Hup, Hgen in Hrun. discriminate. }
  rewrite (fetch_selection since schedules w queries directUrls Hup Hgen)
    in Hrun.
  destruct (selectBestUrls _ _ _) as [selectedUrls|e] eqn:Hsel; [|discriminate].
  destruct (selecting_trace w queries directUrls schedules)
    as (_ & _ & _ & Hsearch).
  destruct (Hsearch Hc1) as (searchErrs & Herrs & Htexts).
  destruct (fetch_process_outcomes selectedUrls schedules
              (selecting w queries directUrls schedules) Hc2)
    as (r & scrapeErrs & extractErrs & Hr & Hrerrs & Hscrape & Hextract
        & Hitems & Hmsg).
  rewrite Hrun in Hr. simpl in Hr. injection Hr as <-.
  exists queries, directUrls, selectedUrls, searchErrs, scrapeErrs, extractErrs.
  split_and!; try done.
  - by rewrite Hrerrs, Herrs.
  - rewrite <- (urlOutcome_length selectedUrls).
    rewrite <- Hitems, <- Hscrape, <- Hextract, !length_fmap. reflexivity.
Qed.

(** X11. With the query of the stored items taken to succeed, as
    [getRecentlyScrapedUrls] is modelled, [fetch] throws only an error that
    [generateSearchQueries] or [selectBestUrls] threw, and then nothing was
    scraped. So a failing search, scrape, extraction or geocoding call
    never makes [fetch] throw: when the query generator and the selector
    return, [fetch] returns a result. *)
Theorem fetch_throws_only_from_planning (since : Date) (schedules : Schedules)
    (w w' : World) (e : JsError) :
  fetch this since schedules w = (Thrown e, w') ->
  (generateSearchQueries (countryConfig this)
     (SearchSettings.maxQueries (settings this))
   = Thrown e
   \/ exists directUrls serpResults now,
        selectBestUrls (candidates directUrls serpResults now)
          (countryConfig this) (maxUrls this)
        = Thrown e)
  /\ exists evs,
       trace w' = trace w ++ evs /\ Forall (fun ev => ~ is_scrape ev) evs.
Proof.
  unfold fetch.
  destruct (BrightDataStatus.available getBrightDataStatus); simpl;
    [|discriminate].
  destruct (generateSearchQueries _ _) as [[queries directUrls]|e0] eqn:Hgen.
  - match goal with
    | |- context [fetch_collect this queries directUrls schedules ?s0] =>
        destruct (fetch_collect_outcome queries directUrls schedules s0)
          as (serpResults & now & st' & (evs & Ht & Hevs) & _ & ->)
    end.
    simpl in Ht.
    destruct (selectBestUrls _ _ _) as [selectedUrls|e0] eqn:Hsel.
    + destruct (fetch_process_returns selectedUrls schedules st') as [r Hr].
      intros Hrun. rewrite Hrun in Hr. discriminate.
    + intros [= -> <-]. split; [right; eauto|].
      exists (EvGenerate :: evs). rewrite Ht, <- app_assoc.
      split; [reflexivity|]. constructor; [by intros []|exact Hevs].
  - intros [= -> <-]. split; [by left|].
    exists [EvGenerate]. split; [reflexivity|].
    constructor; [by intros []|constructor].
Qed.

Lemma JsMap_get_elem {V : Type} (k : string) (v : V) (m : JsMap.t V) :
  JsMap.get k m = Some v -> (k, v) ∈ m.
Proof.
  induction m as [|[k' v'] m IH]; simpl; [discriminate|].
  destruct (decide (k' = k)) as [->|Hne].
  - intros [= ->]. apply list_elem_of_here.
  - intros Hget. by apply list_elem_of_further, IH.
Qed.

(** What a report leaves in the tracker: the region's entry, the phase, and
    an overall progress that is no more than the reported one. *)
Lemma updateRegionProgress_entry (region : string) (p : Z) (msg : string)
    (t : Tracker) :
  JsMap.get region (regionProgress (updateRegionProgress region p msg t))
  = Some {| Region.progress := p; Region.message := msg |}
  /\ phase (getScanStatus (updateRegionProgress region p msg t))
     = ScanPhase.fetching
  /\ exists v,
       progress (getScanStatus (updateRegionProgress region p msg t)) = Some v
       /\ v <= p.
Proof.
  pose proof (updateRegionProgress_unfold region p msg t) as Hu.
  cbv zeta in Hu. destruct Hu as (Hmap & _ & Hstatus).
  rewrite Hstatus, Hmap. simpl. rewrite slowest_least.
  set (m := JsMap.set region _ (regionProgress t)).
  pose proof (JsMap_get_set_eq region
                {| Region.progress := p; Region.message := msg |}
                (regionProgress t)) as Hget.
  fold m in Hget. split_and!; [exact Hget|reflexivity|].
  exists (least_progress m). split; [reflexivity|].
  destruct (least_progress_le m) as [_ Hall].
  rewrite Forall_forall in Hall.
  apply (Hall _ (JsMap_get_elem _ _ _ Hget)).
Qed.

(** X12. When [fetch] has gone through its stages and returned a result,
    the region of the adapter stands at progress 50, the end of the
    fetching phase, with the message that counts the items of the result;
    the scan is in phase [fetching] and its overall progress is at most
    50. *)
Theorem fetch_finishes_region (since : Date) (schedules : Schedules)
    (w w' : World) (result : FetchResult.t) :
  BrightDataStatus.available getBrightDataStatus = true ->
  fetch this since schedules w = (Ok result, w') ->
  JsMap.get (CountryConfig.name (countryConfig this))
    (regionProgress (tracker w'))
  = Some {| Region.progress := 50;
            Region.message :=
              pretty (length (FetchResult.items result))
              +:+ " items extracted" |}
  /\ phase (getScanStatus (tracker w')) = ScanPhase.fetching
  /\ exists v, progress (getScanStatus (tracker w')) = Some v /\ v <= 50.
Proof.
  intros Hup. unfold fetch. rewrite Hup. cbv zeta. simpl negb. cbv iota.
  destruct (generateSearchQueries _ _) as [[queries directUrls]|e] eqn:Hgen;
    [|discriminate].
  match goal with
  | |- context [fetch_collect this queries directUrls schedules ?s0] =>
      destruct (fetch_collect_outcome queries directUrls schedules s0)
        as (serpResults & now & st' & _ & _ & ->)
  end.
  destruct (selectBestUrls _ _ _) as [selectedUrls|e] eqn:Hsel; [|discriminate].
  unfold fetch_process. cbv zeta.
  destruct (scrapeUrls this selectedUrls _ _) as [scrapedContent st1].
  destruct (extractAndNormalize this scrapedContent _ _) as [items st2].
  intros [= <- <-]. cbn [FetchResult.items].
  cbn [tracker]. unfold reportRegionProgress.
  match goal with
  | |- context [calcFetchProgress ?sub ?sp] =>
      assert (Hend : calcFetchProgress sub sp = Some 50)
        by (vm_compute; reflexivity)
  end.
  rewrite Hend. apply updateRegionProgress_entry.
Qed.

(** *** The items of the extraction stage *)

(** The location the worker attaches for an extraction: none, or the place
    the extraction named, at the coordinates [geocode] found for it. *)
Definition located (extracted : Extracted.t) (location : option Location.t)
  : Prop :=
  location = None
  \/ exists name coords,
       Extracted.location extracted = Some name
       /\ name <> ""
       /\ geocode name = Ok (Some coords)
       /\ location
          = Some {| Location.name := name;
                    Location.lat := Coords.lat coords;
                    Location.lng := Coords.lng coords;
                    Location.country :=
                      opt_str_or (Coords.country coords)
                        (CountryConfig.name (countryConfig this));
                    Location.region :=
                      CountryConfig.name (countryConfig this) |}.

Lemma geocodeLocation_located (extracted : Extracted.t) (st : St)
    (location : option Location.t) :
  (geocodeLocation this extracted st).1 = Ok location ->
  located extracted location.
Proof.
  unfold geocodeLocation, located.
  destruct (Extracted.location extracted) as [name|]; [|intros [= <-]; by left].
  case_decide as Hname; [intros [= <-]; by left|].
  destruct (geocode name) as [[coords|]|e] eqn:Hgeo; simpl;
    [|intros [= <-]; by left|discriminate].
  intros [= <-]. right. exists name, coords. by split_and!.
Qed.

Lemma extractWorker_item (total : nat) (scraped : ScrapedContent.t)
    (index : nat) (st : St) (item : NormalizedItem.t) :
  (extractWorker this total scraped index st).1 = Ok item ->
  exists extracted location now,
    extraction this scraped = Ok (Some extracted)
    /\ item = normalizedItem scraped extracted location now
    /\ located extracted location.
Proof.
  unfold extractWorker, extraction.
  destruct (extractContent _ _ _ _ _ _) as [[extracted|]|e]; simpl;
    [|discriminate..].
  match goal with
  | |- context [geocodeLocation this extracted ?s] =>
      pose proof (geocodeLocation_located extracted s) as Hloc;
      destruct (geocodeLocation this extracted s) as [[location|e] st']
  end; simpl in *; [|discriminate].
  intros [= <-]. eexists extracted, location, _.
  split_and!; [reflexivity|reflexivity|by apply Hloc].
Qed.

(** X13. Every item [extractAndNormalize] returns is built from one of the
    scraped pages it was given, from a non-null extraction of that page:
    its lens is [categoryToLens] of the extracted category, its source is
    ["events"] exactly for the category ["events"] and ["search"]
    otherwise, its creation date is the extracted publication date when
    there is one, and it has a location only when the extraction named a
    non-empty place for which [geocode] found coordinates; the location's
    region is then the country of the adapter. *)
Theorem extractAndNormalize_items (pages : list ScrapedContent.t)
    (schedule : list nat) (st : St) (item : NormalizedItem.t) :
  item ∈ (extractAndNormalize this pages schedule st).1 ->
  exists scraped extracted,
    scraped ∈ pages
    /\ extraction this scraped = Ok (Some extracted)
    /\ NormalizedItem.title item = Extracted.title extracted
    /\ NormalizedItem.text item = Extracted.summary extracted
    /\ NormalizedItem.lens item = categoryToLens (Extracted.category extracted)
    /\ (Extracted.category extracted = "events" ->
        NormalizedItem.source item = "events")
    /\ (Extracted.category extracted <> "events" ->
        NormalizedItem.source item = "search")
    /\ (forall published,
          Extracted.publishedAt extracted = Some published ->
          NormalizedItem.createdAt item = published)
    /\ located extracted (NormalizedItem.location item).
Proof.
  unfold extractAndNormalize, extractRun. cbv zeta. cbn [fst].
  set (P := fun it : NormalizedItem.t =>
    exists scraped extracted,
      scraped ∈ pages
      /\ extraction this scraped = Ok (Some extracted)
      /\ NormalizedItem.title it = Extracted.title extracted
      /\ NormalizedItem.text it = Extracted.summary extracted
      /\ NormalizedItem.lens it = categoryToLens (Extracted.category extracted)
      /\ (Extracted.category extracted = "events" ->
          NormalizedItem.source it = "events")
      /\ (Extracted.category extracted <> "events" ->
          NormalizedItem.source it = "search")
      /\ (forall published,
            Extracted.publishedAt extracted = Some published ->
            NormalizedItem.createdAt it = published)
      /\ located extracted (NormalizedItem.location it)).
  change (item ∈ results
            (workerPoolCollect (extractWorker this (length pages))
               (SEARCH_SETTINGS.maxConcurrentScrapes searchSettings)
               (Some extractOnError) pages schedule
               (log_event (EvPool ExtractStage (length pages))
                  (set_completed 0 st))) -> P item).
  revert item. apply Forall_forall.
  apply (workerPoolCollect_invariant _ _ _ _ _ _
           (fun run => Forall P (results run))).
  - constructor.
  - intros ix run Hin Hrun.
    destruct (invoke_settled (extractWorker this (length pages))
                (Some extractOnError) ix run) as (r & Hr & _ & Hres & _).
    rewrite Hres. apply Forall_app. split; [exact Hrun|].
    destruct r as [it|e]; [|constructor].
    unfold succeeded. simpl. constructor; [|constructor].
    symmetry in Hr.
    apply extractWorker_item in Hr
      as (extracted & location & now & Hex & -> & Hloc).
    exists ix.2, extracted. simpl.
    split_and!;
      [ exact Hin | exact Hex | reflexivity | reflexivity | reflexivity
      | intros Hcat; by rewrite decide_True
      | intros Hcat; by rewrite decide_False
      | by intros published ->
      | exact Hloc ].
Qed.

(** *** Deduplication and the recency filter *)

Lemma dedup_loop_seen (results : list SerpResult.t) (seen1 seen2 : gset string) :
  (forall r, r ∈ results -> canonical r ∈ seen1 <-> canonical r ∈ seen2) ->
  dedup_loop results seen1 [] = dedup_loop results seen2 [].
Proof.
  revert seen1 seen2.
  induction results as [|r rest IH]; intros seen1 seen2 Hsame; simpl;
    [reflexivity|].
  fold (canonical r).
  assert (Hrest : forall x, x ∈ rest -> canonical x ∈ seen1 <-> canonical x ∈ seen2)
    by (intros x Hx; apply Hsame; by apply list_elem_of_further).
  pose proof (Hsame r (list_elem_of_here _ _)) as Hr.
  destruct (decide (canonical r ∈ seen1)), (decide (canonical r ∈ seen2));
    try tauto.
  - by apply IH.
  - rewrite (dedup_loop_unique rest _ ([] ++ [r])).
    rewrite (dedup_loop_unique rest ({[canonical r]} ∪ seen2) ([] ++ [r])).
    f_equal. apply IH. intros x Hx. rewrite !elem_of_union.
    specialize (Hrest x Hx). tauto.
Qed.

Lemma dedup_loop_cons (r : SerpResult.t) (rest : list SerpResult.t)
    (seen : gset string) :
  dedup_loop (r :: rest) seen []
  = if decide (canonical r ∈ seen) then dedup_loop rest seen []
    else r :: dedup_loop rest ({[canonical r]} ∪ seen) [].
Proof.
  cbn [dedup_loop]. cbv zeta. fold (canonical r).
  case_decide; [reflexivity|].
  by rewrite (dedup_loop_unique rest _ ([] ++ [r])).
Qed.

Lemma dedup_loop_filter (existingUrls : gset string)
    (results : list SerpResult.t) (seen : gset string) :
  filterNew existingUrls (dedup_loop results seen [])
  = dedup_loop (filterNew existingUrls results) seen [].
Proof.
  unfold filterNew. revert seen.
  induction results as [|r rest IH]; intros seen; [reflexivity|].
  rewrite filter_cons, dedup_loop_cons. cbv zeta. fold (canonical r).
  destruct (decide (canonical r ∈ seen)) as [Hseen|Hseen];
    destruct (decide (canonical r ∉ existingUrls)) as [Hnew|Hold].
  - by rewrite dedup_loop_cons, decide_True, IH.
  - apply IH.
  - rewrite filter_cons, dedup_loop_cons. fold (canonical r).
    by rewrite decide_True, decide_False, IH.
  - rewrite filter_cons. fold (canonical r). rewrite decide_False by exact Hold.
    rewrite IH. apply dedup_loop_seen.
    intros x [Hx _]%list_elem_of_filter.
    rewrite elem_of_union, elem_of_singleton. split; [|tauto].
    intros [Heq|?]; [|done]. exfalso. apply Hold.
    rewrite <- Heq. exact Hx.
Qed.

Lemma insert_by_position_filter (P : SerpResult.t -> Prop)
    `{!forall r, Decision (P r)} (x : SerpResult.t) (l : list SerpResult.t) :
  StronglySorted by_position l ->
  filter P (insert_by_position x l)
  = if decide (P x) then insert_by_position x (filter P l) else filter P l.
Proof.
  induction 1 as [|y l Hsorted IH Hall]; simpl.
  - rewrite filter_cons. by case_decide.
  - destruct (Z.leb_spec (SerpResult.position x) (SerpResult.position y))
      as [Hle|Hgt].
    + rewrite !filter_cons.
      destruct (decide (P x)); [|reflexivity].
      destruct (decide (P y)); simpl.
      * apply Z.leb_le in Hle. by rewrite Hle.
      * assert (Hfront : forall l',
                   Forall (by_position x) l' ->
                   insert_by_position x l' = x :: l').
        { intros [|z l'] Hl'; [reflexivity|]. simpl.
          apply Forall_cons_1 in Hl' as [Hz _]. unfold by_position in Hz.
          apply Z.leb_le in Hz. by rewrite Hz. }
        rewrite Hfront; [reflexivity|].
        apply Forall_forall. intros z [_ Hz]%list_elem_of_filter.
        rewrite Forall_forall in Hall. specialize (Hall z Hz).
        unfold by_position in *. lia.
    + rewrite !filter_cons, IH.
      destruct (decide (P x)), (decide (P y)); try reflexivity.
      simpl. apply Z.leb_gt in Hgt. by rewrite Hgt.
Qed.

Lemma sort_by_position_filter (P : SerpResult.t -> Prop)
    `{!forall r, Decision (P r)} (l : list SerpResult.t) :
  filter P (sort_by_position l) = sort_by_position (filter P l).
Proof.
  induction l as [|x l IH]; [reflexivity|].
  change (sort_by_position (x :: l))
    with (insert_by_position x (sort_by_position l)).
  rewrite insert_by_position_filter by apply sort_by_position_sorted.
  rewrite filter_cons, IH. by case_decide.
Qed.

(** X14. The recency filter and the deduplication commute: removing the
    recently scraped URLs from the deduplicated, sorted results, as [fetch]
    does, gives the list that deduplicating and sorting the filtered
    results would give. *)
Theorem filterNew_deduplicateResults (existingUrls : gset string)
    (results : list SerpResult.t) :
  filterNew existingUrls (deduplicateResults results)
  = deduplicateResults (filterNew existingUrls results).
Proof.
  unfold deduplicateResults. cbv zeta.
  rewrite <- dedup_loop_filter. unfold filterNew.
  apply sort_by_position_filter.
Qed.

Lemma dedup_loop_distinct (results : list SerpResult.t) (seen : gset string) :
  NoDup (canonical <$> results) ->
  (forall r, r ∈ results -> canonical r ∉ seen) ->
  dedup_loop results seen [] = results.
Proof.
  revert seen. induction results as [|r rest IH]; intros seen Hnd Hnew;
    [reflexivity|].
  csimpl in Hnd. apply NoDup_cons in Hnd as [Hr Hnd].
  rewrite dedup_loop_cons.
  rewrite decide_False by apply Hnew, list_elem_of_here. f_equal.
  apply IH; [exact Hnd|].
  intros x Hx. rewrite elem_of_union, elem_of_singleton.
  intros [Heq|Hseen].
  - apply Hr. rewrite <- Heq. by apply list_elem_of_fmap_2.
  - by apply (Hnew x (list_elem_of_further _ _ _ Hx)).
Qed.

Lemma sort_by_position_sorted_id (l : list SerpResult.t) :
  StronglySorted by_position l -> sort_by_position l = l.
Proof.
  induction 1 as [|x l Hsorted IH Hall]; [reflexivity|].
  change (sort_by_position (x :: l))
    with (insert_by_position x (sort_by_position l)).
  rewrite IH. destruct l as [|y l]; [reflexivity|]. simpl.
  apply Forall_cons_1 in Hall as [Hy _]. unfold by_position in Hy.
  apply Z.leb_le in Hy. by rewrite Hy.
Qed.

(** X15. [deduplicateResults] is idempotent, and it leaves a list alone
    that is sorted by position and has no two results of the same
    canonical URL. *)
Theorem deduplicateResults_idempotent (results : list SerpResult.t) :
  deduplicateResults (deduplicateResults results) = deduplicateResults results
  /\ (forall l,
        StronglySorted by_position l -> NoDup (canonical <$> l) ->
        deduplicateResults l = l).
Proof.
  assert (Hid : forall l,
             StronglySorted by_position l -> NoDup (canonical <$> l) ->
             deduplicateResults l = l).
  { intros l Hsorted Hnd. unfold deduplicateResults. cbv zeta.
    rewrite dedup_loop_distinct; [by apply sort_by_position_sorted_id|exact Hnd|].
    intros r _. apply not_elem_of_empty. }
  split; [|exact Hid].
  apply Hid; unfold deduplicateResults; cbv zeta.
  - apply sort_by_position_sorted.
  - rewrite sort_by_position_Permutation.
    by destruct (dedup_loop_first results ∅) as (_ & Hnd & _).
Qed.

(** X16. The cut-off of [getRecentlyScrapedUrls] is the local time of the
    call moved back by the days of the window and read in the offset of
    that local time. Where the offsets of local times differ by a day at
    most, a longer look-back window holds every URL a shorter one holds,
    so the recency filter with the longer window keeps no result the
    shorter one drops. A stored item fetched exactly at the cut-off is
    inside the window, and with no stored items the filter keeps every
    result. *)
Theorem getRecentlyScrapedUrls_window (now : Date) :
  (forall d u,
     u ∈ getRecentlyScrapedUrls (Some d) now
     <-> exists item,
           item ∈ historicalItems
           /\ LocalTime now - d * 86400000
              - LocalTZA (LocalTime now - d * 86400000) false
              <= HistoricalItem.fetchedAt item
           /\ normalizeUrl (HistoricalItem.url item) = u)
  /\ (forall d1 d2,
        (forall t t', LocalTZA t false - LocalTZA t' false <= msPerDay) ->
        d1 <= d2 ->
        getRecentlyScrapedUrls (Some d1) now ⊆ getRecentlyScrapedUrls (Some d2) now
        /\ forall results r,
             r ∈ filterNew (getRecentlyScrapedUrls (Some d2) now) results ->
             r ∈ filterNew (getRecentlyScrapedUrls (Some d1) now) results)
  /\ (forall d item,
        item ∈ historicalItems ->
        HistoricalItem.fetchedAt item = daysBefore now d ->
        normalizeUrl (HistoricalItem.url item)
        ∈ getRecentlyScrapedUrls (Some d) now)
  /\ (historicalItems = [] ->
      forall d results,
        filterNew (getRecentlyScrapedUrls d now) results = results).
Proof.
  assert (Hin : forall d u,
             u ∈ getRecentlyScrapedUrls (Some d) now
             <-> exists item,
                   item ∈ historicalItems
                   /\ daysBefore now d <= HistoricalItem.fetchedAt item
                   /\ normalizeUrl (HistoricalItem.url item) = u).
  { intros d u. unfold getRecentlyScrapedUrls. simpl.
    rewrite elem_of_list_to_set, list_elem_of_fmap. split.
    - intros (item & -> & [Hrecent Hitem]%list_elem_of_filter). eauto.
    - intros (item & Hitem & Hrecent & <-). exists item.
      split; [reflexivity|]. by apply list_elem_of_filter. }
  split_and!.
  - exact Hin.
  - intros d1 d2 Hzone Hd.
    assert (Hsub : getRecentlyScrapedUrls (Some d1) now
                   ⊆ getRecentlyScrapedUrls (Some d2) now).
    { intros u (item & Hitem & Hrecent & Hu)%Hin. apply Hin.
      exists item. split_and!; [exact Hitem| |exact Hu].
      destruct (decide (d1 = d2)) as [->|Hne]; [exact Hrecent|].
      unfold daysBefore, UTC in *.
      pose proof (Hzone (LocalTime now - d1 * msPerDay)
                    (LocalTime now - d2 * msPerDay)) as Hspan.
      unfold msPerDay in *. nia. }
    split; [exact Hsub|].
    intros results r. unfold filterNew. rewrite !list_elem_of_filter.
    intros [Hnew Hr]. split; [|exact Hr]. intros Hold. by apply Hnew, Hsub.
  - intros d item Hitem Hat. apply Hin. exists item.
    split_and!; [exact Hitem|lia|reflexivity].
  - intros Hempty d results. unfold filterNew, getRecentlyScrapedUrls.
    rewrite Hempty. simpl.
    induction results as [|r results IH]; [reflexivity|].
    rewrite filter_cons, IH. rewrite decide_True; [reflexivity|].
    apply not_elem_of_empty.
Qed.

End SearchAdapterStages.

(** ** Runs with failing collaborators *)

(** The scenario of [demo] with a search that times out for the second
    query and a scrape that is refused for one URL. *)
Definition demo_flaky : Collaborators :=
  {| normalizeUrl := demo_normalizeUrl;
     generateId := fun s => "id:" +:+ s;
     getFaviconUrl := fun u => u +:+ "/favicon.ico";
     detectLanguage := fun _ => "en";
     URL_hostname := fun u => Ok u;
     getBrightDataStatus :=
       {| BrightDataStatus.available := true;
          BrightDataStatus.message := "ok" |};
     generateSearchQueries := fun _ _ =>
       Ok ([demo_query "q1" "news"; demo_query "q2" "tech"], [demo_direct]);
     serpSearch := fun q _ _ _ =>
       if decide (q = "q1")
       then Ok [demo_organic "https://news.example" 5;
                demo_organic "https://blog.example/a" 6;
                demo_organic "https://blog.example/b" 7]
       else Thrown {| error_message := "timeout" |};
     selectBestUrls := selectBestUrls (Collaborators := demo true);
     scrapeAsMarkdown := fun u =>
       if decide (u = "https://blog.example/a")
       then Thrown {| error_message := "403" |}
       else scrapeAsMarkdown (Collaborators := demo true) u;
     extractContent := extractContent (Collaborators := demo true);
     geocode := fun _ => Ok None;
     searchSettings := searchSettings (Collaborators := demo true);
     historicalItems := [];
     clock := fun calls => Z.of_nat (length calls);
     LocalTZA := fun _ _ => 0 |}.

(** The scenario of [demo] with a query generator that throws. *)
Definition demo_no_queries : Collaborators :=
  {| normalizeUrl := demo_normalizeUrl;
     generateId := fun s => "id:" +:+ s;
     getFaviconUrl := fun u => u +:+ "/favicon.ico";
     detectLanguage := fun _ => "en";
     URL_hostname := fun u => Ok u;
     getBrightDataStatus :=
       {| BrightDataStatus.available := true;
          BrightDataStatus.message := "ok" |};
     generateSearchQueries := fun _ _ =>
       Thrown {| error_message := "no model" |};
     serpSearch := serpSearch (Collaborators := demo true);
     selectBestUrls := selectBestUrls (Collaborators := demo true);
     scrapeAsMarkdown := scrapeAsMarkdown (Collaborators := demo true);
     extractContent := extractContent (Collaborators := demo true);
     geocode := fun _ => Ok None;
     searchSettings := searchSettings (Collaborators := demo true);
     historicalItems := [];
     clock := fun calls => Z.of_nat (length calls);
     LocalTZA := fun _ _ => 0 |}.

(** One search, one scrape and one extraction fail: one item is left, and
    the errors come in the order of the stages. *)
Example fetch_with_failures :
  match fetch (env := demo_flaky) demo_adapter 0 demo_schedules demo_world with
  | (Ok r, w) =>
      NormalizedItem.url <$> FetchResult.items r = ["https://news.example/"]
      /\ error_text <$> FetchResult.errors r
         = [("Search", "Query failed: " +:+ dquote +:+ "q2" +:+ dquote
                       +:+ " - timeout");
            ("Scrape", "Failed to scrape: https://blog.example/a - 403");
            ("Extract",
             "Failed to extract: https://blog.example/b - Extraction returned null")]
  | (Thrown _, _) => False
  end.
Proof. vm_compute. done. Qed.


Lemma extractAndNormalize_failures_example :
  exists errs,
    errors
      (extractAndNormalize (env := demo true) demo_adapter
         [demo_page "https://blog.example/a";
          demo_page "https://blog.example/b"] [] demo_st).2
    = errors demo_st ++ errs
    /\ error_text <$> errs
       ≡ₚ [("Extract",
            "Failed to extract: https://blog.example/b - Extraction returned null")]
    /\ NormalizedItem.url
       <$> (extractAndNormalize (env := demo true) demo_adapter
              [demo_page "https://blog.example/a";
               demo_page "https://blog.example/b"] [] demo_st).1
       ≡ₚ ["https://blog.example/a?full"].
Proof.
  assert (Hc : (1 <= SEARCH_SETTINGS.maxConcurrentScrapes
                       (searchSettings (Collaborators := demo true)))%nat)
    by (simpl; lia).
  destruct (extractAndNormalize_failures (env := demo true) demo_adapter
              [demo_page "https://blog.example/a";
               demo_page "https://blog.example/b"] [] demo_st Hc)
    as (_ & _ & (errs & Herrs & Htexts & _) & Hitems).
  exists errs. split_and!; [exact Herrs|exact Htexts|exact Hitems].
Defined.

Lemma fetch_accounts_for_selection_example :
  exists result w',
    fetch (env := demo_flaky) demo_adapter 0 demo_schedules demo_world
    = (Ok result, w')
    /\ exists selectedUrls searchErrs scrapeErrs extractErrs,
         selectBestUrls (Collaborators := demo_flaky)
           (fetch_candidates (env := demo_flaky) demo_adapter demo_world
              [demo_query "q1" "news"; demo_query "q2" "tech"] [demo_direct]
              demo_schedules)
           (countryConfig demo_adapter) (maxUrls (env := demo_flaky) demo_adapter)
         = Ok selectedUrls
         /\ FetchResult.errors result = searchErrs ++ scrapeErrs ++ extractErrs
         /\ error_text <$> scrapeErrs
            ≡ₚ omap (scrapeError (env := demo_flaky) demo_adapter) selectedUrls
         /\ error_text <$> extractErrs
            ≡ₚ omap (extractError (env := demo_flaky) demo_adapter) selectedUrls
         /\ NormalizedItem.url <$> FetchResult.items result
            ≡ₚ omap (itemUrl (env := demo_flaky) demo_adapter) selectedUrls.
Proof.
  destruct (fetch (env := demo_flaky) demo_adapter 0 demo_schedules demo_world)
    as [[result|e] w'] eqn:Hrun; [|by vm_compute in Hrun].
  assert (Hup : BrightDataStatus.available
                  (getBrightDataStatus (Collaborators := demo_flaky)) = true)
    by reflexivity.
  assert (Hc1 : (1 <= SEARCH_SETTINGS.maxConcurrentSearches
                        (searchSettings (Collaborators := demo_flaky)))%nat)
    by (simpl; lia).
  assert (Hc2 : (1 <= SEARCH_SETTINGS.maxConcurrentScrapes
                        (searchSettings (Collaborators := demo_flaky)))%nat)
    by (simpl; lia).
  destruct (fetch_accounts_for_selection (env := demo_flaky) demo_adapter 0
              demo_schedules demo_world w' result Hup Hc1 Hc2 Hrun)
    as (queries & directUrls & selectedUrls & searchErrs & scrapeErrs
        & extractErrs & Hgen & Hsel & Herrs & _ & Hscrape & Hextract & Hitems
        & _).
  injection Hgen as <- <-.
  exists result, w'. split; [reflexivity|].
  exists selectedUrls, searchErrs, scrapeErrs, extractErrs.
  split_and!; [exact Hsel|exact Herrs|exact Hscrape|exact Hextract|exact Hitems].
Defined.

Lemma fetch_throws_only_from_planning_example :
  exists w',
    fetch (env := demo_no_queries) demo_adapter 0 demo_schedules demo_world
    = (Thrown {| error_message := "no model" |}, w')
    /\ exists evs,
         trace w' = trace demo_world ++ evs
         /\ Forall (fun ev => ~ is_scrape ev) evs.
Proof.
  eexists. split; [reflexivity|].
  refine (proj2 (fetch_throws_only_from_planning (env := demo_no_queries)
                   demo_adapter 0 demo_schedules demo_world _ _ _)).
  reflexivity.
Defined.

Lemma fetch_finishes_region_example :
  exists result w',
    fetch (env := demo true) demo_adapter 0 demo_schedules demo_world
    = (Ok result, w')
    /\ JsMap.get "Israel" (regionProgress (tracker w'))
       = Some {| Region.progress := 50;
                 Region.message :=
                   pretty (length (FetchResult.items result))
                   +:+ " items extracted" |}.
Proof.
  destruct (fetch (env := demo true) demo_adapter 0 demo_schedules demo_world)
    as [[result|e] w'] eqn:Hrun; [|by vm_compute in Hrun].
  assert (Hup : BrightDataStatus.available
                  (getBrightDataStatus (Collaborators := demo true)) = true)
    by reflexivity.
  exists result, w'. split; [reflexivity|].
  exact (proj1 (fetch_finishes_region (env := demo true) demo_adapter 0
                  demo_schedules demo_world w' result Hup Hrun)).
Defined.

Lemma extractAndNormalize_items_example :
  exists item scraped extracted,
    item ∈ (extractAndNormalize (env := demo true) demo_adapter
              [demo_page "https://blog.example/a";
               demo_page "https://blog.example/b"] [] demo_st).1
    /\ scraped ∈ [demo_page "https://blog.example/a";
                  demo_page "https://blog.example/b"]
    /\ NormalizedItem.lens item = categoryToLens (Extracted.category extracted)
    /\ located (env := demo true) demo_adapter extracted
         (NormalizedItem.location item).
Proof.
  destruct (extractAndNormalize (env := demo true) demo_adapter
              [demo_page "https://blog.example/a";
               demo_page "https://blog.example/b"] [] demo_st).1
    as [|item rest] eqn:Hitems; [by vm_compute in Hitems|].
  assert (Hin : item ∈ item :: rest) by apply list_elem_of_here.
  rewrite <- Hitems in Hin.
  destruct (extractAndNormalize_items (env := demo true) demo_adapter _ _ _ _
              Hin)
    as (scraped & extracted & Hpage & _ & _ & _ & Hlens & _ & _ & _ & Hloc).
  exists item, scraped, extracted.
  split_and!; [by rewrite Hitems in Hin|exact Hpage|exact Hlens|exact Hloc].
Defined.

(** * history.ts: the stored history *)

(** ** Arrays *)

(** The index [Array.prototype.slice] and [String.prototype.slice] make of
    a relative position: a negative one counts from the end, and the
    result is clamped to the length. *)
Definition slice_index (len : nat) (i : Z) : nat :=
  if i <? 0 then Z.to_nat (Z.max (Z.of_nat len + i) 0)
  else Z.to_nat (Z.min i (Z.of_nat len)).

(** [array.slice(start, end)]; [array.slice(start)] for no [end]. *)
Definition Array_slice {A : Type} (start : Z) (stop : option Z) (l : list A)
  : list A :=
  let from := slice_index (length l) start in
  let to :=
    match stop with
    | Some e => slice_index (length l) e
    | None => length l
    end in
  take (to - from) (drop from l).

(** [array.sort((a, b) => key(a) - key(b))] for integer keys: the sort is
    stable. *)
Section SortBy.
Context {A : Type}.
Variable key : A -> Z.

Fixpoint insert_by (x : A) (l : list A) : list A :=
  match l with
  | [] => [x]
  | y :: l' => if key x <=? key y then x :: y :: l' else y :: insert_by x l'
  end.

Definition sort_by (l : list A) : list A := foldr insert_by [] l.

End SortBy.

(** ** The tables *)

(** A row of [historicalPulse], with its [topTopics] column parsed. *)
Module Topic.
Record t := { title : string; keywords : list string }.
End Topic.

Module PulseRow.
Record t := {
  timestamp : Date;
  tensionIndex : number;
  window : string;
  topTopics : list Topic.t
}.
End PulseRow.

(** The two tables [cleanupOldHistory] deletes from; of an item the time
    it was fetched and its URL, which is what the recency filter reads. *)
Record Tables := {
  historicalPulse : list PulseRow.t;
  historicalItem : list HistoricalItem.t
}.

(** [cleanupOldHistory(daysToKeep = 30)], called at time [now]: the two
    counts and the tables after the deletions. *)
Definition cleanupOldHistory {env : Collaborators} (daysToKeep : option Z)
    (now : Date) (db : Tables) : (nat * nat) * Tables :=
  let cutoff := daysBefore now (default 30 daysToKeep) in
  let oldPulses :=
    filter (fun p => PulseRow.timestamp p < cutoff) (historicalPulse db) in
  let oldItems :=
    filter (fun i => HistoricalItem.fetchedAt i < cutoff) (historicalItem db) in
  ((length oldPulses, length oldItems),
   {| historicalPulse :=
        filter (fun p => ~ PulseRow.timestamp p < cutoff) (historicalPulse db);
      historicalItem :=
        filter (fun i => ~ HistoricalItem.fetchedAt i < cutoff)
          (historicalItem db) |}).

(** The collaborators with the [historicalItem] table replaced. *)
Definition with_history (env : Collaborators) (items : list HistoricalItem.t)
  : Collaborators :=
  {| normalizeUrl := normalizeUrl;
     generateId := generateId;
     getFaviconUrl := getFaviconUrl;
     detectLanguage := detectLanguage;
     URL_hostname := URL_hostname;
     getBrightDataStatus := getBrightDataStatus;
     generateSearchQueries := generateSearchQueries;
     serpSearch := serpSearch;
     selectBestUrls := selectBestUrls;
     scrapeAsMarkdown := scrapeAsMarkdown;
     extractContent := extractContent;
     geocode := geocode;
     searchSettings := searchSettings;
     historicalItems := items;
     clock := clock;
     LocalTZA := LocalTZA |}.

Lemma filter_length_split {A : Type} (P : A -> Prop)
    `{!forall x, Decision (P x)} (l : list A) :
  (length (filter P l) + length (filter (fun x => ~ P x) l))%nat = length l.
Proof.
  induction l as [|x l IH]; [reflexivity|].
  rewrite !filter_cons. destruct (decide (P x)).
  - rewrite decide_False by tauto. simpl. lia.
  - rewrite decide_True by tauto. simpl. lia.
Qed.

Lemma filter_all {A : Type} (P : A -> Prop) `{!forall x, Decision (P x)}
    (l : list A) :
  Forall P l -> filter P l = l.
Proof.
  induction 1 as [|x l Hx _ IH]; [reflexivity|].
  by rewrite filter_cons, decide_True, IH.
Qed.

Lemma filter_none {A : Type} (P : A -> Prop) `{!forall x, Decision (P x)}
    (l : list A) :
  Forall (fun x => ~ P x) l -> filter P l = [].
Proof.
  induction 1 as [|x l Hx _ IH]; [reflexivity|].
  by rewrite filter_cons, decide_False, IH.
Qed.

(** X17. [cleanupOldHistory] reports the number of rows it deletes from
    each table, keeps exactly the rows at or after the cut-off in their
    order, and deletes nothing when it is run again at the same time. Let
    the offset of local time from UTC vary by [span] at most. Then a
    clean-up does not change what [getRecentlyScrapedUrls] answers then or
    later for a look-back window that is shorter than the time kept by
    twice [span]: with no change of the offset, for every window that is
    not longer than the days kept, and with the defaults, 30 days kept and
    7 days looked back, wherever the offset varies by less than eleven
    days. *)
Theorem cleanupOldHistory_keeps_recent (env : Collaborators)
    (daysToKeep : option Z) (now : Date) (db : Tables) :
  let cutoff := daysBefore now (default 30 daysToKeep) in
  let counts := (cleanupOldHistory daysToKeep now db).1 in
  let db' := (cleanupOldHistory daysToKeep now db).2 in
  (counts.1 + length (historicalPulse db'))%nat = length (historicalPulse db)
  /\ (counts.2 + length (historicalItem db'))%nat = length (historicalItem db)
  /\ (forall i,
        i ∈ historicalItem db'
        <-> i ∈ historicalItem db /\ cutoff <= HistoricalItem.fetchedAt i)
  /\ (forall p,
        p ∈ historicalPulse db'
        <-> p ∈ historicalPulse db /\ cutoff <= PulseRow.timestamp p)
  /\ sublist (historicalItem db') (historicalItem db)
  /\ cleanupOldHistory daysToKeep now db' = ((0%nat, 0%nat), db')
  /\ (forall span daysBack later,
        (forall t isUTC t' isUTC',
           LocalTZA t isUTC - LocalTZA t' isUTC' <= span) ->
        2 * span
        <= (default 30 daysToKeep - default URL_DEDUP_DAYS daysBack) * msPerDay ->
        now <= later ->
        getRecentlyScrapedUrls (env := with_history env (historicalItem db'))
          daysBack later
        = getRecentlyScrapedUrls (env := with_history env (historicalItem db))
            daysBack later).
Proof.
  intros cutoff counts db'.
  assert (Hitems : Forall (fun i => ~ HistoricalItem.fetchedAt i < cutoff)
                     (historicalItem db')).
  { apply Forall_forall. by intros i [Hi _]%list_elem_of_filter. }
  assert (Hpulses : Forall (fun p => ~ PulseRow.timestamp p < cutoff)
                      (historicalPulse db')).
  { apply Forall_forall. by intros p [Hp _]%list_elem_of_filter. }
  split_and!.
  - apply filter_length_split.
  - apply filter_length_split.
  - intros i. unfold db', cleanupOldHistory. cbn [snd historicalItem].
    rewrite list_elem_of_filter. fold cutoff. split; intros [? ?]; split;
      [done|lia|lia|done].
  - intros p. unfold db', cleanupOldHistory. cbn [snd historicalPulse].
    rewrite list_elem_of_filter. fold cutoff. split; intros [? ?]; split;
      [done|lia|lia|done].
  - apply sublist_filter.
  - unfold cleanupOldHistory at 1. fold cutoff. cbv zeta.
    rewrite (filter_none _ _ Hitems), (filter_none _ _ Hpulses).
    rewrite (filter_all _ _ Hitems), (filter_all _ _ Hpulses).
    by destruct db'.
  - intros span daysBack later Hzone Hd Hlater. unfold getRecentlyScrapedUrls.
    cbn [historicalItems with_history normalizeUrl]. do 2 f_equal.
    unfold db', cleanupOldHistory. cbn [snd historicalItem]. fold cutoff.
    rewrite list_filter_filter. apply list_filter_iff.
    intros i. split; [tauto|]. intros Hrecent. split; [exact Hrecent|].
    revert Hrecent. unfold cutoff, daysBefore, UTC, LocalTime.
    cbn [LocalTZA with_history].
    set (K := default 30 daysToKeep) in *.
    set (B := default URL_DEDUP_DAYS daysBack) in *.
    pose proof (Hzone (later + LocalTZA later true - B * msPerDay) false
                  (now + LocalTZA now true - K * msPerDay) false) as H1.
    pose proof (Hzone now true later true) as H2.
    unfold msPerDay in *. lia.
Qed.

(** A time zone with one change of the offset: five hours behind UTC until
    2026-03-08T07:00Z and four hours behind from then on, as in New York;
    a local time that the change skips is read in the offset before it. *)
Definition dst_start : Date := 1772953200000.

Definition demo_zone (t : Z) (isUTC : bool) : Z :=
  if isUTC
  then (if decide (t < dst_start) then -18000000 else -14400000)
  else (if decide (t < dst_start - 14400000) then -18000000 else -14400000).

(** The collaborators with the time zone replaced. *)
Definition with_zone (env : Collaborators) (zone : Date -> bool -> Z)
  : Collaborators :=
  {| normalizeUrl := normalizeUrl;
     generateId := generateId;
     getFaviconUrl := getFaviconUrl;
     detectLanguage := detectLanguage;
     URL_hostname := URL_hostname;
     getBrightDataStatus := getBrightDataStatus;
     generateSearchQueries := generateSearchQueries;
     serpSearch := serpSearch;
     selectBestUrls := selectBestUrls;
     scrapeAsMarkdown := scrapeAsMarkdown;
     extractContent := extractContent;
     geocode := geocode;
     searchSettings := searchSettings;
     historicalItems := historicalItems;
     clock := clock;
     LocalTZA := zone |}.

(** An item fetched at 07:10Z on the day of the change. *)
Definition demo_stored_item : HistoricalItem.t :=
  {| HistoricalItem.url := "https://blog.example/a";
     HistoricalItem.fetchedAt := dst_start + 600000 |}.

(** In that zone the cut-off is not seven times 24 hours before the call,
    and it goes back when the call is half an hour later: a week after the
    change, a clean-up at 06:30Z that keeps 7 days has the cut-off 07:30Z
    and deletes the item, which a look-back of 7 days at 07:00Z, with the
    cut-off 07:00Z, still holds. With equal windows a clean-up can so make
    the adapter scrape a URL again. *)
Example cleanupOldHistory_across_dst (env : Collaborators) :
  let zoned := with_zone env demo_zone in
  let now := dst_start + 7 * 86400000 - 1800000 in
  let later := dst_start + 7 * 86400000 in
  let db := {| historicalPulse := []; historicalItem := [demo_stored_item] |} in
  daysBefore (env := zoned) now 7 = dst_start + 1800000
  /\ daysBefore (env := zoned) later 7 = dst_start
  /\ cleanupOldHistory (env := zoned) (Some 7) now db
     = ((0%nat, 1%nat), {| historicalPulse := []; historicalItem := [] |})
  /\ normalizeUrl "https://blog.example/a"
     ∈ getRecentlyScrapedUrls (env := with_history zoned [demo_stored_item])
         (Some 7) later
  /\ getRecentlyScrapedUrls (env := with_history zoned []) (Some 7) later = ∅.
Proof.
  intros zoned now later db.
  assert (H1 : daysBefore (env := zoned) now 7 = dst_start + 1800000)
    by reflexivity.
  assert (H2 : daysBefore (env := zoned) later 7 = dst_start) by reflexivity.
  split_and!.
  - exact H1.
  - exact H2.
  - vm_compute. reflexivity.
  - unfold getRecentlyScrapedUrls.
    apply elem_of_list_to_set, list_elem_of_fmap.
    exists demo_stored_item. split; [reflexivity|].
    apply list_elem_of_filter. split; [by vm_compute|apply list_elem_of_here].
  - reflexivity.
Qed.

Lemma demo_zone_span (t t' : Z) (isUTC isUTC' : bool) :
  demo_zone t isUTC - demo_zone t' isUTC' <= 3600000.
Proof.
  unfold demo_zone. destruct isUTC, isUTC'; repeat case_decide; lia.
Qed.

(** In the zone with the change of offset: a look-back of 8 days holds what
    one of 7 days holds, and a clean-up with the default 30 days leaves the
    default look-back of 7 days as it was. *)
Lemma getRecentlyScrapedUrls_window_example :
  getRecentlyScrapedUrls
    (env := with_history (with_zone (demo true) demo_zone) [demo_stored_item])
    (Some 7) (dst_start + 7 * 86400000)
  ⊆ getRecentlyScrapedUrls
      (env := with_history (with_zone (demo true) demo_zone) [demo_stored_item])
      (Some 8) (dst_start + 7 * 86400000).
Proof.
  assert (Hd : 7 <= 8) by lia.
  apply (proj1 (proj2 (getRecentlyScrapedUrls_window
                         (env := with_history (with_zone (demo true) demo_zone)
                                   [demo_stored_item])
                         (dst_start + 7 * 86400000)))
           7 8); [|exact Hd].
  intros t t'.
  pose proof (demo_zone_span t t' false false) as Hspan.
  unfold msPerDay. cbn [LocalTZA with_history with_zone]. lia.
Defined.

Lemma cleanupOldHistory_keeps_recent_example :
  getRecentlyScrapedUrls
    (env := with_history (with_zone (demo true) demo_zone)
              (historicalItem
                 (cleanupOldHistory (env := with_zone (demo true) demo_zone)
                    None (dst_start + 7 * 86400000 - 1800000)
                    {| historicalPulse := [];
                       historicalItem := [demo_stored_item] |}).2))
    None (dst_start + 7 * 86400000)
  = getRecentlyScrapedUrls
      (env := with_history (with_zone (demo true) demo_zone) [demo_stored_item])
      None (dst_start + 7 * 86400000).
Proof.
  assert (Hlater : dst_start + 7 * 86400000 - 1800000
                   <= dst_start + 7 * 86400000) by lia.
  assert (Hspan : 2 * 3600000 <= (30 - 7) * msPerDay) by (unfold msPerDay; lia).
  apply (proj2 (proj2 (proj2 (proj2 (proj2 (proj2
           (cleanupOldHistory_keeps_recent (with_zone (demo true) demo_zone)
              None (dst_start + 7 * 86400000 - 1800000)
              {| historicalPulse := [];
                 historicalItem := [demo_stored_item] |}))))))
           3600000 None (dst_start + 7 * 86400000));
    [|exact Hspan|exact Hlater].
  intros t isUTC t' isUTC'. apply demo_zone_span.
Defined.

(** ** The mood trend *)

(** [Math.round] as a number: the integer nearest to a finite number,
    halves rounded up, with the sign of the argument kept on a zero
    result; NaN, the infinities and the numbers from [2 ^ 52] on, which
    are integers, are returned as they are. *)
Definition Math_round_number (x : number) : number :=
  if PrimFloat.leb (number_of_Z (2 ^ 52)) (PrimFloat.abs x) then x
  else
    match Math_round x with
    | Some 0 =>
        if PrimFloat.get_sign x then PrimFloat.neg_zero else PrimFloat.zero
    | Some z => number_of_Z z
    | None => x
    end.

(** A [Map<number, V>] with integer keys, in insertion order. *)
Module NumMap.
Section WithValue.
Context {V : Type}.

Definition t := list (Z * V).

Fixpoint set (k : Z) (v : V) (m : t) : t :=
  match m with
  | [] => [(k, v)]
  | (k', v') :: m' =>
      if decide (k' = k) then (k, v) :: m' else (k', v') :: set k v m'
  end.

Fixpoint get (k : Z) (m : t) : option V :=
  match m with
  | [] => None
  | (k', v') :: m' => if decide (k' = k) then Some v' else get k m'
  end.

End WithValue.
Arguments t : clear implicits.
End NumMap.

Module TensionTrend.
Record t := { timestamp : Date; tensionIndex : number; window : string }.
End TensionTrend.

(** The columns of a [historicalItem] row the trend reads. *)
Module MoodRow.
Record t := { createdAt : Date; moodScore : option number }.
End MoodRow.

Module Bucket.
Record t := { total : number; count : Z }.
End Bucket.

(** The bucket size for a time range. *)
Definition bucketMs (hours : Z) : Z :=
  if hours <=? 24 then 60 * 60 * 1000
  else if hours <=? 168 then 4 * 60 * 60 * 1000
  else 24 * 60 * 60 * 1000.

(** [Math.floor(time / bucketMs) * bucketMs] on integer time stamps; for
    the three bucket sizes the quotient of binary64 has the floor of the
    exact quotient for every time a [Date] can hold. *)
Definition bucketTime (size : Z) (time : Date) : Z := time / size * size.

(** The body of the grouping loop, for an item and its mood score. *)
Definition add_to_bucket (size : Z) (buckets : NumMap.t Bucket.t)
    (item : Date * number) : NumMap.t Bucket.t :=
  let key := bucketTime size item.1 in
  let existing :=
    default {| Bucket.total := PrimFloat.zero; Bucket.count := 0 |}
      (NumMap.get key buckets) in
  NumMap.set key
    {| Bucket.total := PrimFloat.add (Bucket.total existing) item.2;
       Bucket.count := Bucket.count existing + 1 |}
    buckets.

(** The trend point of a bucket. *)
Definition trend_point (entry : Z * Bucket.t) : TensionTrend.t :=
  let avgMood :=
    PrimFloat.div (Bucket.total entry.2) (number_of_Z (Bucket.count entry.2)) in
  let tensionIndex := PrimFloat.sub (number_of_Z 100) avgMood in
  {| TensionTrend.timestamp := entry.1;
     TensionTrend.tensionIndex :=
       PrimFloat.div
         (Math_round_number (PrimFloat.mul tensionIndex (number_of_Z 10)))
         (number_of_Z 10);
     TensionTrend.window := "items" |}.

(** The rows the query of [getMoodTrendFromItems] selects: created at or
    after [since], with a mood score, by ascending creation time. *)
Definition scored_since (since : Date) (table : list MoodRow.t)
  : list (Date * number) :=
  sort_by fst
    (omap
       (fun row =>
          match MoodRow.moodScore row with
          | Some score =>
              if decide (since <= MoodRow.createdAt row)
              then Some (MoodRow.createdAt row, score)
              else None
          | None => None
          end)
       table).

(** [getMoodTrendFromItems(hours = 24)], called at time [now]. *)
Definition getMoodTrendFromItems (hours : option Z) (now : Date)
    (table : list MoodRow.t) : list TensionTrend.t :=
  let hours := default 24 hours in
  let since := now - hours * 60 * 60 * 1000 in
  let size := bucketMs hours in
  let items := scored_since since table in
  if decide (length items = 0%nat) then []
  else
    let buckets := fold_left (add_to_bucket size) items [] in
    let sortedBuckets := sort_by fst buckets in
    trend_point <$> sortedBuckets.

(** The pulses the query of [getTensionTrend] selects: those at or after
    [since], of the given window when one is given (and not the empty
    string), by ascending time. *)
Definition pulses_since (since : Date) (window : option string)
    (table : list PulseRow.t) : list TensionTrend.t :=
  let recent := filter (fun p => since <= PulseRow.timestamp p) table in
  let selected :=
    match window with
    | Some w =>
        if decide (w = "") then recent
        else filter (fun p => PulseRow.window p = w) recent
    | None => recent
    end in
  (fun p =>
     {| TensionTrend.timestamp := PulseRow.timestamp p;
        TensionTrend.tensionIndex := PulseRow.tensionIndex p;
        TensionTrend.window := PulseRow.window p |})
  <$> sort_by PulseRow.timestamp selected.

(** [getTensionTrend(hours = 24, window)]: the pulses are read at time
    [now], the items, when they are needed, at time [later]. *)
Definition getTensionTrend (hours : option Z) (window : option string)
    (now later : Date) (pulseTable : list PulseRow.t)
    (itemTable : list MoodRow.t) : list TensionTrend.t :=
  let since := now - default 24 hours * 60 * 60 * 1000 in
  let pulses := pulses_since since window pulseTable in
  if decide (3 <= length pulses)%nat then pulses
  else
    let itemTrend := getMoodTrendFromItems (Some (default 24 hours)) later itemTable in
    if decide (0 < length pulses /\ 0 < length itemTrend)%nat
    then sort_by TensionTrend.timestamp (pulses ++ itemTrend)
    else if decide (0 < length itemTrend)%nat then itemTrend else pulses.

(** *** Sorting *)

Section SortByFacts.
Context {A : Type}.
Variable key : A -> Z.

Lemma insert_by_Permutation (x : A) (l : list A) :
  insert_by key x l ≡ₚ x :: l.
Proof.
  induction l as [|y l IH]; simpl; [reflexivity|].
  destruct (key x <=? key y); [reflexivity|].
  rewrite IH. apply perm_swap.
Qed.

Lemma sort_by_Permutation (l : list A) : sort_by key l ≡ₚ l.
Proof.
  induction l as [|x l IH]; simpl; [reflexivity|].
  rewrite insert_by_Permutation. by rewrite IH.
Qed.

Lemma insert_by_sorted (x : A) (l : list A) :
  StronglySorted (fun a b => key a <= key b) l ->
  StronglySorted (fun a b => key a <= key b) (insert_by key x l).
Proof.
  induction 1 as [|y l Hsorted IH Hall]; simpl.
  - repeat constructor.
  - destruct (Z.leb_spec (key x) (key y)) as [Hle|Hgt].
    + constructor; [by constructor|]. constructor; [exact Hle|].
      eapply Forall_impl; [exact Hall|]. simpl. intros; lia.
    + constructor; [exact IH|].
      rewrite insert_by_Permutation. constructor; [lia|exact Hall].
Qed.

Lemma sort_by_sorted (l : list A) :
  StronglySorted (fun a b => key a <= key b) (sort_by key l).
Proof.
  induction l as [|x l IH]; simpl; [constructor|].
  by apply insert_by_sorted.
Qed.

Lemma sort_by_sorted_id (l : list A) :
  StronglySorted (fun a b => key a <= key b) l -> sort_by key l = l.
Proof.
  induction 1 as [|x l Hsorted IH Hall]; [reflexivity|].
  change (sort_by key (x :: l)) with (insert_by key x (sort_by key l)).
  rewrite IH. destruct l as [|y l]; [reflexivity|]. simpl.
  apply Forall_cons_1 in Hall as [Hy _].
  apply Z.leb_le in Hy. by rewrite Hy.
Qed.

(** A sorted list of distinct keys is strictly sorted. *)
Lemma sorted_distinct (l : list A) :
  StronglySorted (fun a b => key a <= key b) l ->
  NoDup (key <$> l) ->
  StronglySorted (fun a b => key a < key b) l.
Proof.
  induction 1 as [|x l Hsorted IH Hall]; [constructor|].
  csimpl. intros [Hx Hnd]%NoDup_cons. constructor; [by apply IH|].
  apply Forall_forall. intros y Hy.
  rewrite Forall_forall in Hall. specialize (Hall y Hy).
  assert (key y <> key x).
  { intros Heq. apply Hx. rewrite <- Heq. by apply list_elem_of_fmap_2. }
  lia.
Qed.

End SortByFacts.

(** *** The buckets *)

Lemma NumMap_get_set {V : Type} (k k' : Z) (v : V) (m : NumMap.t V) :
  NumMap.get k' (NumMap.set k v m)
  = if decide (k = k') then Some v else NumMap.get k' m.
Proof.
  induction m as [|[k0 v0] m IH]; simpl.
  - by destruct (decide (k = k')).
  - destruct (decide (k0 = k)) as [->|Hne]; simpl.
    + destruct (decide (k = k')); reflexivity.
    + rewrite IH. destruct (decide (k0 = k')) as [->|?]; [|reflexivity].
      by rewrite decide_False by congruence.
Qed.

Lemma NumMap_set_keys {V : Type} (k : Z) (v : V) (m : NumMap.t V) :
  (NumMap.set k v m).*1 = if decide (k ∈ m.*1) then m.*1 else m.*1 ++ [k].
Proof.
  induction m as [|[k0 v0] m IH].
  - destruct (decide (k ∈ ([] : NumMap.t V).*1)) as [Hin|_]; [|reflexivity].
    by apply elem_of_nil in Hin.
  - cbn [NumMap.set]. destruct (decide (k0 = k)) as [->|Hne].
    + rewrite !fmap_cons. cbn [fst].
      destruct (decide (k ∈ k :: m.*1)) as [_|Hnot]; [reflexivity|].
      exfalso. apply Hnot, list_elem_of_here.
    + rewrite !fmap_cons, IH. cbn [fst].
      destruct (decide (k ∈ m.*1)) as [Hin|Hnot];
        destruct (decide (k ∈ k0 :: m.*1)) as [Hin'|Hnot']; try reflexivity.
      * exfalso. by apply Hnot', list_elem_of_further.
      * apply elem_of_cons in Hin' as [?|?]; [congruence|done].
Qed.

Lemma NumMap_get_None {V : Type} (k : Z) (m : NumMap.t V) :
  NumMap.get k m = None <-> k ∉ m.*1.
Proof.
  induction m as [|[k0 v0] m IH]; csimpl.
  - split; [|done]. intros _ Hin. by apply elem_of_nil in Hin.
  - rewrite not_elem_of_cons. destruct (decide (k0 = k)) as [->|Hne].
    + split; [discriminate|]. intros [? _]. done.
    + rewrite IH. split; [intros ?; split; [congruence|done]|tauto].
Qed.

Lemma NumMap_get_elem {V : Type} (k : Z) (v : V) (m : NumMap.t V) :
  NoDup m.*1 -> (k, v) ∈ m <-> NumMap.get k m = Some v.
Proof.
  induction m as [|[k0 v0] m IH]; csimpl.
  - intros _. split; [|discriminate]. intros Hin. by apply elem_of_nil in Hin.
  - intros [Hk0 Hnd]%NoDup_cons. rewrite elem_of_cons, (IH Hnd).
    destruct (decide (k0 = k)) as [->|Hne].
    + split.
      * intros [[= ->]|Hget]; [reflexivity|].
        exfalso. apply Hk0. destruct (decide (k ∈ m.*1)) as [?|Hnot]; [done|].
        apply NumMap_get_None in Hnot. congruence.
      * intros [= ->]. by left.
    + split; [intros [[= ? ?]|?]; [congruence|done]|by right].
Qed.

(** The scores of the items that fall into the bucket at [k]. *)
Definition bucket_scores (size k : Z) (items : list (Date * number))
  : list number :=
  (filter (fun item => bucketTime size item.1 = k) items).*2.

(** The bucket of scores: their sum from 0, in order, and their number. *)
Definition bucket_sum (scores : list number) : Bucket.t :=
  {| Bucket.total := fold_left PrimFloat.add scores PrimFloat.zero;
     Bucket.count := Z.of_nat (length scores) |}.

Lemma buckets_spec (size : Z) (items : list (Date * number)) :
  let buckets := fold_left (add_to_bucket size) items [] in
  NoDup buckets.*1
  /\ forall k,
       NumMap.get k buckets
       = if decide (bucket_scores size k items = []) then None
         else Some (bucket_sum (bucket_scores size k items)).
Proof.
  induction items as [|item items IH] using rev_ind.
  - simpl. split; [constructor|]. intros k. reflexivity.
  - cbv zeta in *. rewrite fold_left_app. cbn [fold_left].
    set (m := fold_left (add_to_bucket size) items []) in *.
    destruct IH as [Hnd Hget]. unfold add_to_bucket. cbv zeta. split.
    + rewrite NumMap_set_keys. case_decide; [exact Hnd|].
      apply NoDup_app. split_and!; [exact Hnd| |apply NoDup_singleton].
      intros k Hk ->%list_elem_of_singleton. done.
    + intros k. rewrite NumMap_get_set. unfold bucket_scores in *.
      rewrite filter_app, fmap_app, filter_cons, filter_nil.
      destruct (decide (bucketTime size item.1 = k)) as [Hk|Hk]; csimpl.
      * rewrite Hk, Hget.
        set (scores := (filter _ items).*2).
        destruct (decide (scores ++ [item.2] = [])) as [Hbad|_];
          [by apply app_eq_nil in Hbad as [_ ?]|].
        f_equal. unfold bucket_sum.
        rewrite fold_left_app, length_app. cbn [fold_left length].
        destruct (decide (scores = [])) as [->|_]; simpl; f_equal; lia.
      * rewrite app_nil_r. apply Hget.
Qed.


Lemma sorted_fmap {A B : Type} (f : A -> B) (keyA : A -> Z) (keyB : B -> Z)
    (l : list A) :
  (forall a, keyB (f a) = keyA a) ->
  StronglySorted (fun a b => keyA a <= keyA b) l ->
  StronglySorted (fun a b => keyB a <= keyB b) (f <$> l).
Proof.
  intros Hkey. induction 1 as [|x l _ IH Hall]; csimpl; constructor;
    [exact IH|].
  apply Forall_fmap. eapply Forall_impl; [exact Hall|].
  intros y Hy. simpl. by rewrite !Hkey.
Qed.

Lemma getMoodTrendFromItems_sorted (hours : option Z) (now : Date)
    (table : list MoodRow.t) :
  StronglySorted
    (fun a b => TensionTrend.timestamp a <= TensionTrend.timestamp b)
    (getMoodTrendFromItems hours now table).
Proof.
  unfold getMoodTrendFromItems. cbv zeta. case_decide; [constructor|].
  apply (sorted_fmap trend_point fst TensionTrend.timestamp);
    [reflexivity|apply sort_by_sorted].
Qed.

Lemma pulses_since_sorted (since : Date) (window : option string)
    (table : list PulseRow.t) :
  StronglySorted
    (fun a b => TensionTrend.timestamp a <= TensionTrend.timestamp b)
    (pulses_since since window table).
Proof.
  unfold pulses_since. cbv zeta.
  apply (sorted_fmap _ PulseRow.timestamp TensionTrend.timestamp);
    [reflexivity|apply sort_by_sorted].
Qed.


(** ** The top topics *)

Module TopicAggregate.
Record t := { title : string; keywords : list string; count : Z }.
End TopicAggregate.

(** The value [topicMap] holds for a title. *)
Module TopicData.
Record t := { keywords : list string; count : Z }.
End TopicData.

(** [Array.from(new Set(l))]: the first occurrences, in order. *)
Definition Set_values (l : list string) : list string :=
  fold_left (fun acc x => if decide (x ∈ acc) then acc else acc ++ [x]) l [].

(** The body of the inner loop of [getTopTopics]. *)
Definition add_topic (topicMap : JsMap.t TopicData.t) (topic : Topic.t)
  : JsMap.t TopicData.t :=
  match JsMap.get (Topic.title topic) topicMap with
  | Some existing =>
      JsMap.set (Topic.title topic)
        {| TopicData.keywords :=
             Array_slice 0 (Some 5)
               (Set_values
                  (TopicData.keywords existing ++ Topic.keywords topic));
           TopicData.count := TopicData.count existing + 1 |}
        topicMap
  | None =>
      JsMap.set (Topic.title topic)
        {| TopicData.keywords := Array_slice 0 (Some 5) (Topic.keywords topic);
           TopicData.count := 1 |}
        topicMap
  end.

(** The pulses the query of [getTopTopics] selects: those at or after
    [since], by descending time. *)
Definition pulses_desc (since : Date) (table : list PulseRow.t)
  : list PulseRow.t :=
  sort_by (fun p => - PulseRow.timestamp p)
    (filter (fun p => since <= PulseRow.timestamp p) table).

(** [getTopTopics(hours = 24, limit = 10)], called at time [now]. *)
Definition getTopTopics (hours limit : option Z) (now : Date)
    (table : list PulseRow.t) : list TopicAggregate.t :=
  let since := now - default 24 hours * 60 * 60 * 1000 in
  let pulses := pulses_desc since table in
  let topicMap :=
    fold_left
      (fun topicMap pulse =>
         fold_left add_topic (PulseRow.topTopics pulse) topicMap)
      pulses JsMap.clear in
  Array_slice 0 (Some (default 10 limit))
    (sort_by (fun a => - TopicAggregate.count a)
       ((fun entry : string * TopicData.t =>
           {| TopicAggregate.title := entry.1;
              TopicAggregate.keywords := TopicData.keywords entry.2;
              TopicAggregate.count := TopicData.count entry.2 |})
        <$> topicMap)).

(** The topics of the selected pulses, and how often a title occurs among
    them. *)
Definition topics_since (since : Date) (table : list PulseRow.t)
  : list Topic.t :=
  concat (PulseRow.topTopics <$> pulses_desc since table).

Definition occurrences (title : string) (topics : list Topic.t) : nat :=
  length (filter (fun topic => Topic.title topic = title) topics).

Lemma Array_slice_take {A : Type} (n : Z) (l : list A) :
  0 <= n -> Array_slice 0 (Some n) l = take (Z.to_nat n) l.
Proof.
  intros Hn. unfold Array_slice. cbv zeta.
  assert (Hfrom : slice_index (length l) 0 = 0%nat)
    by (unfold slice_index; simpl; lia).
  assert (Hto : slice_index (length l) n = Nat.min (Z.to_nat n) (length l)).
  { unfold slice_index. rewrite (proj2 (Z.ltb_ge n 0) Hn). lia. }
  rewrite Hfrom, Hto, Nat.sub_0_r, drop_0.
  destruct (Nat.le_ge_cases (Z.to_nat n) (length l)) as [Hle|Hge].
  - by rewrite Nat.min_l.
  - rewrite Nat.min_r by exact Hge. rewrite !take_ge; [reflexivity|lia|lia].
Qed.

Lemma Array_slice_sublist {A : Type} (start : Z) (stop : option Z)
    (l : list A) :
  sublist (Array_slice start stop l) l.
Proof.
  unfold Array_slice. cbv zeta.
  etrans; [apply sublist_take|apply sublist_drop].
Qed.

Lemma Set_values_elem (l : list string) (x : string) :
  x ∈ Set_values l -> x ∈ l.
Proof.
  unfold Set_values.
  assert (Hgen : forall acc,
             x ∈ fold_left
                   (fun acc x => if decide (x ∈ acc) then acc else acc ++ [x])
                   l acc ->
             x ∈ acc \/ x ∈ l).
  { induction l as [|y l IH]; intros acc; simpl; [by left|].
    intros [Hacc|Hl]%IH; [|right; by apply list_elem_of_further].
    case_decide; [by left|].
    apply elem_of_app in Hacc as [?|Hy]; [by left|].
    apply list_elem_of_singleton in Hy as ->.
    right. apply list_elem_of_here. }
  intros [Hnil|Hl]%Hgen; [by apply elem_of_nil in Hnil|exact Hl].
Qed.

Lemma fold_left_concat {A B C : Type} (f : A -> B -> A) (g : C -> list B)
    (ls : list C) (a : A) :
  fold_left (fun acc l => fold_left f (g l) acc) ls a
  = fold_left f (concat (g <$> ls)) a.
Proof.
  revert a. induction ls as [|l ls IH]; intros a; csimpl; [reflexivity|].
  by rewrite fold_left_app, IH.
Qed.

(** What [topicMap] holds for a title after the topics have been added. *)
Definition aggregates (topics : list Topic.t) (title : string)
    (data : option TopicData.t) : Prop :=
  match data with
  | None => occurrences title topics = 0%nat
  | Some d =>
      TopicData.count d = Z.of_nat (occurrences title topics)
      /\ (1 <= occurrences title topics)%nat
      /\ (length (TopicData.keywords d) <= 5)%nat
      /\ forall kw,
           kw ∈ TopicData.keywords d ->
           exists topic,
             topic ∈ topics /\ Topic.title topic = title
             /\ kw ∈ Topic.keywords topic
  end.

Lemma occurrences_snoc (title : string) (topics : list Topic.t)
    (topic : Topic.t) :
  occurrences title (topics ++ [topic])
  = (occurrences title topics
     + if decide (Topic.title topic = title) then 1 else 0)%nat.
Proof.
  unfold occurrences. rewrite filter_app, length_app, filter_cons, filter_nil.
  by case_decide.
Qed.

Lemma topicMap_spec (topics : list Topic.t) :
  NoDup (fold_left add_topic topics JsMap.clear).*1
  /\ forall title,
       aggregates topics title
         (JsMap.get title (fold_left add_topic topics JsMap.clear)).
Proof.
  induction topics as [|topic topics IH] using rev_ind.
  - split; [constructor|]. intros title. reflexivity.
  - rewrite fold_left_app. cbn [fold_left].
    set (m := fold_left add_topic topics JsMap.clear) in *.
    destruct IH as [Hnd Hget].
    assert (Hslice : forall l : list string,
               (length (Array_slice 0%Z (Some 5%Z) l) <= 5)%nat
               /\ forall kw, kw ∈ Array_slice 0 (Some 5) l -> kw ∈ l).
    { intros l. rewrite Array_slice_take by lia. split.
      - rewrite length_take. lia.
      - intros kw Hkw. eapply elem_of_sublist; [exact Hkw|apply sublist_take]. }
    split.
    + unfold add_topic. destruct (JsMap.get _ m); by apply JsMap_set_NoDup.
    + intros title. pose proof (Hget title) as Htitle.
      pose proof (Hget (Topic.title topic)) as Htopic.
      assert (Hgrow : forall kw t,
                 t ∈ topics -> Topic.title t = title -> kw ∈ Topic.keywords t ->
                 exists t', t' ∈ topics ++ [topic] /\ Topic.title t' = title
                            /\ kw ∈ Topic.keywords t').
      { intros kw t Ht Htt Hkw. exists t. split_and!; try done.
        apply elem_of_app. by left. }
      unfold add_topic.
      destruct (decide (Topic.title topic = title)) as [Heq|Hne].
      * rewrite Heq in *.
        destruct (JsMap.get title m) as [existing|] eqn:Hm;
          rewrite JsMap_get_set_eq; unfold aggregates in *;
          rewrite occurrences_snoc, decide_True by exact Heq.
        -- destruct Htitle as (Hcount & Hone & Hlen & Hkws).
           cbn [TopicData.count TopicData.keywords].
           split_and!; [lia|lia|apply Hslice|].
           intros kw [Hkw|Hkw]%Hslice%Set_values_elem%elem_of_app.
           ++ destruct (Hkws kw Hkw) as (t & Ht & Htt & Hin). by eapply Hgrow.
           ++ exists topic. split_and!; [|exact Heq|exact Hkw].
              apply elem_of_app. right. apply list_elem_of_here.
        -- cbn [TopicData.count TopicData.keywords].
           split_and!; [lia|lia|apply Hslice|].
           intros kw Hkw%Hslice. exists topic.
           split_and!; [|exact Heq|exact Hkw].
           apply elem_of_app. right. apply list_elem_of_here.
      * assert (Hsame : forall v,
                   JsMap.get title (JsMap.set (Topic.title topic) v m)
                   = JsMap.get title m)
          by (intros v; by apply JsMap_get_set_ne).
        assert (Hagg : aggregates (topics ++ [topic]) title (JsMap.get title m)).
        { unfold aggregates in *.
          destruct (JsMap.get title m) as [d|];
            rewrite occurrences_snoc, decide_False by exact Hne;
            rewrite Nat.add_0_r; [|exact Htitle].
          destruct Htitle as (Hcount & Hone & Hlen & Hkws).
          split_and!; [exact Hcount|exact Hone|exact Hlen|].
          intros kw Hkw. destruct (Hkws kw Hkw) as (t & Ht & Htt & Hin).
          by eapply Hgrow. }
        destruct (JsMap.get (Topic.title topic) m); by rewrite Hsame.
Qed.

Lemma StronglySorted_sublist {A : Type} (R : A -> A -> Prop) (l k : list A) :
  sublist k l -> StronglySorted R l -> StronglySorted R k.
Proof.
  intros Hsub Hsorted. revert k Hsub.
  induction Hsorted as [|x l Hsorted IH Hall]; intros k Hsub.
  - apply sublist_nil_r in Hsub as ->. constructor.
  - apply sublist_cons_r in Hsub as [Hsub|(k' & -> & Hsub)]; [by apply IH|].
    constructor; [by apply IH|].
    apply Forall_forall. intros y Hy. rewrite Forall_forall in Hall.
    apply Hall. eapply elem_of_sublist; [exact Hy|exact Hsub].
Qed.


(** ** The country mood ranking *)

(** A row of the aggregate query of [getCountryMoodRanking]. *)
Module MoodRankRow.
Record t := { country : option string; avgMood : number; count : Z }.
End MoodRankRow.

Module CountryMoodEntry.
Record t := { country : string; avgMood : number; count : Z }.
End CountryMoodEntry.

(** [validResults]: the rows with a country, their average rounded. *)
Definition validResults (result : list MoodRankRow.t)
  : list CountryMoodEntry.t :=
  omap
    (fun r =>
       match MoodRankRow.country r with
       | Some c =>
           if decide (c = "") then None
           else
             Some {| CountryMoodEntry.country := c;
                     CountryMoodEntry.avgMood :=
                       Math_round_number (MoodRankRow.avgMood r);
                     CountryMoodEntry.count := MoodRankRow.count r |}
       | None => None
       end)
    result.

(** [getCountryMoodRanking], from the rows [result] its query returned:
    the lists [happiest] and [tensest]. *)
Definition getCountryMoodRanking (result : list MoodRankRow.t)
  : list CountryMoodEntry.t * list CountryMoodEntry.t :=
  let valid := validResults result in
  let happiest := Array_slice 0 (Some 5) valid in
  let tensest := rev (Array_slice (-5) None valid) in
  (happiest, tensest).

Lemma Array_slice_last {A : Type} (n : Z) (l : list A) :
  0 < n -> Array_slice (- n) None l = drop (length l - Z.to_nat n) l.
Proof.
  intros Hn. unfold Array_slice. cbv zeta.
  assert (Hfrom : slice_index (length l) (- n)
                  = (length l - Z.to_nat n)%nat).
  { unfold slice_index. rewrite (proj2 (Z.ltb_lt (- n) 0)) by lia. lia. }
  rewrite Hfrom. apply take_ge. rewrite length_drop. lia.
Qed.


(** * Display helpers *)

(** ** HeadlinesPanel.tsx *)

(** [string.slice(start, end)]; the characters of a string stand for the
    code units of the JavaScript string. *)
Definition String_slice (start : Z) (stop : option Z) (s : string) : string :=
  let from := slice_index (String.length s) start in
  let to :=
    match stop with
    | Some e => slice_index (String.length s) e
    | None => String.length s
    end in
  String.substring from (to - from) s.

(** [truncateTitle(title, maxLength = 60)]. *)
Definition truncateTitle (title : string) (maxLength : option Z) : string :=
  let maxLength := default 60 maxLength in
  if Z.of_nat (String.length title) <=? maxLength then title
  else String_slice 0 (Some (maxLength - 3)) title +:+ "...".

Lemma String_length_append (s1 s2 : string) :
  String.length (s1 +:+ s2) = (String.length s1 + String.length s2)%nat.
Proof.
  induction s1 as [|c s1 IH]; [reflexivity|].
  change (S (String.length (s1 +:+ s2))
          = S (String.length s1 + String.length s2)). by rewrite IH.
Qed.

Lemma String_length_substring (n : nat) (s : string) :
  String.length (String.substring 0 n s) = Nat.min n (String.length s).
Proof.
  revert n. induction s as [|c s IH]; intros [|n]; simpl; try reflexivity.
  by rewrite IH.
Qed.

(** X22. [truncateTitle] returns a title that fits unchanged; a longer one
    becomes its first [maxLength - 3] characters followed by three dots,
    which for a limit of 3 or more is exactly [maxLength] characters, so
    with the default limit no shown title is longer than 60. For a limit
    below 3 the result of truncating a longer title is longer than the
    limit. *)
Theorem truncateTitle_length (title : string) (maxLength : option Z) :
  let limit := default 60 maxLength in
  let len := Z.of_nat (String.length title) in
  let out := truncateTitle title maxLength in
  (len <= limit -> out = title)
  /\ (3 <= limit < len ->
      out = String.substring 0 (Z.to_nat (limit - 3)) title +:+ "..."
      /\ Z.of_nat (String.length out) = limit)
  /\ (3 <= limit -> Z.of_nat (String.length out) <= limit)
  /\ (limit < len -> limit < 3 ->
      limit < Z.of_nat (String.length out)
      /\ 3 <= Z.of_nat (String.length out))
  /\ Z.of_nat (String.length (truncateTitle title None)) <= 60.
Proof.
  intros limit len out.
  assert (Hfits : len <= limit -> out = title).
  { intros Hle. unfold out, truncateTitle. cbv zeta. fold limit. fold len.
    by rewrite (proj2 (Z.leb_le len limit) Hle). }
  assert (Hcut : limit < len ->
                 out = String.substring 0
                         (slice_index (String.length title) (limit - 3)) title
                       +:+ "...").
  { intros Hlt. unfold out, truncateTitle. cbv zeta. fold limit. fold len.
    rewrite (proj2 (Z.leb_gt len limit) Hlt). unfold String_slice. cbv zeta.
    assert (Hfrom : slice_index (String.length title) 0 = 0%nat)
      by (unfold slice_index; simpl; lia).
    by rewrite Hfrom, Nat.sub_0_r. }
  assert (Hlong : 3 <= limit < len ->
                  out = String.substring 0 (Z.to_nat (limit - 3)) title
                        +:+ "..."
                  /\ Z.of_nat (String.length out) = limit).
  { intros [H3 Hlt]. rewrite (Hcut Hlt).
    assert (Hidx : slice_index (String.length title) (limit - 3)
                   = Z.to_nat (limit - 3)).
    { unfold slice_index. rewrite (proj2 (Z.ltb_ge (limit - 3) 0)) by lia.
      unfold len in Hlt. lia. }
    rewrite Hidx. split; [reflexivity|].
    rewrite String_length_append, String_length_substring. simpl.
    unfold len in Hlt. lia. }
  assert (Hbound : forall limit' out',
             3 <= limit' ->
             (Z.of_nat (String.length title) <= limit' -> out' = title) ->
             (3 <= limit' < Z.of_nat (String.length title) ->
              Z.of_nat (String.length out') = limit') ->
             Z.of_nat (String.length out') <= limit').
  { intros limit' out' H3 Hf Hl.
    destruct (Z.le_gt_cases (Z.of_nat (String.length title)) limit') as [Hle|Hgt].
    - by rewrite (Hf Hle).
    - rewrite Hl; lia. }
  split_and!; [exact Hfits|exact Hlong| | |].
  - intros H3. apply Hbound; [exact H3|exact Hfits|]. intros H. by apply Hlong.
  - intros Hlt Hsmall. rewrite (Hcut Hlt).
    rewrite String_length_append, String_length_substring. simpl.
    unfold slice_index. rewrite (proj2 (Z.ltb_lt (limit - 3) 0)) by lia.
    unfold len in Hlt. lia.
  - unfold truncateTitle. cbv zeta. simpl default.
    destruct (Z.leb_spec (Z.of_nat (String.length title)) 60) as [Hle|Hgt];
      [exact Hle|].
    unfold String_slice. cbv zeta.
    rewrite String_length_append.
    assert (Hfrom : slice_index (String.length title) 0 = 0%nat)
      by (unfold slice_index; simpl; lia).
    rewrite Hfrom, Nat.sub_0_r, String_length_substring. simpl.
    unfold slice_index. simpl. lia.
Qed.

(** ** NewsFeed.tsx *)

(** The suffixes of the relative times. *)
Record Translations := {
  minutesAgo : string;
  hoursAgo : string;
  daysAgo : string
}.

(** [getRelativeTime(date, t)], called at time [now], for a valid date. *)
Definition getRelativeTime (date now : Date) (t : Translations) : string :=
  let diffMs := now - date in
  let diffMins := diffMs / 60000 in
  let diffHours := diffMins / 60 in
  if diffMins <? 60 then pretty diffMins +:+ minutesAgo t
  else if diffHours <? 24 then pretty diffHours +:+ hoursAgo t
  else pretty (diffHours / 24) +:+ daysAgo t.

(** X23. [getRelativeTime] shows the time elapsed in whole minutes when it
    is less than an hour, in whole hours when it is less than a day, and in
    whole days otherwise, each rounded down from the milliseconds elapsed;
    a date in the future is shown in minutes, with a negative number,
    however far ahead it is. *)
Theorem getRelativeTime_units (date now : Date) (t : Translations) :
  let elapsed := now - date in
  (elapsed < 3600000 ->
   getRelativeTime date now t = pretty (elapsed / 60000) +:+ minutesAgo t)
  /\ (3600000 <= elapsed < 86400000 ->
      getRelativeTime date now t = pretty (elapsed / 3600000) +:+ hoursAgo t
      /\ 1 <= elapsed / 3600000 < 24)
  /\ (86400000 <= elapsed ->
      getRelativeTime date now t = pretty (elapsed / 86400000) +:+ daysAgo t
      /\ 1 <= elapsed / 86400000)
  /\ (elapsed < 0 ->
      getRelativeTime date now t = pretty (elapsed / 60000) +:+ minutesAgo t
      /\ elapsed / 60000 < 0).
Proof.
  intros elapsed. unfold getRelativeTime. cbv zeta. fold elapsed.
  assert (Hhours : elapsed / 60000 / 60 = elapsed / 3600000)
    by (rewrite Z.div_div by lia; reflexivity).
  assert (Hdays : elapsed / 60000 / 60 / 24 = elapsed / 86400000)
    by (rewrite !Z.div_div by lia; reflexivity).
  rewrite Hdays, Hhours.
  assert (Hmins : elapsed / 60000 < 60 <-> elapsed < 3600000).
  { split; intros H.
    - apply Z.nle_gt. intros Hle.
      pose proof (Z.div_le_mono 3600000 elapsed 60000 ltac:(lia) Hle) as Hd.
      change (3600000 / 60000) with 60 in Hd. lia.
    - apply Z.div_lt_upper_bound; lia. }
  assert (Hh24 : elapsed / 3600000 < 24 <-> elapsed < 86400000).
  { split; intros H.
    - apply Z.nle_gt. intros Hle.
      pose proof (Z.div_le_mono 86400000 elapsed 3600000 ltac:(lia) Hle) as Hd.
      change (86400000 / 3600000) with 24 in Hd. lia.
    - apply Z.div_lt_upper_bound; lia. }
  split_and!.
  - intros Hlt. by rewrite (proj2 (Z.ltb_lt _ _) (proj2 Hmins Hlt)).
  - intros [Hge Hlt].
    rewrite (proj2 (Z.ltb_ge _ _)) by (apply Z.nlt_ge; rewrite Hmins; lia).
    rewrite (proj2 (Z.ltb_lt _ _) (proj2 Hh24 Hlt)).
    split; [reflexivity|]. split; [|by apply Hh24].
    pose proof (Z.div_le_mono 3600000 elapsed 3600000 ltac:(lia) Hge) as Hd.
    change (3600000 / 3600000) with 1 in Hd. exact Hd.
  - intros Hge.
    rewrite (proj2 (Z.ltb_ge _ _)) by (apply Z.nlt_ge; rewrite Hmins; lia).
    rewrite (proj2 (Z.ltb_ge _ _)) by (apply Z.nlt_ge; rewrite Hh24; lia).
    split; [reflexivity|].
    pose proof (Z.div_le_mono 86400000 elapsed 86400000 ltac:(lia) Hge) as Hd.
    change (86400000 / 86400000) with 1 in Hd. exact Hd.
  - intros Hneg.
    rewrite (proj2 (Z.ltb_lt _ _)) by (apply Hmins; lia).
    split; [reflexivity|]. apply Z.div_lt_upper_bound; lia.
Qed.

(** [s.includes(sub)]. *)
Fixpoint includes (s sub : string) : bool :=
  if String.prefix sub s then true
  else
    match s with
    | EmptyString => false
    | String _ s' => includes s' sub
    end.

(** [SOURCE_COLORS]. *)
Definition SOURCE_COLORS (source : string) : option string :=
  if decide (source = "Search: news") then Some "#3b82f6"
  else if decide (source = "Search: social") then Some "#f97316"
  else if decide (source = "Search: tech") then Some "#22c55e"
  else if decide (source = "Search: events") then Some "#a855f7"
  else if decide (source = "Search: weather") then Some "#06b6d4"
  else None.

(** [getCategoryFromSource]. *)
Definition getCategoryFromSource (source : string) : option ContentCategory :=
  if includes source "news" then Some "news"
  else if includes source "social" then Some "social"
  else if includes source "tech" then Some "tech"
  else if includes source "events" then Some "events"
  else if includes source "weather" then Some "weather"
  else None.

(** The fields of a [Receipt] the feed and the map page read to find its
    category. *)
Module Receipt.
Record t := {
  lens : option string;
  sourceType : option string;
  source : string
}.
End Receipt.

(** The [switch] on a non-empty lens, shared by the two versions of
    [getReceiptCategory]. *)
Definition lensCategory (lens : string) : ContentCategory :=
  if decide (lens = "Events") then "events"
  else if decide (lens = "Tech") then "tech"
  else if decide (lens = "Weather") then "weather"
  else if decide (lens = "Conversation") then "social"
  else "news".

(** [getReceiptCategory] of the feed with the multi-select filter. *)
Module NewsFeed.
Definition getReceiptCategory (receipt : Receipt.t) : ContentCategory :=
  match Receipt.lens receipt with
  | Some (String c lens) => lensCategory (String c lens)
  | _ =>
      let sourceType :=
        opt_str_or (Receipt.sourceType receipt) (Receipt.source receipt) in
      if decide (sourceType = "events") then "events"
      else if decide (sourceType = "hn") then "tech"
      else if decide (sourceType = "reddit" \/ sourceType = "telegram")
      then "social"
      else if includes (Receipt.source receipt) "tech" then "tech"
      else if includes (Receipt.source receipt) "social" then "social"
      else if includes (Receipt.source receipt) "events" then "events"
      else if includes (Receipt.source receipt) "weather" then "weather"
      else "news"
  end.
End NewsFeed.

(** [getReceiptCategory] of the map page. *)
Module MapPage.
Definition getReceiptCategory (receipt : Receipt.t) : ContentCategory :=
  match Receipt.lens receipt with
  | Some (String c lens) => lensCategory (String c lens)
  | _ =>
      let sourceType :=
        opt_str_or (Receipt.sourceType receipt) (Receipt.source receipt) in
      if decide (sourceType = "events") then "events"
      else if decide (sourceType = "hn") then "tech"
      else if decide (sourceType = "reddit" \/ sourceType = "telegram")
      then "social"
      else "news"
  end.
End MapPage.

(** [ALL_CATEGORIES]: the five content categories. *)
Definition ALL_CATEGORIES : list ContentCategory :=
  ["news"; "events"; "tech"; "social"; "weather"].

(** X24. The category of an extraction survives the trip through the
    stored item to the display: for each of the five categories, the
    context the adapter writes, ["Search: <category>"], is a key of
    [SOURCE_COLORS] and [getCategoryFromSource] reads the category back
    from it, and both versions of [getReceiptCategory] read it back from
    the lens [categoryToLens] chose, whatever the other fields of the
    receipt say. *)
Theorem category_round_trip {env : Collaborators} (c : ContentCategory)
    (scraped : ScrapedContent.t) (extracted : Extracted.t)
    (location : option Location.t) (now : Date)
    (sourceType : option string) (source : string) :
  c ∈ ALL_CATEGORIES ->
  Extracted.category extracted = c ->
  let item := normalizedItem scraped extracted location now in
  let receipt :=
    {| Receipt.lens := Some (NormalizedItem.lens item);
       Receipt.sourceType := sourceType;
       Receipt.source := source |} in
  NormalizedItem.context item = "Search: " +:+ c
  /\ getCategoryFromSource (NormalizedItem.context item) = Some c
  /\ SOURCE_COLORS (NormalizedItem.context item) <> None
  /\ NewsFeed.getReceiptCategory receipt = c
  /\ MapPage.getReceiptCategory receipt = c.
Proof.
  intros Hc Hcat item receipt.
  assert (Hcontext : NormalizedItem.context item = "Search: " +:+ c)
    by (simpl; by rewrite Hcat).
  assert (Hlens : NormalizedItem.lens item = categoryToLens c)
    by (simpl; by rewrite Hcat).
  unfold receipt. rewrite Hcontext, Hlens. clear -Hc.
  unfold ALL_CATEGORIES in Hc.
  repeat (apply elem_of_cons in Hc as [->|Hc];
          [split_and!; [reflexivity|reflexivity|discriminate
                        |reflexivity|reflexivity]|]).
  by apply elem_of_nil in Hc.
Qed.

(** X25. The two versions of [getReceiptCategory] agree on every receipt
    that has a lens, where they return the category of the lens and
    ["news"] for a lens they do not know; they differ only on a receipt
    without a lens whose source type is not one of the known ones and
    whose source contains the name of another category: there the map page
    answers ["news"] and the feed the category named in the source. *)
Theorem getReceiptCategory_versions (receipt : Receipt.t) :
  (forall lens,
     Receipt.lens receipt = Some lens -> lens <> "" ->
     NewsFeed.getReceiptCategory receipt = lensCategory lens
     /\ MapPage.getReceiptCategory receipt = lensCategory lens)
  /\ NewsFeed.getReceiptCategory receipt ∈ ALL_CATEGORIES
  /\ MapPage.getReceiptCategory receipt ∈ ALL_CATEGORIES
  /\ (NewsFeed.getReceiptCategory receipt <> MapPage.getReceiptCategory receipt ->
      (Receipt.lens receipt = None \/ Receipt.lens receipt = Some "")
      /\ MapPage.getReceiptCategory receipt = "news"
      /\ NewsFeed.getReceiptCategory receipt <> "news"
      /\ includes (Receipt.source receipt)
           (NewsFeed.getReceiptCategory receipt) = true).
Proof.
  assert (Hlens : forall lens, lensCategory lens ∈ ALL_CATEGORIES).
  { intros lens. unfold lensCategory, ALL_CATEGORIES.
    repeat case_decide; repeat constructor. }
  unfold NewsFeed.getReceiptCategory, MapPage.getReceiptCategory.
  destruct (Receipt.lens receipt) as [[|c lens]|] eqn:Hl; cbv zeta.
  - split_and!.
    + intros lens [= <-]. done.
    + repeat case_decide; repeat case_match; unfold ALL_CATEGORIES;
        repeat constructor.
    + repeat case_decide; unfold ALL_CATEGORIES; repeat constructor.
    + repeat case_decide; try done.
      repeat case_match; try done; intros _;
        (split_and!; [by right|reflexivity|discriminate|assumption]).
  - split_and!.
    + by intros lens0 [= <-] _.
    + apply Hlens.
    + apply Hlens.
    + done.
  - split_and!.
    + intros lens [=].
    + repeat case_decide; repeat case_match; unfold ALL_CATEGORIES;
        repeat constructor.
    + repeat case_decide; unfold ALL_CATEGORIES; repeat constructor.
    + repeat case_decide; try done.
      repeat case_match; try done; intros _;
        (split_and!; [by left|reflexivity|discriminate|assumption]).
Qed.

Lemma category_round_trip_example :
  getCategoryFromSource "Search: tech" = Some "tech"
  /\ NewsFeed.getReceiptCategory
       {| Receipt.lens := Some "Tech"; Receipt.sourceType := Some "reddit";
          Receipt.source := "Search: social" |}
     = "tech".
Proof.
  assert (Hc : "tech" ∈ ALL_CATEGORIES)
    by (unfold ALL_CATEGORIES; do 2 apply list_elem_of_further;
        apply list_elem_of_here).
  destruct (category_round_trip (env := demo true) "tech"
              (demo_page "https://blog.example/a")
              (demo_extracted "https://blog.example/a" "tech") None 0
              (Some "reddit") "Search: social" Hc eq_refl)
    as (_ & Hsource & _ & Hfeed & _).
  split; [exact Hsource|exact Hfeed].
Defined.

(** *** The list of the feed *)

Definition ITEMS_PER_PAGE : Z := 50.

(** [Math.ceil(length / ITEMS_PER_PAGE)]. *)
Definition totalPages (length : nat) : Z :=
  (Z.of_nat length + ITEMS_PER_PAGE - 1) / ITEMS_PER_PAGE.

(** [paginatedReceipts] for the page [currentPage]. *)
Definition paginatedReceipts {A : Type} (filteredReceipts : list A)
    (currentPage : Z) : list A :=
  let start := (currentPage - 1) * ITEMS_PER_PAGE in
  Array_slice start (Some (start + ITEMS_PER_PAGE)) filteredReceipts.

Lemma Array_slice_window {A : Type} (start size : Z) (l : list A) :
  0 <= start -> 0 <= size ->
  Array_slice start (Some (start + size)) l
  = take (Z.to_nat size) (drop (Z.to_nat start) l).
Proof.
  intros Hstart Hsize. unfold Array_slice. cbv zeta.
  assert (Hfrom : slice_index (length l) start
                  = Nat.min (Z.to_nat start) (length l)).
  { unfold slice_index. rewrite (proj2 (Z.ltb_ge start 0) Hstart). lia. }
  assert (Hto : slice_index (length l) (start + size)
                = Nat.min (Z.to_nat start + Z.to_nat size) (length l)).
  { unfold slice_index. rewrite (proj2 (Z.ltb_ge (start + size) 0)) by lia.
    lia. }
  rewrite Hfrom, Hto.
  destruct (Nat.le_gt_cases (length l) (Z.to_nat start)) as [Hout|Hin].
  - rewrite !drop_ge by lia. by rewrite !take_nil.
  - rewrite (Nat.min_l (Z.to_nat start)) by lia.
    destruct (Nat.le_gt_cases (Z.to_nat start + Z.to_nat size) (length l))
      as [Hle|Hgt].
    + rewrite Nat.min_l by lia. f_equal. lia.
    + rewrite Nat.min_r by lia.
      rewrite !take_ge; [reflexivity|rewrite length_drop; lia..].
Qed.

Lemma pages_concat {A : Type} (size pages : nat) (l : list A) :
  (length l <= size * pages)%nat ->
  concat ((fun i => take size (drop (size * i) l)) <$> seq 0 pages) = l.
Proof.
  revert l. induction pages as [|pages IH]; intros l Hlen.
  - simpl. destruct l; [reflexivity|simpl in Hlen; lia].
  - rewrite <- cons_seq, <- fmap_S_seq, fmap_cons. cbn [concat].
    etrans; [|apply (take_drop size l)]. f_equal.
    { by rewrite Nat.mul_0_r, drop_0. }
    rewrite <- list_fmap_compose.
    etrans; [|apply (IH (drop size l)); rewrite length_drop; lia].
    f_equal. apply list_fmap_ext. intros i j _. simpl.
    rewrite drop_drop. do 2 f_equal. lia.
Qed.

(** X26. The pages of the feed partition the filtered list: pages 1 to
    [totalPages] joined in order give the list back, each of them holds
    between 1 and 50 receipts, only the last one can hold fewer than 50,
    and every later page is empty. *)
Theorem paginatedReceipts_partition {A : Type} (filteredReceipts : list A) :
  let pages := totalPages (length filteredReceipts) in
  concat
    (paginatedReceipts filteredReceipts <$> seqZ 1 pages)
  = filteredReceipts
  /\ (forall p,
        1 <= p <= pages ->
        (1 <= length (paginatedReceipts filteredReceipts p) <= 50)%nat)
  /\ (forall p,
        1 <= p < pages ->
        length (paginatedReceipts filteredReceipts p) = 50%nat)
  /\ (forall p,
        pages < p -> paginatedReceipts filteredReceipts p = [])
  /\ (filteredReceipts = [] <-> pages = 0).
Proof.
  intros pages.
  assert (Hpage : forall p,
             1 <= p ->
             paginatedReceipts filteredReceipts p
             = take 50 (drop (50 * Z.to_nat (p - 1)) filteredReceipts)).
  { intros p Hp. unfold paginatedReceipts, ITEMS_PER_PAGE. cbv zeta.
    rewrite Array_slice_window by lia. do 2 f_equal. lia. }
  assert (Hpages : 50 * (pages - 1) < Z.of_nat (length filteredReceipts)
                   <= 50 * pages).
  { unfold pages, totalPages, ITEMS_PER_PAGE.
    pose proof (Z.mul_div_le (Z.of_nat (length filteredReceipts) + 50 - 1) 50
                  ltac:(lia)).
    pose proof (Z.mul_succ_div_gt (Z.of_nat (length filteredReceipts) + 50 - 1)
                  50 ltac:(lia)).
    lia. }
  split_and!.
  - rewrite <- (pages_concat 50 (Z.to_nat pages) filteredReceipts) at 2 by lia.
    f_equal. unfold seqZ. rewrite <- list_fmap_compose.
    apply list_fmap_ext. intros i j Hj%lookup_seq. simpl.
    rewrite Hpage by lia. do 3 f_equal. lia.
  - intros p Hp. rewrite Hpage, length_take, length_drop by lia. lia.
  - intros p Hp. rewrite Hpage, length_take, length_drop by lia. lia.
  - intros p Hp. rewrite Hpage by lia. rewrite drop_ge by lia. apply take_nil.
  - split.
    + intros ->. reflexivity.
    + intros Hzero. destruct filteredReceipts; [reflexivity|].
      simpl in Hpages. lia.
Qed.

(** The fields of a receipt the list of the feed reads. *)
Module FeedReceipt.
Record t := { source : string; title : string; snippet : string }.
End FeedReceipt.

Section Feed.

(** [String.prototype.toLowerCase] and [String.prototype.trim]. *)
Variable toLowerCase : string -> string.
Variable trim : string -> string.

(** Whether a receipt passes the filter of the feed; [filter] is [None]
    for ['all']. *)
Definition passes (filter : option ContentCategory) (searchQuery : string)
    (r : FeedReceipt.t) : bool :=
  if
    match filter with
    | Some wanted =>
        bool_decide
          (getCategoryFromSource (FeedReceipt.source r) <> Some wanted)
    | None => false
    end
  then false
  else if bool_decide (trim searchQuery <> "")
  then
    let query := toLowerCase searchQuery in
    includes (toLowerCase (FeedReceipt.title r)) query
    || includes (toLowerCase (FeedReceipt.snippet r)) query
  else true.

Definition filteredReceipts (receipts : list FeedReceipt.t)
    (filter : option ContentCategory) (searchQuery : string)
  : list FeedReceipt.t :=
  List.filter (passes filter searchQuery) receipts.

(** [categoryCounts]: the object with the keys ["all"] and the five
    categories. *)
Definition categoryCounts (receipts : list FeedReceipt.t) : gmap string Z :=
  let counts : gmap string Z :=
    {[ "all" := Z.of_nat (length receipts); "news" := 0; "social" := 0;
       "tech" := 0; "events" := 0; "weather" := 0 ]} in
  fold_left
    (fun counts r =>
       match getCategoryFromSource (FeedReceipt.source r) with
       | Some cat => <[ cat := default 0 (counts !! cat) + 1 ]> counts
       | None => counts
       end)
    receipts counts.

End Feed.

(** The number of receipts [getCategoryFromSource] puts in a category;
    [None] counts the receipts it puts in none. *)
Definition in_category (category : option ContentCategory)
    (receipts : list FeedReceipt.t) : Z :=
  Z.of_nat
    (length
       (filter
          (fun r => getCategoryFromSource (FeedReceipt.source r) = category)
          receipts)).

Lemma getCategoryFromSource_known (source : string) (c : ContentCategory) :
  getCategoryFromSource source = Some c -> c ∈ ALL_CATEGORIES.
Proof.
  unfold getCategoryFromSource, ALL_CATEGORIES.
  repeat case_match; intros [= <-]; repeat constructor.
Qed.

Lemma categoryCounts_fold (receipts : list FeedReceipt.t)
    (counts : gmap string Z) (key : string) (v : Z) :
  counts !! key = Some v ->
  fold_left
    (fun counts r =>
       match getCategoryFromSource (FeedReceipt.source r) with
       | Some cat => <[ cat := default 0 (counts !! cat) + 1 ]> counts
       | None => counts
       end)
    receipts counts !! key
  = Some (v + in_category (Some key) receipts).
Proof.
  unfold in_category. revert counts v.
  induction receipts as [|r receipts IH]; intros counts v Hv.
  - cbn [fold_left]. rewrite Hv, filter_nil. f_equal. simpl. lia.
  - cbn [fold_left]. rewrite filter_cons.
    destruct (getCategoryFromSource (FeedReceipt.source r)) as [cat|] eqn:Hcat;
      cbv beta iota.
    + destruct (decide (cat = key)) as [->|Hne].
      * assert (Hnext : <[ key := default 0 (counts !! key) + 1 ]> counts !! key
                        = Some (v + 1))
          by (rewrite lookup_insert_eq, Hv; reflexivity).
        etrans; [exact (IH _ (v + 1) Hnext)|].
        rewrite decide_True by reflexivity. f_equal. simpl length. lia.
      * assert (Hnext : <[ cat := default 0 (counts !! cat) + 1 ]> counts !! key
                        = Some v)
          by (rewrite lookup_insert_ne by exact Hne; exact Hv).
        etrans; [exact (IH _ v Hnext)|].
        rewrite decide_False by congruence. reflexivity.
    + etrans; [exact (IH _ v Hv)|]. by rewrite decide_False.
Qed.

(** X27. The counts of the feed agree with its filter: ["all"] counts the
    receipts, each of the five categories counts the receipts whose source
    [getCategoryFromSource] puts in it, which with an empty search are
    exactly the receipts listed when that category is selected, and a
    receipt whose source names no category is counted under ["all"] alone;
    with ['all'] selected and an empty search every receipt is listed. *)
Theorem categoryCounts_match_filter (toLowerCase trim : string -> string)
    (receipts : list FeedReceipt.t) :
  let counts := categoryCounts receipts in
  counts !! "all" = Some (Z.of_nat (length receipts))
  /\ (forall c,
        c ∈ ALL_CATEGORIES ->
        counts !! c = Some (in_category (Some c) receipts))
  /\ (forall c searchQuery,
        c ∈ ALL_CATEGORIES ->
        trim searchQuery = "" ->
        counts !! c
        = Some
            (Z.of_nat
               (length
                  (filteredReceipts toLowerCase trim receipts (Some c)
                     searchQuery))))
  /\ (forall searchQuery,
        trim searchQuery = "" ->
        filteredReceipts toLowerCase trim receipts None searchQuery = receipts)
  /\ in_category (Some "news") receipts + in_category (Some "social") receipts
     + in_category (Some "tech") receipts + in_category (Some "events") receipts
     + in_category (Some "weather") receipts + in_category None receipts
     = Z.of_nat (length receipts).
Proof.
  intros counts.
  assert (Hcat : forall c,
             c ∈ ALL_CATEGORIES ->
             counts !! c = Some (in_category (Some c) receipts)).
  { intros c Hc. unfold counts, categoryCounts. cbv zeta.
    rewrite (categoryCounts_fold _ _ c 0); [f_equal; lia|].
    unfold ALL_CATEGORIES in Hc.
    repeat (apply elem_of_cons in Hc as [->|Hc]; [reflexivity|]).
    by apply elem_of_nil in Hc. }
  split_and!.
  - unfold counts, categoryCounts. cbv zeta.
    rewrite (categoryCounts_fold _ _ "all" (Z.of_nat (length receipts)))
      by reflexivity.
    f_equal. unfold in_category.
    rewrite (filter_none _ receipts); [simpl; lia|].
    apply Forall_forall. intros r _ Hall.
    apply getCategoryFromSource_known in Hall. unfold ALL_CATEGORIES in Hall.
    repeat (apply elem_of_cons in Hall as [?|Hall]; [discriminate|]).
    by apply elem_of_nil in Hall.
  - exact Hcat.
  - intros c searchQuery Hc Hq. rewrite (Hcat c Hc). do 2 f_equal.
    unfold in_category, filteredReceipts. f_equal. clear counts Hcat.
    induction receipts as [|r receipts IH]; [reflexivity|].
    rewrite filter_cons. cbn [List.filter]. unfold passes at 1.
    rewrite Hq. rewrite (bool_decide_eq_false_2 ("" <> "")) by tauto.
    destruct (decide (getCategoryFromSource (FeedReceipt.source r) = Some c))
      as [Heq|Hne].
    + rewrite bool_decide_eq_false_2 by tauto. simpl. by rewrite IH.
    + rewrite bool_decide_eq_true_2 by exact Hne. exact IH.
  - intros searchQuery Hq. unfold filteredReceipts. clear counts Hcat.
    induction receipts as [|r receipts IH]; [reflexivity|].
    cbn [List.filter]. unfold passes at 1.
    rewrite Hq. rewrite (bool_decide_eq_false_2 ("" <> "")) by tauto.
    by rewrite IH.
  - unfold in_category. clear.
    induction receipts as [|r receipts IH]; [reflexivity|].
    rewrite !filter_cons.
    destruct (getCategoryFromSource (FeedReceipt.source r)) as [c|] eqn:Hc.
    + apply getCategoryFromSource_known in Hc. unfold ALL_CATEGORIES in Hc.
      repeat (apply elem_of_cons in Hc as [->|Hc];
              [repeat case_decide; try congruence;
               try (exfalso;
                    match goal with
                    | H : Some ?a <> Some ?a |- _ => by apply H
                    end);
               simpl length; lia|]).
      by apply elem_of_nil in Hc.
    + repeat case_decide; try congruence; simpl length; lia.
Qed.

(** ** The map page *)

Module MapPageState.

(** The updater [handleCategoryToggle] passes to [setSelectedCategories]. *)
Definition handleCategoryToggle (category : ContentCategory)
    (prev : gset ContentCategory) : gset ContentCategory :=
  let next := prev in
  if decide (category ∈ next) then
    if decide (size next <= 1)%nat then prev
    else next ∖ {[category]}
  else next ∪ {[category]}.

(** [categoryFilteredReceipts]. *)
Definition categoryFilteredReceipts (timeFilteredReceipts : list Receipt.t)
    (selectedCategories : gset ContentCategory) : list Receipt.t :=
  if decide (size selectedCategories = length ALL_CATEGORIES)
  then timeFilteredReceipts
  else if decide (size selectedCategories = 0%nat) then timeFilteredReceipts
  else
    filter (fun r => MapPage.getReceiptCategory r ∈ selectedCategories)
      timeFilteredReceipts.

End MapPageState.

Lemma gset_size_remove (c : ContentCategory) (s : gset ContentCategory) :
  c ∈ s -> size s = S (size (s ∖ {[c]})).
Proof.
  intros Hc. rewrite size_difference by (by apply singleton_subseteq_l).
  rewrite size_singleton.
  assert (size s <> 0%nat).
  { intros Hzero. apply size_empty_inv in Hzero.
    apply (not_elem_of_empty (C := gset ContentCategory) c).
    by rewrite <- Hzero. }
  lia.
Qed.

Lemma gset_single (c : ContentCategory) (s : gset ContentCategory) :
  c ∈ s -> (size s <= 1)%nat -> s = {[c]}.
Proof.
  intros Hc Hsize. pose proof (gset_size_remove c s Hc) as Hsplit.
  assert (Hone : size s = 1%nat) by lia.
  apply set_eq. intros x. rewrite elem_of_singleton. split.
  - intros Hx. by apply (size_singleton_inv s x c Hone).
  - by intros ->.
Qed.

Lemma gset_not_empty (c : ContentCategory) (s : gset ContentCategory) :
  c ∈ s -> s <> ∅.
Proof. intros Hc ->. by apply not_elem_of_empty in Hc. Qed.

Lemma handleCategoryToggle_nonempty (c : ContentCategory)
    (s : gset ContentCategory) :
  s <> ∅ -> MapPageState.handleCategoryToggle c s <> ∅.
Proof.
  intros Hs. unfold MapPageState.handleCategoryToggle. cbv zeta.
  destruct (decide (c ∈ s)) as [Hc|Hc].
  - destruct (decide (size s <= 1)%nat) as [Hone|Hmany]; [exact Hs|].
    intros Hempty. pose proof (gset_size_remove c s Hc) as Hsplit.
    rewrite Hempty, size_empty in Hsplit. lia.
  - apply (gset_not_empty c), elem_of_union_r. by apply elem_of_singleton.
Qed.

(** X28. Toggling categories never empties a selection that is not empty:
    the last selected category cannot be deselected, so from the initial
    selection of all five categories the state "none selected", for which
    [categoryFilteredReceipts] shows every receipt, is never reached.
    Toggling the same category twice restores a non-empty selection, and
    with all five categories selected nothing is filtered out. *)
Theorem handleCategoryToggle_keeps_one (toggles : list ContentCategory)
    (selected : gset ContentCategory) (receipts : list Receipt.t) :
  selected <> ∅ ->
  foldl (fun s c => MapPageState.handleCategoryToggle c s) selected toggles <> ∅
  /\ (forall c,
        MapPageState.handleCategoryToggle c
          (MapPageState.handleCategoryToggle c selected)
        = selected)
  /\ (forall c,
        c ∈ MapPageState.handleCategoryToggle c selected
        <-> c ∉ selected \/ selected = {[c]})
  /\ MapPageState.categoryFilteredReceipts receipts (list_to_set ALL_CATEGORIES)
     = receipts
  /\ (forall r,
        r ∈ MapPageState.categoryFilteredReceipts receipts selected
        <-> r ∈ receipts
            /\ (size selected = 5%nat
                \/ MapPage.getReceiptCategory r ∈ selected)).
Proof.
  intros Hne. split_and!.
  - revert selected Hne. induction toggles as [|c toggles IH]; intros s Hs;
      [exact Hs|]. simpl. by apply IH, handleCategoryToggle_nonempty.
  - intros c. unfold MapPageState.handleCategoryToggle. cbv zeta.
    destruct (decide (c ∈ selected)) as [Hc|Hc].
    + destruct (decide (size selected <= 1)%nat) as [Hone|Hmany].
      * by rewrite decide_True, decide_True.
      * rewrite decide_False
          by (rewrite elem_of_difference, elem_of_singleton; tauto).
        apply set_eq. intros x.
        rewrite elem_of_union, elem_of_difference, elem_of_singleton.
        destruct (decide (x = c)) as [->|?]; tauto.
    + assert (Hin : c ∈ selected ∪ {[c]})
        by (apply elem_of_union_r; by apply elem_of_singleton).
      rewrite decide_True by exact Hin.
      rewrite decide_False.
      * apply set_eq. intros x.
        rewrite elem_of_difference, elem_of_union, elem_of_singleton.
        destruct (decide (x = c)) as [->|?]; tauto.
      * intros Hsize. pose proof (gset_single c _ Hin Hsize) as Hs.
        apply Hne. apply set_eq. intros x. split.
        -- intros Hx. assert (Hxc : x ∈ selected ∪ {[c]})
             by (by apply elem_of_union_l).
           rewrite Hs in Hxc. apply elem_of_singleton in Hxc as ->. done.
        -- by intros ?%not_elem_of_empty.
  - intros c. unfold MapPageState.handleCategoryToggle. cbv zeta.
    destruct (decide (c ∈ selected)) as [Hc|Hc].
    + destruct (decide (size selected <= 1)%nat) as [Hone|Hmany].
      * split; [intros _; right; by apply gset_single|done].
      * rewrite elem_of_difference, elem_of_singleton. split; [tauto|].
        intros [?|Hs]; [done|]. rewrite Hs, size_singleton in Hmany. lia.
    + rewrite elem_of_union, elem_of_singleton. tauto.
  - unfold MapPageState.categoryFilteredReceipts.
    rewrite decide_True; [reflexivity|]. by vm_compute.
  - intros r. unfold MapPageState.categoryFilteredReceipts.
    change (length ALL_CATEGORIES) with 5%nat.
    destruct (decide (size selected = 5%nat)) as [H5|H5]; [tauto|].
    rewrite decide_False.
    + rewrite list_elem_of_filter. tauto.
    + intros Hzero. apply size_empty_inv in Hzero. by apply leibniz_equiv in Hzero.
Qed.

Lemma handleCategoryToggle_keeps_one_example :
  foldl (fun s c => MapPageState.handleCategoryToggle c s)
    (list_to_set ALL_CATEGORIES)
    ["news"; "social"; "tech"; "events"; "weather"; "news"]
  <> ∅.
Proof.
  assert (Hne : list_to_set ALL_CATEGORIES <> (∅ : gset ContentCategory)).
  { apply (gset_not_empty "news"). apply elem_of_list_to_set.
    apply list_elem_of_here. }
  exact (proj1 (handleCategoryToggle_keeps_one
                  ["news"; "social"; "tech"; "events"; "weather"; "news"]
                  (list_to_set ALL_CATEGORIES) [] Hne)).
Defined.

(** * The migration of the cached pulses *)

(** A receipt of a cached pulse: its identifier and the fields the
    migration and the category helpers read. A missing [source] behaves
    there as the empty string. *)
Module CachedReceipt.
Record t := { id : string; receipt : Receipt.t }.
End CachedReceipt.

(** What [lensLookup] holds for an item. *)
Module StoredLens.
Record t := { lens : string; source : string }.
End StoredLens.

(** A cached pulse as [JSON.parse] returns it: the three places that hold
    receipts, each of which may be missing. *)
Module PulseCache.
Record t := {
  allReceipts : option (list CachedReceipt.t);
  receiptsFeed : option (list CachedReceipt.t);
  topics : option (list (option (list CachedReceipt.t)))
}.
End PulseCache.

(** The response of [POST] when no error escapes the outer [try]. *)
Module MigrateResponse.
Inductive t :=
| NoCaches
| Complete (cachesProcessed cachesUpdated receiptsUpdated lookupSize : nat).
End MigrateResponse.

Module Migrate.

(** [lensLookup], built from the rows of [historicalItem]. *)
Definition lensLookup (historicalItems : list (string * StoredLens.t))
  : JsMap.t StoredLens.t :=
  fold_left (fun lookup item => JsMap.set item.1 item.2 lookup)
    historicalItems JsMap.clear.

(** [!receipt.lens]. *)
Definition no_lens (r : CachedReceipt.t) : bool :=
  match Receipt.lens (CachedReceipt.receipt r) with
  | Some (String _ _) => false
  | _ => true
  end.

(** The body of the three loops over receipts: the receipt afterwards, and
    whether it was modified. *)
Definition migrateReceipt (lookup : JsMap.t StoredLens.t)
    (r : CachedReceipt.t) : CachedReceipt.t * bool :=
  match JsMap.get (CachedReceipt.id r) lookup with
  | Some found =>
      if no_lens r then
        ({| CachedReceipt.id := CachedReceipt.id r;
            CachedReceipt.receipt :=
              {| Receipt.lens := Some (StoredLens.lens found);
                 Receipt.sourceType := Some (StoredLens.source found);
                 Receipt.source := Receipt.source (CachedReceipt.receipt r) |} |},
         true)
      else (r, false)
  | None => (r, false)
  end.

(** A loop over an array of receipts: the array afterwards and the number
    of receipts modified. *)
Definition migrateReceipts (lookup : JsMap.t StoredLens.t)
    (receipts : list CachedReceipt.t) : list CachedReceipt.t * nat :=
  ((fun r => (migrateReceipt lookup r).1) <$> receipts,
   length (List.filter (fun r => (migrateReceipt lookup r).2) receipts)).

Definition migrateOptional (lookup : JsMap.t StoredLens.t)
    (receipts : option (list CachedReceipt.t))
  : option (list CachedReceipt.t) * nat :=
  match receipts with
  | Some l => (Some (migrateReceipts lookup l).1, (migrateReceipts lookup l).2)
  | None => (None, 0%nat)
  end.

(** The loop over the topics and their receipts. *)
Definition migrateTopics (lookup : JsMap.t StoredLens.t)
    (topics : option (list (option (list CachedReceipt.t))))
  : option (list (option (list CachedReceipt.t))) * nat :=
  match topics with
  | Some ts =>
      (Some ((fun t => (migrateOptional lookup t).1) <$> ts),
       sum_list ((fun t => (migrateOptional lookup t).2) <$> ts))
  | None => (None, 0%nat)
  end.

(** The work on one parsed cache: the data afterwards, [modified], and the
    increase of [receiptsUpdated], which counts [allReceipts] only. *)
Definition migrateData (lookup : JsMap.t StoredLens.t) (data : PulseCache.t)
  : PulseCache.t * bool * nat :=
  let all := migrateOptional lookup (PulseCache.allReceipts data) in
  let feed := migrateOptional lookup (PulseCache.receiptsFeed data) in
  let topics := migrateTopics lookup (PulseCache.topics data) in
  ({| PulseCache.allReceipts := all.1;
      PulseCache.receiptsFeed := feed.1;
      PulseCache.topics := topics.1 |},
   negb (Nat.eqb (all.2 + feed.2 + topics.2) 0),
   all.2).

(** The body of the loop over the caches, on the caches written so far
    and the counters [totalUpdated] and [receiptsUpdated]; a cache is
    given by its key and its parsed output, [None] when [JSON.parse]
    throws. *)
Definition migrateCache (lookup : JsMap.t StoredLens.t)
    (acc : list (string * option PulseCache.t) * nat * nat)
    (cache : string * option PulseCache.t)
  : list (string * option PulseCache.t) * nat * nat :=
  match cache.2 with
  | None => (acc.1.1 ++ [cache], acc.1.2, acc.2)
  | Some data =>
      let result := migrateData lookup data in
      if result.1.2
      then (acc.1.1 ++ [(cache.1, Some result.1.1)], S acc.1.2,
            (acc.2 + result.2)%nat)
      else (acc.1.1 ++ [cache], acc.1.2, (acc.2 + result.2)%nat)
  end.

(** [POST], with the queries and the updates of the cache table taken to
    succeed: the response and the caches afterwards. *)
Definition POST (historicalItems : list (string * StoredLens.t))
    (caches : list (string * option PulseCache.t))
  : MigrateResponse.t * list (string * option PulseCache.t) :=
  if decide (length caches = 0%nat) then (MigrateResponse.NoCaches, caches)
  else
    let lookup := lensLookup historicalItems in
    let result := fold_left (migrateCache lookup) caches ([], 0%nat, 0%nat) in
    (MigrateResponse.Complete (length caches) result.1.2 result.2
       (JsMap.size lookup),
     result.1.1).

End Migrate.

Section MigrateFacts.
Variable lookup : JsMap.t StoredLens.t.

(** Every stored lens is a non-empty string. *)
Definition lenses_known : Prop :=
  forall id found,
    JsMap.get id lookup = Some found -> StoredLens.lens found <> "".

Lemma migrateReceipt_again (r : CachedReceipt.t) :
  lenses_known ->
  Migrate.migrateReceipt lookup (Migrate.migrateReceipt lookup r).1
  = ((Migrate.migrateReceipt lookup r).1, false).
Proof.
  intros Hknown.
  destruct (Migrate.migrateReceipt lookup r) as [r' modified] eqn:Hm.
  cbn [fst]. unfold Migrate.migrateReceipt in *.
  destruct (JsMap.get (CachedReceipt.id r) lookup) as [found|] eqn:Hget.
  - destruct (Migrate.no_lens r) eqn:Hlens; injection Hm as <- <-.
    + cbn [CachedReceipt.id]. rewrite Hget.
      unfold Migrate.no_lens. cbn [CachedReceipt.receipt Receipt.lens].
      specialize (Hknown _ _ Hget).
      destruct (StoredLens.lens found); [done|reflexivity].
    + by rewrite Hget, Hlens.
  - injection Hm as <- <-. by rewrite Hget.
Qed.

Lemma migrateReceipts_again (receipts : list CachedReceipt.t) :
  lenses_known ->
  Migrate.migrateReceipts lookup (Migrate.migrateReceipts lookup receipts).1
  = ((Migrate.migrateReceipts lookup receipts).1, 0%nat).
Proof.
  intros Hknown. unfold Migrate.migrateReceipts. cbn [fst].
  induction receipts as [|r receipts IH]; [reflexivity|].
  rewrite !fmap_cons. cbn [List.filter].
  rewrite (migrateReceipt_again r Hknown). cbn [fst snd].
  injection IH as IH1 IH2. by rewrite IH1, IH2.
Qed.

Lemma migrateOptional_again (receipts : option (list CachedReceipt.t)) :
  lenses_known ->
  Migrate.migrateOptional lookup (Migrate.migrateOptional lookup receipts).1
  = ((Migrate.migrateOptional lookup receipts).1, 0%nat).
Proof.
  intros Hknown. destruct receipts as [l|]; [|reflexivity].
  unfold Migrate.migrateOptional. cbn [fst].
  by rewrite (migrateReceipts_again l Hknown).
Qed.

Lemma migrateTopics_again
    (topics : option (list (option (list CachedReceipt.t)))) :
  lenses_known ->
  Migrate.migrateTopics lookup (Migrate.migrateTopics lookup topics).1
  = ((Migrate.migrateTopics lookup topics).1, 0%nat).
Proof.
  intros Hknown. destruct topics as [ts|]; [|reflexivity].
  unfold Migrate.migrateTopics. cbn [fst].
  induction ts as [|t ts IH]; [reflexivity|].
  rewrite !fmap_cons. cbn [sum_list sum_list_with].
  rewrite (migrateOptional_again t Hknown). cbn [fst snd].
  injection IH as IH1 IH2. by rewrite IH1, IH2.
Qed.

Lemma migrateData_again (data : PulseCache.t) :
  lenses_known ->
  Migrate.migrateData lookup (Migrate.migrateData lookup data).1.1
  = ((Migrate.migrateData lookup data).1.1, false, 0%nat).
Proof.
  intros Hknown. unfold Migrate.migrateData. cbv zeta.
  cbn [fst PulseCache.allReceipts PulseCache.receiptsFeed PulseCache.topics].
  rewrite !migrateOptional_again, migrateTopics_again by exact Hknown.
  reflexivity.
Qed.

End MigrateFacts.

Section MigrationRuns.
Variable lookup : JsMap.t StoredLens.t.
Hypothesis known : lenses_known lookup.

(** A cache the migration has nothing to do for. *)
Definition migrated (cache : string * option PulseCache.t) : Prop :=
  match cache.2 with
  | None => True
  | Some data => Migrate.migrateData lookup data = (data, false, 0%nat)
  end.

Lemma migrateData_unmodified (data : PulseCache.t) :
  (Migrate.migrateData lookup data).1.2 = false ->
  Migrate.migrateData lookup data = (data, false, 0%nat).
Proof.
  assert (Hlist : forall l,
             (Migrate.migrateReceipts lookup l).2 = 0%nat ->
             (Migrate.migrateReceipts lookup l).1 = l).
  { intros l. unfold Migrate.migrateReceipts. cbn [fst snd].
    induction l as [|r l IH]; [reflexivity|].
    rewrite fmap_cons. cbn [List.filter].
    destruct (Migrate.migrateReceipt lookup r) as [r' modified] eqn:Hr.
    cbn [fst snd]. destruct modified; [discriminate|].
    intros Hl. rewrite (IH Hl). f_equal.
    unfold Migrate.migrateReceipt in Hr.
    destruct (JsMap.get _ lookup); [destruct (Migrate.no_lens r)|];
      congruence. }
  assert (Hopt : forall o,
             (Migrate.migrateOptional lookup o).2 = 0%nat ->
             Migrate.migrateOptional lookup o = (o, 0%nat)).
  { intros [l|]; [|reflexivity]. unfold Migrate.migrateOptional.
    cbn [fst snd]. intros Hl. by rewrite Hl, (Hlist l Hl). }
  assert (Htopics : forall ts,
             (Migrate.migrateTopics lookup ts).2 = 0%nat ->
             Migrate.migrateTopics lookup ts = (ts, 0%nat)).
  { intros [ts|]; [|reflexivity]. unfold Migrate.migrateTopics.
    cbn [fst snd]. intros Hsum. rewrite Hsum. do 2 f_equal.
    induction ts as [|t ts IH]; [reflexivity|].
    rewrite fmap_cons. rewrite fmap_cons in Hsum.
    assert (Hcons : forall (a : nat) l, sum_list (a :: l) = (a + sum_list l)%nat)
      by reflexivity.
    rewrite Hcons in Hsum.
    rewrite (Hopt t) by lia. cbn [fst]. f_equal. apply IH. lia. }
  unfold Migrate.migrateData. cbv zeta. cbn [fst snd].
  intros Hmod. apply negb_false_iff, Nat.eqb_eq in Hmod.
  rewrite (Hopt (PulseCache.allReceipts data)) by lia.
  rewrite (Hopt (PulseCache.receiptsFeed data)) by lia.
  rewrite (Htopics (PulseCache.topics data)) by lia.
  cbn [fst snd]. by destruct data.
Qed.

Lemma migrateCache_run (caches : list (string * option PulseCache.t))
    (acc : list (string * option PulseCache.t) * nat * nat) :
  Forall migrated acc.1.1 ->
  exists written,
    (fold_left (Migrate.migrateCache lookup) caches acc).1.1
    = acc.1.1 ++ written
    /\ length written = length caches
    /\ Forall migrated written.
Proof.
  revert acc. induction caches as [|cache caches IH]; intros acc Hacc.
  - exists []. by rewrite app_nil_r.
  - cbn [fold_left].
    assert (Hstep : exists c,
               (Migrate.migrateCache lookup acc cache).1.1 = acc.1.1 ++ [c]
               /\ migrated c).
    { unfold Migrate.migrateCache, migrated.
      destruct cache as [key [data|]]; cbn [fst snd]; cbv zeta.
      - destruct (Migrate.migrateData lookup data).1.2 eqn:Hmod; cbn [fst snd].
        + eexists. split; [reflexivity|]. cbn [snd].
          pose proof (migrateData_again lookup data known) as Hagain.
          exact Hagain.
        + eexists. split; [reflexivity|]. cbn [snd].
          by apply migrateData_unmodified.
      - eexists. split; [reflexivity|]. done. }
    destruct Hstep as (c & Hc & Hmig).
    destruct (IH (Migrate.migrateCache lookup acc cache)) as (written & Hw & Hlen & Hall).
    { rewrite Hc. apply Forall_app. split; [exact Hacc|]. by constructor. }
    exists (c :: written). rewrite Hw, Hc, <- app_assoc. cbn [length].
    split_and!; [reflexivity|by rewrite Hlen|by constructor].
Qed.

Lemma migrateCache_settled (caches : list (string * option PulseCache.t))
    (acc : list (string * option PulseCache.t) * nat * nat) :
  Forall migrated caches ->
  fold_left (Migrate.migrateCache lookup) caches acc
  = (acc.1.1 ++ caches, acc.1.2, acc.2).
Proof.
  intros Hall. revert acc.
  induction Hall as [|cache caches Hcache _ IH]; intros acc.
  - rewrite app_nil_r. by destruct acc as [[? ?] ?].
  - cbn [fold_left]. rewrite IH. unfold Migrate.migrateCache, migrated in *.
    destruct cache as [key [data|]]; cbn [fst snd] in *; cbv zeta.
    + rewrite Hcache. cbn [fst snd]. rewrite <- app_assoc, Nat.add_0_r.
      reflexivity.
    + by rewrite <- app_assoc.
Qed.

End MigrationRuns.


(** A cache with one receipt that has no lens yet, and its stored item. *)
Definition demo_stored : list (string * StoredLens.t) :=
  [("item-1", {| StoredLens.lens := "Tech"; StoredLens.source := "search" |})].

Definition demo_caches : list (string * option PulseCache.t) :=
  [("pulse:6h",
    Some {| PulseCache.allReceipts :=
              Some [{| CachedReceipt.id := "item-1";
                       CachedReceipt.receipt :=
                         {| Receipt.lens := None; Receipt.sourceType := None;
                            Receipt.source := "Search: tech" |} |}];
            PulseCache.receiptsFeed := None;
            PulseCache.topics := None |});
   ("pulse:24h", None)].

(** The first run updates the cache and its receipt. *)
Example POST_first_run :
  (Migrate.POST demo_stored demo_caches).1 = MigrateResponse.Complete 2 1 1 1.
Proof. reflexivity. Qed.

